(** * Non-consecutive Sudoku: CNF encoder and DPLL solver

    A shallow embedding of the Python sources

      - [src/solving/encoder.py]  (module [solving_encoder])
      - [src/CODE/encoder.py]     (module [CODE_encoder])
      - [src/solver.py]           (module [solver])
      - [src/solving/solver.py]   (module [solving_solver])
      - [src/research_comparison/backtracking_solver.py]
                                  (module [backtracking_solver])
      - [src/research_comparison/main.py]  (module [main])

    Python integers are [Z]; Python lists are [list]; the clause sets of
    [src/solver.py] are [gset Z]; the assignment array is a [list Z] read
    and written by index, with the [IndexError] of an out-of-range read
    written out.  Exceptions are modelled by the [result] type. *)

From stdpp Require Import base tactics option list list_numbers sets gmap.

Local Open Scope Z_scope.

(** ** Python runtime: exceptions, ranges, indexing *)

Inductive exn : Set :=
  | IndexError
  | ValueError.

Inductive result (A : Type) : Type :=
  | Ret (a : A)
  | Raise (e : exn).

Arguments Ret {A} a.
Arguments Raise {A} e.

Definition result_bind {A B : Type} (m : result A) (k : A → result B) : result B :=
  match m with
  | Ret a => k a
  | Raise e => Raise e
  end.

#[export] Instance result_mret : MRet result := @Ret.
#[export] Instance result_mbind : MBind result := λ A B k m, result_bind m k.

(** [range(a, b)]: the integers [a, a+1, ..., b-1], empty when [b <= a]. *)
Definition py_range (a b : Z) : list Z := seqZ a (b - a).

(** [range(a, b, s)]: Python raises [ValueError] when the step is zero. *)
Definition py_range_step (a b s : Z) : result (list Z) :=
  if s =? 0 then Raise ValueError
  else if 0 <? s then Ret ((λ k, a + k * s) <$> seqZ 0 ((b - a + s - 1) `div` s))
  else Ret ((λ k, a + k * s) <$> seqZ 0 ((a - b - s - 1) `div` (- s))).

(** [l[i]] for a non-negative index [i]. *)
Definition py_index {A : Type} (l : list A) (i : Z) : result A :=
  match l !! Z.to_nat i with
  | Some x => Ret x
  | None => Raise IndexError
  end.

(** Sequencing of loop bodies that may raise: the bodies run left to right
    and the first exception aborts the loop. *)
Fixpoint collect {A B : Type} (f : A → result (list B)) (l : list A) : result (list B) :=
  match l with
  | [] => Ret []
  | x :: l' =>
      match f x with
      | Raise e => Raise e
      | Ret ys =>
          match collect f l' with
          | Raise e => Raise e
          | Ret zs => Ret (ys ++ zs)
          end
      end
  end.

(** A whitespace-separated token of the puzzle file, seen through the only
    operation the encoders apply to it: [int(tok)] either yields an integer
    or raises [ValueError]. *)
Inductive token : Set :=
  | TInt (z : Z)
  | TBad.

Definition py_int (t : token) : result Z :=
  match t with
  | TInt z => Ret z
  | TBad => Raise ValueError
  end.

(** [int(N ** 0.5)]: the integer square root (exact for every grid size a
    puzzle file can have). *)
Definition int_sqrt (N : Z) : Z := Z.sqrt N.

(** ** [src/solving/encoder.py] *)

Module solving_encoder.

Definition var (N r c v : Z) : Z := r * N * N + c * N + v.

(** (1) exactly one value per cell *)
Definition cell_clauses (N : Z) : list (list Z) :=
  r ← py_range 0 N;
  c ← py_range 0 N;
  ((λ v, var N r c v) <$> py_range 1 (N + 1))
    :: (v1 ← py_range 1 (N + 1);
        v2 ← py_range (v1 + 1) (N + 1);
        [[- var N r c v1; - var N r c v2]]).

(** (2) each value once per row *)
Definition row_clauses (N : Z) : list (list Z) :=
  r ← py_range 0 N;
  v ← py_range 1 (N + 1);
  ((λ c, var N r c v) <$> py_range 0 N)
    :: (c1 ← py_range 0 N;
        c2 ← py_range (c1 + 1) N;
        [[- var N r c1 v; - var N r c2 v]]).

(** (3) each value once per column *)
Definition col_clauses (N : Z) : list (list Z) :=
  c ← py_range 0 N;
  v ← py_range 1 (N + 1);
  ((λ r, var N r c v) <$> py_range 0 N)
    :: (r1 ← py_range 0 N;
        r2 ← py_range (r1 + 1) N;
        [[- var N r1 c v; - var N r2 c v]]).

(** (4) each value once per box; [vars_list[i]] cannot be out of range
    because [i] runs below [len(vars_list)]. *)
Definition box_clauses (N B : Z) : result (list (list Z)) :=
  r_boxes ← py_range_step 0 N B;
  c_boxes ← py_range_step 0 N B;
  mret (r_box ← r_boxes;
        c_box ← c_boxes;
        v ← py_range 1 (N + 1);
        let vars_list :=
          i ← py_range 0 B; j ← py_range 0 B; [var N (r_box + i) (c_box + j) v] in
        let len := Z.of_nat (length vars_list) in
        vars_list
          :: (i1 ← py_range 0 len;
              i2 ← py_range (i1 + 1) len;
              [[- (vars_list !!! Z.to_nat i1); - (vars_list !!! Z.to_nat i2)]])).

(** (5) orthogonal neighbours do not hold consecutive values *)
Definition adjacency_cell (N r c v : Z) : list (list Z) :=
  (if c + 1 <? N then
     (if v <? N then [[- var N r c v; - var N r (c + 1) (v + 1)]] else [])
     ++ (if 1 <? v then [[- var N r c v; - var N r (c + 1) (v - 1)]] else [])
   else [])
  ++ (if r + 1 <? N then
        (if v <? N then [[- var N r c v; - var N (r + 1) c (v + 1)]] else [])
        ++ (if 1 <? v then [[- var N r c v; - var N (r + 1) c (v - 1)]] else [])
      else []).

Definition adjacency_clauses (N : Z) : list (list Z) :=
  r ← py_range 0 N;
  c ← py_range 0 N;
  v ← py_range 1 (N + 1);
  adjacency_cell N r c v.

(** (6) one unit clause per filled cell *)
Definition clue_cell (N : Z) (text : list (list token)) (rc : Z * Z) : result (list (list Z)) :=
  let '(r, c) := rc in
  row ← py_index text r;
  tok ← py_index row c;
  v ← py_int tok;
  mret (if 0 <? v then [[var N r c v]] else []).

Definition clue_clauses (N : Z) (text : list (list token)) : result (list (list Z)) :=
  collect (clue_cell N text) (r ← py_range 0 N; c ← py_range 0 N; [(r, c)]).

(** [to_cnf], from the token rows of the file on: [text] is the list of
    [line.strip().split()] for each line. *)
Definition to_cnf (text : list (list token)) : result (list (list Z) * Z) :=
  let N := Z.of_nat (length text) in
  let B := int_sqrt N in
  let num_vars := N * N * N in
  boxes ← box_clauses N B;
  clues ← clue_clauses N text;
  mret (cell_clauses N ++ row_clauses N ++ col_clauses N ++ boxes
          ++ adjacency_clauses N ++ clues, num_vars).

End solving_encoder.

(** ** [src/CODE/encoder.py] *)

Module CODE_encoder.

Definition var (N r c v : Z) : Z := r * N * N + c * N + v.

(** each cell has one value; the at-least-one clause ranges over
    [range(1, 10)] *)
Definition cell_clauses (N : Z) : list (list Z) :=
  r ← py_range 0 N;
  c ← py_range 0 N;
  ((λ v, var N r c v) <$> py_range 1 10)
    :: (v1 ← py_range 1 (N + 1);
        v2 ← py_range (v1 + 1) (N + 1);
        [[- var N r c v1; - var N r c v2]]).

Definition row_clauses (N : Z) : list (list Z) :=
  r ← py_range 0 N;
  v ← py_range 1 (N + 1);
  ((λ c, var N r c v) <$> py_range 0 N)
    :: (c1 ← py_range 0 N;
        c2 ← py_range (c1 + 1) N;
        [[- var N r c1 v; - var N r c2 v]]).

Definition col_clauses (N : Z) : list (list Z) :=
  c ← py_range 0 N;
  v ← py_range 1 (N + 1);
  ((λ r, var N r c v) <$> py_range 0 N)
    :: (r1 ← py_range 0 N;
        r2 ← py_range (r1 + 1) N;
        [[- var N r1 c v; - var N r2 c v]]).

Definition box_clauses (N boxdim : Z) : result (list (list Z)) :=
  row_offsets ← py_range_step 0 N boxdim;
  col_offsets ← py_range_step 0 N boxdim;
  mret (row_offset ← row_offsets;
        col_offset ← col_offsets;
        v ← py_range 1 (N + 1);
        let box :=
          i ← py_range 0 boxdim; j ← py_range 0 boxdim;
          [var N (i + row_offset) (j + col_offset) v] in
        let len := Z.of_nat (length box) in
        box
          :: (loop1 ← py_range 0 len;
              loop2 ← py_range (loop1 + 1) len;
              [[- (box !!! Z.to_nat loop1); - (box !!! Z.to_nat loop2)]])).

(** non-consecutive rule; here the first test looks at the next row
    [i + 1] and the second at the next column [j + 1] *)
Definition adjacency_cell (N i j v : Z) : list (list Z) :=
  (if i + 1 <? N then
     (if v + 1 <=? N then [[- var N i j v; - var N (i + 1) j (v + 1)]] else [])
     ++ (if 1 <=? v - 1 then [[- var N i j v; - var N (i + 1) j (v - 1)]] else [])
   else [])
  ++ (if j + 1 <? N then
        (if v + 1 <=? N then [[- var N i j v; - var N i (j + 1) (v + 1)]] else [])
        ++ (if 1 <=? v - 1 then [[- var N i j v; - var N i (j + 1) (v - 1)]] else [])
      else []).

Definition adjacency_clauses (N : Z) : list (list Z) :=
  i ← py_range 0 N;
  j ← py_range 0 N;
  v ← py_range 1 (N + 1);
  adjacency_cell N i j v.

Definition clue_cell (N : Z) (text : list (list token)) (ij : Z * Z) : result (list (list Z)) :=
  let '(i, j) := ij in
  row ← py_index text i;
  tok ← py_index row j;
  text_int ← py_int tok;
  mret (if 0 <? text_int then [[var N i j text_int]] else []).

Definition clue_clauses (N : Z) (text : list (list token)) : result (list (list Z)) :=
  collect (clue_cell N text) (i ← py_range 0 N; j ← py_range 0 N; [(i, j)]).

Definition to_cnf (text : list (list token)) : result (list (list Z) * Z) :=
  let N := Z.of_nat (length text) in
  let num_vars := N * N * N in
  let boxdim := int_sqrt N in
  boxes ← box_clauses N boxdim;
  clues ← clue_clauses N text;
  mret (cell_clauses N ++ row_clauses N ++ col_clauses N ++ boxes
          ++ adjacency_clauses N ++ clues, num_vars).

End CODE_encoder.

(** ** [src/solver.py] *)

Module solver.

Inductive status : Set := SAT | UNSAT.

(** [val = 1 if lit > 0 else -1] *)
Definition lit_val (lit : Z) : Z := if 0 <? lit then 1 else -1.

(** [next(iter(cl))]; the source calls it on one-element sets only. *)
Definition next_iter (cl : gset Z) : Z := hd 0 (elements cl).

(** The unit queue is a Python list used as a stack ([append] and [pop]
    work at its end): the head of the Rocq list is the end of the Python
    list. *)
Definition initial_queue (clauses : list (gset Z)) : list Z :=
  reverse (next_iter <$> filter (λ cl, size cl = 1%nat) clauses).

(** The [for cl in clauses] loop of unit propagation for the literal
    [lit]: [None] is the conflict exit [return False, None]; otherwise
    the new clause list and the extended queue. *)
Fixpoint simplify (lit : Z) (clauses : list (gset Z)) (unit_queue : list Z)
    : option (list (gset Z) * list Z) :=
  match clauses with
  | [] => Some ([], unit_queue)
  | cl :: rest =>
      if decide (lit ∈ cl) then simplify lit rest unit_queue
      else if decide (- lit ∈ cl) then
        let cl' := cl ∖ {[ - lit ]} in
        if decide (size cl' = 0%nat) then None
        else
          let unit_queue' :=
            if decide (size cl' = 1%nat) then next_iter cl' :: unit_queue
            else unit_queue in
          match simplify lit rest unit_queue' with
          | None => None
          | Some (new_clauses, q) => Some (cl' :: new_clauses, q)
          end
      else
        match simplify lit rest unit_queue with
        | None => None
        | Some (new_clauses, q) => Some (cl :: new_clauses, q)
        end
  end.

(** The [while unit_queue] loop.  The outer [option] is the fuel of the
    model; [Ret None] is [return False, None]; [Ret (Some (cls, a))] is
    the state in which the loop ends. *)
Fixpoint propagate (fuel : nat) (clauses : list (gset Z)) (assignment : list Z)
    (unit_queue : list Z) : option (result (option (list (gset Z) * list Z))) :=
  match fuel with
  | O => None
  | S fuel' =>
      match unit_queue with
      | [] => Some (Ret (Some (clauses, assignment)))
      | lit :: unit_queue' =>
          let var := Z.abs lit in
          let val := lit_val lit in
          match py_index assignment var with
          | Raise e => Some (Raise e)
          | Ret a =>
              if a =? - val then Some (Ret None)
              else if a =? val then propagate fuel' clauses assignment unit_queue'
              else
                match simplify lit clauses unit_queue' with
                | None => Some (Ret None)
                | Some (new_clauses, q) =>
                    propagate fuel' new_clauses (<[Z.to_nat var := val]> assignment) q
                end
          end
      end
  end.

(** [model[i] = -1] for every still unassigned [i] in [1..num_vars] *)
Fixpoint fill_unassigned (indices : list Z) (model : list Z) : result (list Z) :=
  match indices with
  | [] => Ret model
  | i :: indices' =>
      match py_index model i with
      | Raise e => Raise e
      | Ret x =>
          fill_unassigned indices' (if x =? 0 then <[Z.to_nat i := -1]> model else model)
      end
  end.

(** [[i for i in range(1, num_vars + 1) if assignment[i] == 0]] *)
Definition unassigned_vars (assignment : list Z) (num_vars : Z) : result (list Z) :=
  collect (λ i, match py_index assignment i with
                | Raise e => Raise e
                | Ret x => Ret (if x =? 0 then [i] else [])
                end)
          (py_range 1 (num_vars + 1)).

(** [max(x :: l, key=key)]: the first element with the largest key *)
Fixpoint py_max_by (key : Z → Z) (x : Z) (l : list Z) : Z :=
  match l with
  | [] => x
  | y :: l' => py_max_by key (if key x <? key y then y else x) l'
  end.

(** [Counter(l for cl in clauses for l in cl)] and [Counter.get(l, 0)] *)
Definition counter (clauses : list (gset Z)) : gmap Z Z :=
  foldl (λ m l, <[l := default 0 (m !! l) + 1]> m) ∅ (cl ← clauses; elements cl).

Definition counter_get (literal_counts : gmap Z Z) (l : Z) : Z :=
  default 0 (literal_counts !! l).

(** The clause loop of one branch: [None] is [conflict = True]. *)
Fixpoint commit (target_lit opp_lit : Z) (clauses : list (gset Z)) : option (list (gset Z)) :=
  match clauses with
  | [] => Some []
  | cl :: rest =>
      if decide (target_lit ∈ cl) then commit target_lit opp_lit rest
      else if decide (opp_lit ∈ cl) then
        let cl' := cl ∖ {[ opp_lit ]} in
        if decide (size cl' = 0%nat) then None
        else
          match commit target_lit opp_lit rest with
          | None => None
          | Some new_clauses => Some (cl' :: new_clauses)
          end
      else
        match commit target_lit opp_lit rest with
        | None => None
        | Some new_clauses => Some (cl :: new_clauses)
        end
  end.

(** [dpll]: [Ret None] is [(False, None)], [Ret (Some model)] is
    [(True, model)].  The arguments [stats] and [start_time] are passed
    along by the source and never read. *)
Fixpoint dpll (fuel : nat) (clauses : list (gset Z)) (assignment : list Z)
    (literal_counts : gmap Z Z) (num_vars : Z) : option (result (option (list Z))) :=
  match fuel with
  | O => None
  | S fuel' =>
      match propagate (S fuel') clauses assignment (initial_queue clauses) with
      | None => None
      | Some (Raise e) => Some (Raise e)
      | Some (Ret None) => Some (Ret None)
      | Some (Ret (Some (clauses, assignment))) =>
          match clauses with
          | [] =>
              Some (model ← fill_unassigned (py_range 1 (num_vars + 1)) assignment;
                    mret (Some model))
          | _ :: _ =>
              match unassigned_vars assignment num_vars with
              | Raise e => Some (Raise e)
              | Ret [] => Some (Ret None)
              | Ret (u :: us) =>
                  let var :=
                    py_max_by (λ v, counter_get literal_counts v
                                    + counter_get literal_counts (- v)) u us in
                  let try (val : Z) (otherwise : option (result (option (list Z)))) :=
                    let target_lit := if 0 <? val then var else - var in
                    let opp_lit := if 0 <? val then - var else var in
                    match commit target_lit opp_lit clauses with
                    | None => otherwise
                    | Some new_clauses =>
                        match dpll fuel' new_clauses (<[Z.to_nat var := val]> assignment)
                                literal_counts num_vars with
                        | Some (Ret None) => otherwise
                        | r => r
                        end
                    end in
                  try 1 (try (-1) (Some (Ret None)))
              end
          end
      end
  end.

(** The model-to-grid loop of [solve_cnf], with its constants 81 and 9 *)
Fixpoint decode_loop (indices : list Z) (model : list Z) (grid : list (list Z))
    : result (list (list Z)) :=
  match indices with
  | [] => Ret grid
  | var_index :: indices' =>
      match py_index model var_index with
      | Raise e => Raise e
      | Ret val =>
          if val =? 1 then
            let var := var_index - 1 in
            let row := var `div` 81 in
            let col := (var `mod` 81) `div` 9 in
            let digit := var `mod` 9 + 1 in
            match py_index grid row with
            | Raise e => Raise e
            | Ret grid_row =>
                match py_index grid_row col with
                | Raise e => Raise e
                | Ret _ =>
                    decode_loop indices' model
                      (<[Z.to_nat row := <[Z.to_nat col := digit]> grid_row]> grid)
                end
            end
          else decode_loop indices' model grid
      end
  end.

Definition decode (model : list Z) (num_vars : Z) : result (list (list Z)) :=
  decode_loop (py_range 1 (num_vars + 1)) model (replicate 9 (replicate 9 0)).

(** The call of [dpll] made by [solve_cnf] *)
Definition run_dpll (fuel : nat) (clauses : list (list Z)) (num_vars : Z)
    : option (result (option (list Z))) :=
  let clauses := list_to_set <$> clauses in
  dpll fuel clauses (replicate (Z.to_nat (num_vars + 1)) 0) (counter clauses) num_vars.

Definition solve_cnf (fuel : nat) (clauses : list (list Z)) (num_vars : Z)
    : option (result (status * option (list (list Z)))) :=
  match run_dpll fuel clauses num_vars with
  | None => None
  | Some (Raise e) => Some (Raise e)
  | Some (Ret (Some model_assignment)) =>
      Some (grid ← decode model_assignment num_vars; mret (SAT, Some grid))
  | Some (Ret None) => Some (Ret (UNSAT, None))
  end.

End solver.

(** ** [src/solving/solver.py] *)

Module solving_solver.

(** What a Python function hands back: [None] or a (status, model) pair *)
Inductive py_value : Type :=
  | PyNone
  | PyPair (st : solver.status) (model : option (list Z)).

(** [truth_values[i] = None for i in range(1, num_vars + 1)] *)
Definition initial_truth_values (num_vars : Z) : gmap Z (option bool) :=
  foldl (λ m i, <[i := None]> m) ∅ (py_range 1 (num_vars + 1)).

(** the loop over the clauses: a one-literal clause records its sign *)
Definition record_units (clauses : list (list Z)) (truth_values : gmap Z (option bool))
    : gmap Z (option bool) :=
  foldl (λ m clause,
           match clause with
           | [l] => if l <? 0 then <[Z.abs l := Some false]> m
                    else <[Z.abs l := Some true]> m
           | _ => m
           end) truth_values clauses.

(** [solve_cnf]: the dictionary that is printed, and the returned value *)
Definition solve_cnf (clauses : list (list Z)) (num_vars : Z)
    : gmap Z (option bool) * py_value :=
  let truth_values := record_units clauses (initial_truth_values num_vars) in
  (truth_values, PyNone).

End solving_solver.

(** ** [src/research_comparison/backtracking_solver.py] *)

(** The exceptions of the backtracking solver and of its caller, and the
    outcome of a call that may raise one of them. *)
Inductive py_error : Set :=
  | PyIndexError
  | PyValueError
  | PyZeroDivisionError.

Inductive outcome (A : Type) : Type :=
  | Ok (a : A)
  | Err (e : py_error).

Arguments Ok {A} a.
Arguments Err {A} e.

Definition outcome_bind {A B : Type} (m : outcome A) (k : A → outcome B) : outcome B :=
  match m with
  | Ok a => k a
  | Err e => Err e
  end.

#[export] Instance outcome_mret : MRet outcome := @Ok.
#[export] Instance outcome_mbind : MBind outcome := λ A B k m, outcome_bind m k.

(** [l[i]] and [l[i] = x] for any integer index: a negative index counts
    from the end, an index outside [-len(l), len(l))] raises
    [IndexError]. *)
Definition py_norm_index {A : Type} (l : list A) (i : Z) : Z :=
  if i <? 0 then i + Z.of_nat (length l) else i.

Definition getitem {A : Type} (l : list A) (i : Z) : outcome A :=
  let j := py_norm_index l i in
  if j <? 0 then Err PyIndexError
  else match l !! Z.to_nat j with
       | Some x => Ok x
       | None => Err PyIndexError
       end.

Definition setitem {A : Type} (l : list A) (i : Z) (x : A) : outcome (list A) :=
  let j := py_norm_index l i in
  if (j <? 0) || (Z.of_nat (length l) <=? j) then Err PyIndexError
  else Ok (<[Z.to_nat j := x]> l).

(** [a % b] *)
Definition py_mod (a b : Z) : outcome Z :=
  if b =? 0 then Err PyZeroDivisionError else Ok (a `mod` b).

(** A loop whose body returns from the function as soon as its test
    holds: [Ok true] when some body did, [Ok false] when the loop ran to
    its end. *)
Fixpoint any_of (test : Z → outcome bool) (l : list Z) : outcome bool :=
  match l with
  | [] => Ok false
  | x :: l' =>
      match test x with
      | Err e => Err e
      | Ok true => Ok true
      | Ok false => any_of test l'
      end
  end.

Module backtracking_solver.

(** [mat[r][c]] and [mat[r][c] = x]; the rows of [mat] are distinct list
    objects, so that the assignment changes one row only. *)
Definition mat_get (mat : list (list Z)) (r c : Z) : outcome Z :=
  mat_row ← getitem mat r; getitem mat_row c.

Definition mat_set (mat : list (list Z)) (r c x : Z) : outcome (list (list Z)) :=
  mat_row ← getitem mat r;
  new_row ← setitem mat_row c x;
  setitem mat r new_row.

(** [guard and mat[r][c] != 0 and abs(mat[r][c] - num) == 1] *)
Definition neighbour_clash (guard : bool) (mat : list (list Z)) (r c num : Z)
    : outcome bool :=
  if guard then
    v ← mat_get mat r c;
    if negb (v =? 0) then
      v' ← mat_get mat r c;
      mret (Z.abs (v' - num) =? 1)
    else mret false
  else mret false.

Definition isSafe (mat : list (list Z)) (row col num : Z) : outcome bool :=
  let N := Z.of_nat (length mat) in
  let B := int_sqrt N in
  in_row ← any_of (λ x, v ← mat_get mat row x; mret (v =? num)) (py_range 0 N);
  if in_row : bool then mret false else
  in_col ← any_of (λ x, v ← mat_get mat x col; mret (v =? num)) (py_range 0 N);
  if in_col : bool then mret false else
  row_mod ← py_mod row B;
  let startRow := row - row_mod in
  col_mod ← py_mod col B;
  let startCol := col - col_mod in
  in_box ← any_of (λ i, any_of (λ j, v ← mat_get mat (i + startRow) (j + startCol);
                                     mret (v =? num))
                                (py_range 0 B))
                  (py_range 0 B);
  if in_box : bool then mret false else
  left_clash ← neighbour_clash (0 <? col) mat row (col - 1) num;
  if left_clash : bool then mret false else
  right_clash ← neighbour_clash (col <? N - 1) mat row (col + 1) num;
  if right_clash : bool then mret false else
  up_clash ← neighbour_clash (0 <? row) mat (row - 1) col num;
  if up_clash : bool then mret false else
  down_clash ← neighbour_clash (row <? N - 1) mat (row + 1) col num;
  if down_clash : bool then mret false else
  mret true.

(** The loop [for num in range(1, N + 1)] of [solveSudokuRec]; [rec] is
    the recursive call [solveSudokuRec(mat, row, col + 1)] on the grid it
    is given.  The result carries the grid as the call leaves it; [None]
    is a recursion deeper than the fuel. *)
Fixpoint try_nums (rec : list (list Z) → option (outcome (bool * list (list Z))))
    (mat : list (list Z)) (row col : Z) (nums : list Z)
    : option (outcome (bool * list (list Z))) :=
  match nums with
  | [] => Some (Ok (false, mat))
  | num :: nums' =>
      match isSafe mat row col num with
      | Err e => Some (Err e)
      | Ok false => try_nums rec mat row col nums'
      | Ok true =>
          match mat_set mat row col num with
          | Err e => Some (Err e)
          | Ok mat1 =>
              match rec mat1 with
              | None => None
              | Some (Err e) => Some (Err e)
              | Some (Ok (true, mat2)) => Some (Ok (true, mat2))
              | Some (Ok (false, mat2)) =>
                  match mat_set mat2 row col 0 with
                  | Err e => Some (Err e)
                  | Ok mat3 => try_nums rec mat3 row col nums'
                  end
              end
          end
      end
  end.

Fixpoint solveSudokuRec (fuel : nat) (mat : list (list Z)) (row col : Z)
    : option (outcome (bool * list (list Z))) :=
  match fuel with
  | O => None
  | S fuel' =>
      let N := Z.of_nat (length mat) in
      if (row =? N - 1) && (col =? N) then Some (Ok (true, mat))
      else
        let '(row, col) := if col =? N then (row + 1, 0) else (row, col) in
        match mat_get mat row col with
        | Err e => Some (Err e)
        | Ok v =>
            if negb (v =? 0) then solveSudokuRec fuel' mat row (col + 1)
            else try_nums (λ mat1, solveSudokuRec fuel' mat1 row (col + 1))
                          mat row col (py_range 1 (N + 1))
        end
  end.

Definition solveSudoku (fuel : nat) (mat : list (list Z))
    : option (outcome (bool * list (list Z))) :=
  solveSudokuRec fuel mat 0 0.

End backtracking_solver.

(** ** [src/research_comparison/main.py] *)

#[export] Instance token_eq_dec : EqDecision token.
Proof. solve_decision. Defined.

(** The exceptions of the encoder and solver modules among those of the
    comparison program. *)
Definition lift_result {A : Type} (m : result A) : outcome A :=
  match m with
  | Ret a => Ok a
  | Raise IndexError => Err PyIndexError
  | Raise ValueError => Err PyValueError
  end.

Module main.

(** [[[int(x) for x in line.strip().split()] for line in f if line.strip()]]:
    a line is given by its tokens, a blank line has none. *)
Definition read_puzzle (input : list (list token)) : outcome (list (list Z)) :=
  mapM (mapM (λ x, lift_result (py_int x))) (filter (λ line, line ≠ []) input).

(** The status and the solution of the tuple that the function returns;
    its elapsed time is not modelled. *)
Definition solve_with_backtracking (fuel : nat) (input : list (list token))
    : option (outcome (solver.status * option (list (list Z)))) :=
  match read_puzzle input with
  | Err e => Some (Err e)
  | Ok puzzle =>
      match backtracking_solver.solveSudoku fuel puzzle with
      | None => None
      | Some (Err e) => Some (Err e)
      | Some (Ok (solved, puzzle)) =>
          Some (Ok (if solved then solver.SAT else solver.UNSAT,
                    if solved then Some puzzle else None))
      end
  end.

End main.

(** ** Vocabulary of the statements *)

(** [(r', c')] is the right or the down neighbour of [(r, c)]. *)
Definition right_or_down (r c r' c' : Z) : Prop :=
  (r' = r ∧ c' = c + 1) ∨ (r' = r + 1 ∧ c' = c).

(** [v'] is [v + 1] or [v - 1]. *)
Definition consecutive (v v' : Z) : Prop := v' = v + 1 ∨ v' = v - 1.



(** The three conditions of a valid puzzle. *)
Definition square_grid (text : list (list token)) : Prop :=
  Forall (λ row, length row = length text) text.


Definition clues_in_range (text : list (list token)) : Prop :=
  Forall (Forall (λ tok, ∀ z, tok = TInt z → 0 ≤ z ≤ Z.of_nat (length text))) text.

(** Every cell [(r, c)] with [r, c < N] is there and reads as an integer. *)
Definition cells_readable (text : list (list token)) : Prop :=
  ∀ r c, 0 ≤ r < Z.of_nat (length text) → 0 ≤ c < Z.of_nat (length text) →
         ∃ row z, text !! Z.to_nat r = Some row ∧ row !! Z.to_nat c = Some (TInt z).

(** [grid[r][c]], when it is there *)
Definition grid_cell (grid : list (list Z)) (r c : Z) : option Z :=
  grid !! Z.to_nat r ≫= λ row, row !! Z.to_nat c.

(** ** Vocabulary of the solver statements *)

(** A valuation gives every variable index a value, [1] for true and [-1]
    for false; the literal [lit] holds when its variable has the value
    [solver.lit_val lit]. *)
Definition sat_lit (v : nat → Z) (lit : Z) : Prop :=
  v (Z.to_nat (Z.abs lit)) = solver.lit_val lit.

Definition sat_clause (v : nat → Z) (cl : gset Z) : Prop :=
  ∃ lit, lit ∈ cl ∧ sat_lit v lit.

Definition sat_all (v : nat → Z) (cls : list (gset Z)) : Prop :=
  ∀ cl, cl ∈ cls → sat_clause v cl.

(** The valuation has the value of every assigned entry of the array. *)
Definition agrees (v : nat → Z) (a : list Z) : Prop :=
  ∀ i x, a !! i = Some x → x ≠ 0 → v i = x.

(** The array read as a valuation. *)
Definition val_of (m : list Z) : nat → Z := λ i, default 0 (m !! i).

(** Entries are 0 (unassigned), 1 or -1. *)
Definition assignment_ok (a : list Z) : Prop :=
  Forall (λ x, x = 0 ∨ x = 1 ∨ x = -1) a.

(** Number of unassigned entries. *)
Definition zeros (a : list Z) : nat := length (filter (λ x, x = 0) a).

(** The literals of the live clauses are nonzero, and their variables are
    unassigned entries of the array. *)
Definition live_unassigned (a : list Z) (cls : list (gset Z)) : Prop :=
  ∀ cl lit, cl ∈ cls → lit ∈ cl → lit ≠ 0 ∧ a !! Z.to_nat (Z.abs lit) = Some 0.

(** The queue invariant: its literals are nonzero, in range, and implied by
    the clauses under the assignment. *)
Definition queue_ok (a : list Z) (cls : list (gset Z)) (q : list Z) : Prop :=
  ∀ l, l ∈ q →
    l ≠ 0 ∧ (Z.to_nat (Z.abs l) < length a)%nat
    ∧ ∀ v, agrees v a → sat_all v cls → sat_lit v l.

(** The model [m] keeps every assigned entry of [a]. *)
Definition extends (a m : list Z) : Prop :=
  ∀ i x, a !! i = Some x → x ≠ 0 → m !! i = Some x.

(** One round of the loop [for val in (1, -1)], with the recursive call
    [rec] and the continuation [otherwise] of the loop. *)
Definition try_val (rec : list (gset Z) → list Z → option (result (option (list Z))))
    (cls : list (gset Z)) (a : list Z) (var val : Z)
    (otherwise : option (result (option (list Z)))) : option (result (option (list Z))) :=
  match solver.commit (if 0 <? val then var else - var) (if 0 <? val then - var else var) cls with
  | None => otherwise
  | Some new_clauses =>
      match rec new_clauses (<[Z.to_nat var := val]> a) with
      | Some (Ret None) => otherwise
      | r => r
      end
  end.

(** A valuation with values other than 1 and -1 can be replaced by one
    with values 1 and -1 only. *)
Definition normalize (v : nat → Z) : nat → Z := λ i, if decide (v i = 1) then 1 else -1.

(** Fuel that is enough for the state [(cls, a)]. *)
Definition enough_fuel (cls : list (gset Z)) (a : list Z) : nat :=
  ((zeros a + 1) * (length cls + 2))%nat.

(** The instance is well formed: every literal is nonzero and its variable
    is one of [1..num_vars]. *)
Definition well_formed (clauses : list (list Z)) (num_vars : Z) : Prop :=
  ∀ cl lit, cl ∈ clauses → lit ∈ cl → lit ≠ 0 ∧ Z.abs lit ≤ num_vars.

(** The clause set is satisfiable: some truth assignment of the variables
    makes a literal of every clause true. *)
Definition satisfiable (clauses : list (list Z)) : Prop :=
  ∃ M : Z → bool, ∀ cl, cl ∈ clauses → ∃ lit, lit ∈ cl ∧ M (Z.abs lit) = (0 <? lit).

(** ** Truth assignments of a clause list *)

(** The literal [lit] is true under [M]: its variable has the sign of the
    literal. *)
Definition lit_holds (M : Z → bool) (lit : Z) : Prop := M (Z.abs lit) = (0 <? lit).

Definition clause_holds (M : Z → bool) (cl : list Z) : Prop :=
  ∃ lit, lit ∈ cl ∧ lit_holds M lit.

Definition models (M : Z → bool) (cls : list (list Z)) : Prop :=
  ∀ cl, cl ∈ cls → clause_holds M cl.

(** A solved 9×9 non-consecutive Sudoku, the puzzle that keeps its first
    row as clues, the clause list of that puzzle, and the truth assignment
    that makes [var(r,c,v)] true exactly when the solved grid holds [v] at
    [(r,c)]. *)
Definition sample_solution : list (list Z) :=
  [[1; 3; 5; 2; 4; 7; 9; 6; 8];
   [7; 9; 2; 6; 8; 3; 5; 1; 4];
   [4; 6; 8; 1; 5; 9; 3; 7; 2];
   [6; 2; 4; 9; 7; 1; 8; 3; 5];
   [3; 8; 1; 5; 2; 4; 6; 9; 7];
   [9; 5; 7; 3; 6; 8; 2; 4; 1];
   [5; 7; 3; 8; 1; 6; 4; 2; 9];
   [8; 1; 6; 4; 9; 2; 7; 5; 3];
   [2; 4; 9; 7; 3; 5; 1; 8; 6]].

Definition sample_puzzle : list (list token) :=
  (TInt <$> [1; 3; 5; 2; 4; 7; 9; 6; 8]) :: replicate 8 (replicate 9 (TInt 0)).

Definition sample_clauses : list (list Z) :=
  match solving_encoder.to_cnf sample_puzzle with
  | Ret (cls, _) => cls
  | Raise _ => []
  end.

Definition sample_model : Z → bool :=
  λ i, bool_decide (sample_solution !! Z.to_nat ((i - 1) `div` 81)
                      ≫= (λ row, row !! Z.to_nat (((i - 1) `mod` 81) `div` 9))
                    = Some ((i - 1) `mod` 9 + 1)).

(** The truth assignment of a filled grid [sol]: [var(r,c,v)] is true
    exactly when the grid holds [v] at [(r,c)]. *)
Definition grid_model (N : Z) (sol : Z → Z → Z) : Z → bool :=
  λ i, bool_decide (1 ≤ i ≤ N * N * N
                    ∧ sol ((i - 1) `div` (N * N)) (((i - 1) `mod` (N * N)) `div` N)
                      = (i - 1) `mod` N + 1).

(** The conditions of a solved non-consecutive Sudoku [sol] of size
    [N = B²]. *)
Definition digits_in_range (N : Z) (sol : Z → Z → Z) : Prop :=
  ∀ r c, 0 ≤ r < N → 0 ≤ c < N → 1 ≤ sol r c ≤ N.

Definition once_in_row (N : Z) (sol : Z → Z → Z) : Prop :=
  ∀ r v, 0 ≤ r < N → 1 ≤ v ≤ N →
    ∃ c, 0 ≤ c < N ∧ sol r c = v ∧ ∀ c', 0 ≤ c' < N → sol r c' = v → c' = c.

Definition once_in_col (N : Z) (sol : Z → Z → Z) : Prop :=
  ∀ c v, 0 ≤ c < N → 1 ≤ v ≤ N →
    ∃ r, 0 ≤ r < N ∧ sol r c = v ∧ ∀ r', 0 ≤ r' < N → sol r' c = v → r' = r.

Definition once_in_box (N B : Z) (sol : Z → Z → Z) : Prop :=
  ∀ br bc v, 0 ≤ br < B → 0 ≤ bc < B → 1 ≤ v ≤ N →
    ∃ i j, 0 ≤ i < B ∧ 0 ≤ j < B ∧ sol (br * B + i) (bc * B + j) = v
           ∧ ∀ i' j', 0 ≤ i' < B → 0 ≤ j' < B →
                      sol (br * B + i') (bc * B + j') = v → i' = i ∧ j' = j.

Definition non_consecutive (N : Z) (sol : Z → Z → Z) : Prop :=
  ∀ r c r' c', 0 ≤ r < N → 0 ≤ c < N → right_or_down r c r' c' → r' < N → c' < N →
    ¬ consecutive (sol r c) (sol r' c').

Definition keeps_clues (N : Z) (text : list (list token)) (sol : Z → Z → Z) : Prop :=
  ∀ r c row z,
    0 ≤ r < N → 0 ≤ c < N →
    text !! Z.to_nat r = Some row → row !! Z.to_nat c = Some (TInt z) → 0 < z →
    sol r c = z.

(** The solved sample grid as a function of the cell. *)
Definition sample_sol : Z → Z → Z := λ r c, default 0 (grid_cell sample_solution r c).

(** The grid read as a function of the cell, [0] where there is no cell. *)
Definition grid_fun (grid : list (list Z)) : Z → Z → Z :=
  λ r c, default 0 (grid_cell grid r c).

(** The truth assignment of a model array of [dpll]. *)
Definition array_model (model : list Z) : Z → bool :=
  λ i, bool_decide (model !! Z.to_nat i = Some 1).

(** [sol] is a solution of the 9×9 puzzle [text]. *)
Definition solves_puzzle (text : list (list token)) (sol : Z → Z → Z) : Prop :=
  digits_in_range 9 sol ∧ once_in_row 9 sol ∧ once_in_col 9 sol ∧ once_in_box 9 3 sol
  ∧ non_consecutive 9 sol ∧ keeps_clues 9 text sol.

(** The solved sample grid as a puzzle with every cell given, and its
    clause list. *)
Definition full_puzzle : list (list token) :=
  (λ row : list Z, TInt <$> row) <$> sample_solution.

Definition full_clauses : list (list Z) :=
  match solving_encoder.to_cnf full_puzzle with
  | Ret (cls, _) => cls
  | Raise _ => []
  end.

(** The clause list of [src/CODE/encoder.py] for the sample puzzle with
    every cell given. *)
Definition CODE_full_clauses : list (list Z) :=
  match CODE_encoder.to_cnf full_puzzle with
  | Ret (cls, _) => cls
  | Raise _ => []
  end.

(** ** Vocabulary of the backtracking statements *)

(** [mat] is an [N]×[N] grid. *)
Definition grid_shape (N : Z) (mat : list (list Z)) : Prop :=
  Z.of_nat (length mat) = N ∧ Forall (λ mat_row, Z.of_nat (length mat_row) = N) mat.

(** Two cells share a row, a column or a [B]×[B] box. *)
Definition same_unit (B r c r' c' : Z) : Prop :=
  r = r' ∨ c = c' ∨ (r `div` B = r' `div` B ∧ c `div` B = c' `div` B).

(** Two cells are orthogonal neighbours. *)
Definition adjacent (r c r' c' : Z) : Prop :=
  (r' = r ∧ (c' = c - 1 ∨ c' = c + 1)) ∨ (c' = c ∧ (r' = r - 1 ∨ r' = r + 1)).

(** No two filled cells of the grid break a rule: cells of one unit hold
    different digits, neighbours do not hold consecutive digits. *)
Definition valid_grid (N B : Z) (g : Z → Z → Z) : Prop :=
  ∀ r c r' c',
    0 ≤ r < N → 0 ≤ c < N → 0 ≤ r' < N → 0 ≤ c' < N →
    (r, c) ≠ (r', c') → g r c ≠ 0 → g r' c' ≠ 0 →
    (same_unit B r c r' c' → g r c ≠ g r' c')
    ∧ (adjacent r c r' c' → Z.abs (g r' c' - g r c) ≠ 1).

(** What [isSafe] tests: [num] is in no cell of the row, the column and
    the box of [(row, col)], and no filled neighbour holds [num ± 1]. *)
Definition safe_at (N B : Z) (g : Z → Z → Z) (row col num : Z) : Prop :=
  (∀ x, 0 ≤ x < N → g row x ≠ num)
  ∧ (∀ x, 0 ≤ x < N → g x col ≠ num)
  ∧ (∀ i j, 0 ≤ i < B → 0 ≤ j < B →
            g (i + (row - row `mod` B)) (j + (col - col `mod` B)) ≠ num)
  ∧ (∀ r' c', adjacent row col r' c' → 0 ≤ r' < N → 0 ≤ c' < N →
              g r' c' ≠ 0 → Z.abs (g r' c' - num) ≠ 1).

(** [sol] fills the grid [g]: digits everywhere, the filled cells of [g]
    kept. *)
Definition completes (N : Z) (g sol : Z → Z → Z) : Prop :=
  (∀ r c, 0 ≤ r < N → 0 ≤ c < N → 1 ≤ sol r c ≤ N)
  ∧ (∀ r c, 0 ≤ r < N → 0 ≤ c < N → g r c ≠ 0 → sol r c = g r c).

(** What a successful search from the cell of index [p] (in row-major
    order) does to the grid [g]: the filled cells are kept, the empty
    cells from [p] on hold a digit, and a valid grid stays valid. *)
Definition fills_from (N B p : Z) (g g' : Z → Z → Z) : Prop :=
  (∀ r c, 0 ≤ r < N → 0 ≤ c < N → g r c ≠ 0 → g' r c = g r c)
  ∧ (∀ r c, 0 ≤ r < N → 0 ≤ c < N → p ≤ r * N + c → g r c = 0 → 1 ≤ g' r c ≤ N)
  ∧ (valid_grid N B g → valid_grid N B g').

(** The integer of a token that reads as one. *)
Definition token_value (tok : token) : Z :=
  match tok with
  | TInt z => z
  | TBad => 0
  end.

(** The grid of a file of integers. *)
Definition tokens_grid (text : list (list token)) : list (list Z) :=
  (λ line : list token, token_value <$> line) <$> text.

(** A filled grid that breaks the rules: the digit 5 in every cell. *)
Definition fives_puzzle : list (list token) := replicate 9 (replicate 9 (TInt 5)).

Definition fives_clauses : list (list Z) :=
  match solving_encoder.to_cnf fives_puzzle with
  | Ret (cls, _) => cls
  | Raise _ => []
  end.

(** The solved sample grid without its last three rows. *)
Definition sample_partial : list (list Z) :=
  take 6 sample_solution ++ replicate 3 (replicate 9 0).

(** * Properties *)

(** ** Ranges *)

Lemma elem_of_py_range (a b k : Z) : k ∈ py_range a b ↔ a ≤ k < b.
Proof. unfold py_range. rewrite elem_of_seqZ. lia. Qed.


Lemma length_py_range (a b : Z) : length (py_range a b) = Z.to_nat (b - a).
Proof. apply length_seqZ. Qed.

(** Consecutive blocks of [len] integers, laid end to end. *)
Lemma bind_seqZ_blocks (b len : Z) (k : nat) :
  0 ≤ len →
  (seqZ 0 (Z.of_nat k) ≫= λ c, seqZ (b + c * len) len) = seqZ b (Z.of_nat k * len).
Proof.
  intros Hlen. induction k as [|k IH].
  - done.
  - rewrite seqZ_S, bind_app, IH, bind_singleton.
    replace (Z.of_nat (S k) * len) with (Z.of_nat k * len + len) by lia.
    rewrite seqZ_app by lia. f_equal.
Qed.

(** ** The variable numbering *)

Section numbering.
Import solving_encoder.

Lemma var_CODE_solving : CODE_encoder.var = var.
Proof. reflexivity. Qed.

Lemma var_bounds (N r c v : Z) :
  0 ≤ r < N → 0 ≤ c < N → 1 ≤ v ≤ N → 1 ≤ var N r c v ≤ N * N * N.
Proof. unfold var. intros. nia. Qed.

Lemma var_injective (N r c v r' c' v' : Z) :
  0 ≤ r < N → 0 ≤ c < N → 1 ≤ v ≤ N →
  0 ≤ r' < N → 0 ≤ c' < N → 1 ≤ v' ≤ N →
  var N r c v = var N r' c' v' → r = r' ∧ c = c' ∧ v = v'.
Proof.
  unfold var. intros Hr Hc Hv Hr' Hc' Hv' Heq.
  assert (r = r') as -> by nia.
  assert (c = c') as -> by nia.
  split_and!; [done..|lia].
Qed.

(** The inverse mapping, for a grid of size [N]. *)
Lemma var_inverse (N i : Z) :
  1 ≤ i ≤ N * N * N →
  let r := (i - 1) `div` (N * N) in
  let c := ((i - 1) `mod` (N * N)) `div` N in
  let v := (i - 1) `mod` N + 1 in
  0 ≤ r < N ∧ 0 ≤ c < N ∧ 1 ≤ v ≤ N ∧ var N r c v = i.
Proof.
  intros Hi r c v.
  assert (0 < N) as HN by nia.
  assert (0 < N * N) as HNN by nia.
  pose proof (Z.div_mod (i - 1) (N * N) ltac:(lia)) as E1.
  pose proof (Z.mod_pos_bound (i - 1) (N * N) HNN) as B1.
  pose proof (Z.div_mod ((i - 1) `mod` (N * N)) N ltac:(lia)) as E2.
  pose proof (Z.mod_pos_bound ((i - 1) `mod` (N * N)) N HN) as B2.
  assert (((i - 1) `mod` (N * N)) `mod` N = (i - 1) `mod` N) as E3.
  { rewrite Z.rem_mul_r by lia. rewrite (Z.mul_comm N), Z_mod_plus_full.
    apply Z.mod_mod. lia. }
  fold r in E1. fold c in E2. rewrite E3 in E2, B2.
  assert (v - 1 = (i - 1) `mod` N) as Ev by (unfold v; lia).
  rewrite <- Ev in E2, B2.
  assert (0 ≤ c) by (apply Z.div_pos; lia).
  assert (0 ≤ r) by (apply Z.div_pos; lia).
  assert (c < N) by nia.
  assert (r < N) by nia.
  unfold var. split_and!; try lia.
Qed.

(** Enumerating the triples in the order of the encoder's loops yields
    the list [1, 2, ..., N³]. *)
Lemma var_enumeration (N : Z) :
  0 ≤ N →
  (r ← py_range 0 N; c ← py_range 0 N; v ← py_range 1 (N + 1); [var N r c v])
  = seqZ 1 (N * N * N).
Proof.
  intros HN. unfold py_range.
  replace (N + 1 - 1) with N by lia. replace (N - 0) with N by lia.
  assert (∀ r c, (seqZ 1 N ≫= λ v, [var N r c v]) = seqZ ((1 + r * (N * N)) + c * N) N) as Hv.
  { intros r c.
    replace (1 + r * (N * N) + c * N) with ((r * (N * N) + c * N) + 1) by lia.
    rewrite <- (fmap_add_seqZ (r * (N * N) + c * N) 1 N).
    induction (seqZ 1 N) as [|x l IH]; [done|].
    csimpl. rewrite IH. unfold var. f_equal. lia. }
  assert (∀ r, (seqZ 0 N ≫= λ c, seqZ 1 N ≫= λ v, [var N r c v])
               = seqZ (1 + r * (N * N)) (N * N)) as Hc.
  { intros r. erewrite list_bind_ext; [|intros c; apply Hv|done].
    rewrite <- (Z2Nat.id N) at 1 4 by done.
    rewrite bind_seqZ_blocks by done. by rewrite Z2Nat.id. }
  erewrite list_bind_ext; [|intros r; apply Hc|done].
  rewrite <- (Z2Nat.id N) at 1 by done.
  rewrite bind_seqZ_blocks by nia. rewrite Z2Nat.id by done.
  f_equal. lia.
Qed.

End numbering.

(** ** What [to_cnf] returns *)

Lemma solving_to_cnf_inv (text : list (list token)) (cls : list (list Z)) (nv : Z) :
  solving_encoder.to_cnf text = Ret (cls, nv) →
  let N := Z.of_nat (length text) in
  ∃ boxes clues,
    solving_encoder.box_clauses N (int_sqrt N) = Ret boxes
    ∧ solving_encoder.clue_clauses N text = Ret clues
    ∧ cls = solving_encoder.cell_clauses N ++ solving_encoder.row_clauses N
            ++ solving_encoder.col_clauses N ++ boxes
            ++ solving_encoder.adjacency_clauses N ++ clues
    ∧ nv = N * N * N.
Proof.
  unfold solving_encoder.to_cnf. cbv zeta.
  destruct (solving_encoder.box_clauses _ _) as [boxes|] eqn:Hb; [|done].
  destruct (solving_encoder.clue_clauses _ _) as [clues|] eqn:Hc; [|done].
  cbn. intros [= <- <-]. by exists boxes, clues.
Qed.

Lemma CODE_to_cnf_inv (text : list (list token)) (cls : list (list Z)) (nv : Z) :
  CODE_encoder.to_cnf text = Ret (cls, nv) →
  let N := Z.of_nat (length text) in
  ∃ boxes clues,
    CODE_encoder.box_clauses N (int_sqrt N) = Ret boxes
    ∧ CODE_encoder.clue_clauses N text = Ret clues
    ∧ cls = CODE_encoder.cell_clauses N ++ CODE_encoder.row_clauses N
            ++ CODE_encoder.col_clauses N ++ boxes
            ++ CODE_encoder.adjacency_clauses N ++ clues
    ∧ nv = N * N * N.
Proof.
  unfold CODE_encoder.to_cnf. cbv zeta.
  destruct (CODE_encoder.box_clauses _ _) as [boxes|] eqn:Hb; [|done].
  destruct (CODE_encoder.clue_clauses _ _) as [clues|] eqn:Hc; [|done].
  cbn. intros [= <- <-]. by exists boxes, clues.
Qed.

(** C3.  For a grid size [N] that is a perfect square, the numbering
    [var(r,c,v) = r*N*N + c*N + v] maps the triples with [r, c] in [0,N)
    and [v] in [1,N] one-to-one onto [1..N³]: enumerated in loop order the
    values are exactly the list [1, 2, ..., N³]; the values lie in
    [1..N³]; two triples with the same value are equal; every integer of
    [1..N³] is the value of a triple.  Both encoders return
    [num_vars = N³]. *)
Theorem var_bijection_num_vars (N B : Z) :
  0 ≤ B → N = B * B →
  (r ← py_range 0 N; c ← py_range 0 N; v ← py_range 1 (N + 1);
     [solving_encoder.var N r c v]) = seqZ 1 (N * N * N)
  ∧ (∀ r c v, 0 ≤ r < N → 0 ≤ c < N → 1 ≤ v ≤ N →
       1 ≤ solving_encoder.var N r c v ≤ N * N * N)
  ∧ (∀ r c v r' c' v',
       0 ≤ r < N → 0 ≤ c < N → 1 ≤ v ≤ N →
       0 ≤ r' < N → 0 ≤ c' < N → 1 ≤ v' ≤ N →
       solving_encoder.var N r c v = solving_encoder.var N r' c' v' →
       r = r' ∧ c = c' ∧ v = v')
  ∧ (∀ i, 1 ≤ i ≤ N * N * N →
       ∃ r c v, 0 ≤ r < N ∧ 0 ≤ c < N ∧ 1 ≤ v ≤ N ∧ solving_encoder.var N r c v = i)
  ∧ CODE_encoder.var N = solving_encoder.var N
  ∧ (∀ text cls nv, Z.of_nat (length text) = N →
       solving_encoder.to_cnf text = Ret (cls, nv) → nv = N * N * N)
  ∧ (∀ text cls nv, Z.of_nat (length text) = N →
       CODE_encoder.to_cnf text = Ret (cls, nv) → nv = N * N * N).
Proof.
  intros HB ->. assert (0 ≤ B * B) as HN by nia. split_and!.
  - by apply var_enumeration.
  - apply var_bounds.
  - apply var_injective.
  - intros i Hi. destruct (var_inverse (B * B) i Hi) as (?&?&?&?). eauto 10.
  - done.
  - intros text cls nv <- (?&?&?&?&?&?)%solving_to_cnf_inv. done.
  - intros text cls nv <- (?&?&?&?&?&?)%CODE_to_cnf_inv. done.
Qed.

Lemma var_bijection_num_vars_witness :
  0 ≤ 2 ∧ 4 = 2 * 2
  ∧ (r ← py_range 0 4; c ← py_range 0 4; v ← py_range 1 (4 + 1);
       [solving_encoder.var 4 r c v]) = seqZ 1 (4 * 4 * 4)
  ∧ 1 ≤ solving_encoder.var 4 3 3 4 ≤ 4 * 4 * 4
  ∧ (∃ r c v, 0 ≤ r < 4 ∧ 0 ≤ c < 4 ∧ 1 ≤ v ≤ 4 ∧ solving_encoder.var 4 r c v = 27)
  ∧ (∀ cls nv,
       solving_encoder.to_cnf (replicate 4 (replicate 4 (TInt 0))) = Ret (cls, nv) →
       nv = 4 * 4 * 4).
Proof.
  destruct (var_bijection_num_vars 4 2) as (H1 & H2 & _ & H4 & _ & H6 & _); [lia..|].
  split; [lia|]. split; [lia|]. split; [exact H1|].
  split; [apply H2; lia|]. split; [apply H4; lia|].
  intros cls nv. apply H6. reflexivity.
Defined.


(** ** The two encoders against each other *)

Lemma bind_Permutation_ext {A B : Type} (f g : A → list B) (l : list A) :
  (∀ x, x ∈ l → f x ≡ₚ g x) → l ≫= f ≡ₚ l ≫= g.
Proof.
  induction l as [|x l IH]; intros Hfg; csimpl; [done|].
  rewrite (Hfg x) by left. rewrite IH; [done|]. intros y Hy. apply Hfg. by right.
Qed.

Lemma adjacency_cell_Permutation (N r c v : Z) :
  CODE_encoder.adjacency_cell N r c v ≡ₚ solving_encoder.adjacency_cell N r c v.
Proof.
  unfold CODE_encoder.adjacency_cell, solving_encoder.adjacency_cell.
  replace (v + 1 <=? N) with (v <? N) by (destruct (Z.ltb_spec v N), (Z.leb_spec (v+1) N); lia).
  replace (1 <=? v - 1) with (1 <? v) by (destruct (Z.ltb_spec 1 v), (Z.leb_spec 1 (v-1)); lia).
  apply (comm (++)).
Qed.

Lemma adjacency_clauses_Permutation (N : Z) :
  CODE_encoder.adjacency_clauses N ≡ₚ solving_encoder.adjacency_clauses N.
Proof.
  unfold CODE_encoder.adjacency_clauses, solving_encoder.adjacency_clauses.
  apply bind_Permutation_ext; intros r _.
  apply bind_Permutation_ext; intros c _.
  apply bind_Permutation_ext; intros v _.
  apply adjacency_cell_Permutation.
Qed.

Lemma cell_clauses_9 : CODE_encoder.cell_clauses 9 = solving_encoder.cell_clauses 9.
Proof. reflexivity. Qed.

Lemma row_clauses_same (N : Z) : CODE_encoder.row_clauses N = solving_encoder.row_clauses N.
Proof. reflexivity. Qed.

Lemma col_clauses_same (N : Z) : CODE_encoder.col_clauses N = solving_encoder.col_clauses N.
Proof. reflexivity. Qed.

Lemma clue_clauses_same (N : Z) (text : list (list token)) :
  CODE_encoder.clue_clauses N text = solving_encoder.clue_clauses N text.
Proof. reflexivity. Qed.

Lemma box_clauses_same (N B : Z) :
  CODE_encoder.box_clauses N B = solving_encoder.box_clauses N B.
Proof.
  unfold CODE_encoder.box_clauses, solving_encoder.box_clauses.
  destruct (py_range_step 0 N B) as [offs|]; [|done]. cbn. f_equal.
  apply list_bind_ext; [|done]. intros r_box.
  apply list_bind_ext; [|done]. intros c_box.
  apply list_bind_ext; [|done]. intros v.
  assert ((i ← py_range 0 B; j ← py_range 0 B;
             [CODE_encoder.var N (i + r_box) (j + c_box) v])
          = (i ← py_range 0 B; j ← py_range 0 B;
             [solving_encoder.var N (r_box + i) (c_box + j) v])) as ->; [|done].
  apply list_bind_ext; [|done]. intros i.
  apply list_bind_ext; [|done]. intros j.
  by rewrite (Z.add_comm i), (Z.add_comm j).
Qed.

(** ** The adjacency family *)

Local Ltac solve_adj :=
  first [lia | done | left; split; lia | right; split; lia | left; lia | right; lia].

Section adjacency.
Import solving_encoder.

Lemma elem_of_adjacency_cell (N r c v : Z) (cl : list Z) :
  0 ≤ r < N → 0 ≤ c < N → 1 ≤ v ≤ N →
  cl ∈ adjacency_cell N r c v ↔
  ∃ r' c' v', right_or_down r c r' c' ∧ r' < N ∧ c' < N
              ∧ consecutive v v' ∧ 1 ≤ v' ≤ N
              ∧ cl = [- var N r c v; - var N r' c' v'].
Proof.
  intros Hr0 Hc0 Hv0. unfold adjacency_cell, right_or_down, consecutive.
  rewrite !elem_of_app. split.
  - intros [H|H].
    + destruct (Z.ltb_spec (c + 1) N); [|by apply elem_of_nil in H].
      apply elem_of_app in H as [H|H].
      * destruct (Z.ltb_spec v N); [|by apply elem_of_nil in H].
        apply list_elem_of_singleton in H as ->.
        exists r, (c + 1), (v + 1). repeat split; solve_adj.
      * destruct (Z.ltb_spec 1 v); [|by apply elem_of_nil in H].
        apply list_elem_of_singleton in H as ->.
        exists r, (c + 1), (v - 1). repeat split; solve_adj.
    + destruct (Z.ltb_spec (r + 1) N); [|by apply elem_of_nil in H].
      apply elem_of_app in H as [H|H].
      * destruct (Z.ltb_spec v N); [|by apply elem_of_nil in H].
        apply list_elem_of_singleton in H as ->.
        exists (r + 1), c, (v + 1). repeat split; solve_adj.
      * destruct (Z.ltb_spec 1 v); [|by apply elem_of_nil in H].
        apply list_elem_of_singleton in H as ->.
        exists (r + 1), c, (v - 1). repeat split; solve_adj.
  - intros (r' & c' & v' & [[-> ->]|[-> ->]] & Hr & Hc & [->| ->] & Hv & ->).
    + left. destruct (Z.ltb_spec (c + 1) N); [|lia].
      apply elem_of_app; left. destruct (Z.ltb_spec v N); [|lia]. by left.
    + left. destruct (Z.ltb_spec (c + 1) N); [|lia].
      apply elem_of_app; right. destruct (Z.ltb_spec 1 v); [|lia]. by left.
    + right. destruct (Z.ltb_spec (r + 1) N); [|lia].
      apply elem_of_app; left. destruct (Z.ltb_spec v N); [|lia]. by left.
    + right. destruct (Z.ltb_spec (r + 1) N); [|lia].
      apply elem_of_app; right. destruct (Z.ltb_spec 1 v); [|lia]. by left.
Qed.

Lemma elem_of_adjacency_clauses (N : Z) (cl : list Z) :
  cl ∈ adjacency_clauses N ↔
  ∃ r c v r' c' v',
    0 ≤ r < N ∧ 0 ≤ c < N ∧ 1 ≤ v ≤ N
    ∧ right_or_down r c r' c' ∧ r' < N ∧ c' < N
    ∧ consecutive v v' ∧ 1 ≤ v' ≤ N
    ∧ cl = [- var N r c v; - var N r' c' v'].
Proof.
  unfold adjacency_clauses. rewrite list_elem_of_bind. split.
  - intros (r & (c & (v & Hcl & Hv)%list_elem_of_bind & Hc)%list_elem_of_bind & Hr).
    apply elem_of_py_range in Hr, Hc, Hv.
    apply elem_of_adjacency_cell in Hcl as (r' & c' & v' & ? & ? & ? & ? & ? & ?); [|lia..].
    exists r, c, v, r', c', v'. split_and!; (lia || done).
  - intros (r & c & v & r' & c' & v' & Hr & Hc & Hv & ? & ? & ? & ? & ? & ?).
    exists r. split; [|apply elem_of_py_range; lia].
    apply list_elem_of_bind. exists c. split; [|apply elem_of_py_range; lia].
    apply list_elem_of_bind. exists v. split; [|apply elem_of_py_range; lia].
    apply elem_of_adjacency_cell; [lia..|]. by exists r', c', v'.
Qed.





End adjacency.


Section families.
Import solving_encoder.











Lemma collect_elem_of {A B : Type} (f : A → result (list B)) (l : list A) (ys : list B) (y : B) :
  collect f l = Ret ys → y ∈ ys → ∃ x zs, x ∈ l ∧ f x = Ret zs ∧ y ∈ zs.
Proof.
  revert ys. induction l as [|x l IH]; intros ys; simpl.
  - intros [= <-] []%elem_of_nil.
  - destruct (f x) as [zs|] eqn:Hfx; [|done].
    destruct (collect f l) as [ys'|]; [|done].
    intros [= <-] [Hy|Hy]%elem_of_app.
    + exists x, zs. split_and!; [left|done|done].
    + destruct (IH ys' eq_refl Hy) as (x' & zs' & ? & ? & ?).
      exists x', zs'. split_and!; [by right|done|done].
Qed.




End families.



(** *** Cell family *)

Lemma length_at_most_one_block {A : Type} (N : Z) (g : Z → Z → A) (k : nat) :
  Z.of_nat k ≤ N →
  2 * Z.of_nat (length (seqZ 1 (Z.of_nat k) ≫= λ v1, py_range (v1 + 1) (N + 1) ≫= λ v2, [g v1 v2]))
  = Z.of_nat k * (2 * N - Z.of_nat k - 1).
Proof.
  induction k as [|k IH]; intros Hk; [done|].
  rewrite seqZ_S, bind_app, length_app, bind_singleton, Nat2Z.inj_add.
  rewrite Z.mul_add_distr_l, IH by lia.
  assert (∀ l : list Z, length (l ≫= λ v2, [g (1 + Z.of_nat k) v2]) = length l) as ->.
  { induction l; [done|]. csimpl. by f_equal. }
  rewrite length_py_range. lia.
Qed.

(** The cell family of [src/solving/encoder.py]: for each cell one
    at-least-one clause over its [N] variables and the [N(N-1)/2] pairwise
    clauses. *)
Lemma solving_cell_family (text : list (list token)) (cls : list (list Z)) (nv r c : Z) :
  let N := Z.of_nat (length text) in
  let var := solving_encoder.var N in
  solving_encoder.to_cnf text = Ret (cls, nv) →
  0 ≤ r < N → 0 ≤ c < N →
  (λ v, var r c v) <$> seqZ 1 N ∈ cls
  ∧ length ((λ v, var r c v) <$> seqZ 1 N) = Z.to_nat N
  ∧ (∀ v1 v2, 1 ≤ v1 → v1 < v2 → v2 ≤ N → [- var r c v1; - var r c v2] ∈ cls)
  ∧ 2 * Z.of_nat (length (v1 ← py_range 1 (N + 1); v2 ← py_range (v1 + 1) (N + 1);
                          [[- var r c v1; - var r c v2]]))
    = N * (N - 1).
Proof.
  intros N var (boxes & clues & _ & _ & -> & _)%solving_to_cnf_inv Hr Hc.
  subst var. fold N.
  assert (∀ cl, cl ∈ ((λ v, solving_encoder.var N r c v) <$> py_range 1 (N + 1))
                       :: (v1 ← py_range 1 (N + 1); v2 ← py_range (v1 + 1) (N + 1);
                           [[- solving_encoder.var N r c v1; - solving_encoder.var N r c v2]])
                → cl ∈ solving_encoder.cell_clauses N) as Hcell.
  { intros cl Hcl. unfold solving_encoder.cell_clauses.
    apply list_elem_of_bind. exists r. split; [|apply elem_of_py_range; lia].
    apply list_elem_of_bind. exists c. split; [|apply elem_of_py_range; lia]. done. }
  split_and!.
  - apply elem_of_app. left. apply Hcell.
    replace (seqZ 1 N) with (py_range 1 (N + 1)); [left|].
    unfold py_range. f_equal. lia.
  - rewrite length_fmap, length_seqZ. done.
  - intros v1 v2 H1 H12 H2. apply elem_of_app. left. apply Hcell. right.
    apply list_elem_of_bind. exists v1. split; [|apply elem_of_py_range; lia].
    apply list_elem_of_bind. exists v2. split; [|apply elem_of_py_range; lia]. by left.
  - pose proof (length_at_most_one_block N
        (λ v1 v2, [- solving_encoder.var N r c v1; - solving_encoder.var N r c v2])
        (Z.to_nat N)) as Hlen.
    rewrite Z2Nat.id in Hlen by lia.
    replace (py_range 1 (N + 1)) with (seqZ 1 N) by (unfold py_range; f_equal; lia).
    rewrite Hlen by lia. lia.
Qed.

(** C5.  [src/CODE/encoder.py] on a blank 4×4 grid: the at-least-one clause
    of cell (0,0) should be [[1; 2; 3; 4]], the four variables of that cell.
    The clause list does not contain it; it contains the nine-literal clause
    [[1; ...; 9]] instead, which reaches into the variables of cells (0,1)
    and (0,2).  [src/solving/encoder.py] emits [[1; 2; 3; 4]]. *)
Theorem CODE_cell_family_4x4 :
  ∃ cls cls',
    CODE_encoder.to_cnf (replicate 4 (replicate 4 (TInt 0))) = Ret (cls, 64)
    ∧ solving_encoder.to_cnf (replicate 4 (replicate 4 (TInt 0))) = Ret (cls', 64)
    ∧ (λ v, CODE_encoder.var 4 0 0 v) <$> seqZ 1 4 = [1; 2; 3; 4]
    ∧ ([1; 2; 3; 4] ∉ cls)
    ∧ [1; 2; 3; 4; 5; 6; 7; 8; 9] ∈ cls
    ∧ [1; 2; 3; 4] ∈ cls'.
Proof.
  eexists; eexists.
  split; [vm_compute; reflexivity|]. split; [vm_compute; reflexivity|].
  split; [reflexivity|].
  split; [|split]; apply (bool_decide_unpack _); vm_compute; exact I.
Qed.

(** *** What the encoders accept *)

Lemma collect_Ret_iff {A B : Type} (f : A → result (list B)) (l : list A) :
  (∃ ys, collect f l = Ret ys) ↔ ∀ x, x ∈ l → ∃ zs, f x = Ret zs.
Proof.
  induction l as [|x l IH]; simpl.
  - split; [by intros _ ? ?%elem_of_nil|eauto].
  - split.
    + intros [ys Hys] y Hy.
      destruct (f x) as [zs|] eqn:Hfx; [|done].
      destruct (collect f l) as [ys'|]; [|done].
      apply elem_of_cons in Hy as [->|Hy]; [eauto|].
      apply IH; eauto.
    + intros Hall. destruct (Hall x) as [zs ->]; [by left|].
      destruct (proj2 IH) as [ys' ->]; [|eauto].
      intros y Hy. apply Hall. by right.
Qed.

Lemma collect_Ret_elem_of {A B : Type} (f : A → result (list B)) (l : list A)
    (ys zs : list B) (x : A) (y : B) :
  collect f l = Ret ys → x ∈ l → f x = Ret zs → y ∈ zs → y ∈ ys.
Proof.
  revert ys. induction l as [|x' l IH]; intros ys; simpl; [by intros _ ?%elem_of_nil|].
  destruct (f x') as [zs'|] eqn:Hfx; [|done].
  destruct (collect f l) as [ys'|]; [|done].
  intros [= <-] Hx Hz Hy. apply elem_of_app.
  apply elem_of_cons in Hx as [->|Hx].
  - left. congruence.
  - right. by eapply IH.
Qed.

Lemma box_clauses_Ret_iff (N : Z) :
  (∃ boxes, solving_encoder.box_clauses N (int_sqrt N) = Ret boxes) ↔ 0 < N.
Proof.
  unfold solving_encoder.box_clauses, py_range_step, int_sqrt.
  pose proof (Z.sqrt_pos N) as Hpos. pose proof (Z.sqrt_nonneg N) as Hnn.
  destruct (Z.eqb_spec (Z.sqrt N) 0) as [H0|H0].
  - split; [by intros [? [=]]|lia].
  - destruct (Z.ltb_spec 0 (Z.sqrt N)); [|lia]. split; [lia|]. intros _. cbn. eauto.
Qed.

Lemma box_clauses_empty_file :
  solving_encoder.box_clauses 0 (int_sqrt 0) = Raise ValueError.
Proof. reflexivity. Qed.

Lemma clue_cell_Ret_iff (N : Z) (text : list (list token)) (r c : Z) :
  (∃ zs, solving_encoder.clue_cell N text (r, c) = Ret zs)
  ↔ ∃ row z, text !! Z.to_nat r = Some row ∧ row !! Z.to_nat c = Some (TInt z).
Proof.
  unfold solving_encoder.clue_cell, py_index.
  destruct (text !! Z.to_nat r) as [row|] eqn:Hrow; cbn;
    [|split; [by intros [? [=]]|by intros (?&?&[=]&_)]].
  destruct (row !! Z.to_nat c) as [[z|]|] eqn:Htok; cbn.
  - split; [intros _; by exists row, z|intros _; eexists; reflexivity].
  - split; [by intros [? [=]]|intros (?&?&[= <-]&?); congruence].
  - split; [by intros [? [=]]|intros (?&?&[= <-]&?); congruence].
Qed.

Lemma clue_clauses_Ret_iff (text : list (list token)) :
  (∃ clues, solving_encoder.clue_clauses (Z.of_nat (length text)) text = Ret clues)
  ↔ cells_readable text.
Proof.
  unfold solving_encoder.clue_clauses, cells_readable. rewrite collect_Ret_iff. split.
  - intros Hall r c Hr Hc. apply (clue_cell_Ret_iff (Z.of_nat (length text))), Hall.
    apply list_elem_of_bind. exists r. split; [|by apply elem_of_py_range].
    apply list_elem_of_bind. exists c. split; [by left|by apply elem_of_py_range].
  - intros Hall [r c]
      (r' & (c' & ->%list_elem_of_singleton & Hc%elem_of_py_range)%list_elem_of_bind
          & Hr%elem_of_py_range)%list_elem_of_bind.
    apply clue_cell_Ret_iff, Hall; lia.
Qed.

(** X27.  On every file, of whatever size, the two encoders behave alike:
    either both raise, and then the same exception, or both return, and
    then the same [num_vars]. *)
Lemma to_cnf_same_outcome (text : list (list token)) :
  match CODE_encoder.to_cnf text, solving_encoder.to_cnf text with
  | Ret (_, nv1), Ret (_, nv2) => nv1 = nv2
  | Raise e1, Raise e2 => e1 = e2
  | _, _ => False
  end.
Proof.
  unfold CODE_encoder.to_cnf, solving_encoder.to_cnf. cbv zeta.
  rewrite box_clauses_same, clue_clauses_same.
  destruct (solving_encoder.box_clauses _ _); [|done]. cbn.
  by destruct (solving_encoder.clue_clauses _ _).
Qed.

Lemma solving_to_cnf_Ret_iff (text : list (list token)) :
  let N := Z.of_nat (length text) in
  (∃ cls, solving_encoder.to_cnf text = Ret (cls, N * N * N))
  ↔ 0 < N ∧ cells_readable text.
Proof.
  intros N. rewrite <- box_clauses_Ret_iff, <- clue_clauses_Ret_iff. fold N.
  unfold solving_encoder.to_cnf. cbv zeta. fold N. split.
  - intros [cls H].
    destruct (solving_encoder.box_clauses _ _) as [boxes|]; [|done]. cbn in H.
    destruct (solving_encoder.clue_clauses _ _) as [clues|]; [|done]. eauto.
  - intros [[boxes ->] [clues ->]]. cbn. eauto.
Qed.


(** C9.  For a puzzle file of nine lines the two encoders behave alike.
    On a 9×9 puzzle file (each of the 81 cells is there and reads as an
    integer) both encoders return: [num_vars] is 729 for both, and the two
    clause lists are permutations of each other, hence equal as sets of
    clauses.  On any other file of nine lines (a row with fewer than nine
    tokens, a token that is not an integer) both raise, and the same
    exception.  In all cases the outcomes match: both return with the same
    [num_vars] and permuted clause lists, or both raise the same
    exception. *)
Theorem encoders_agree_9x9 (text : list (list token)) :
  length text = 9%nat →
  (cells_readable text →
     ∃ cls1 cls2 nv,
       CODE_encoder.to_cnf text = Ret (cls1, nv)
       ∧ solving_encoder.to_cnf text = Ret (cls2, nv)
       ∧ nv = 729
       ∧ cls1 ≡ₚ cls2 ∧ (∀ cl, cl ∈ cls1 ↔ cl ∈ cls2))
  ∧ (¬ cells_readable text →
       ∃ e, CODE_encoder.to_cnf text = Raise e ∧ solving_encoder.to_cnf text = Raise e)
  ∧ match CODE_encoder.to_cnf text, solving_encoder.to_cnf text with
    | Ret (cls1, nv1), Ret (cls2, nv2) =>
        nv1 = nv2 ∧ cls1 ≡ₚ cls2 ∧ (∀ cl, cl ∈ cls1 ↔ cl ∈ cls2)
    | Raise e1, Raise e2 => e1 = e2
    | _, _ => False
    end.
Proof.
  intros Hlen.
  assert (match CODE_encoder.to_cnf text, solving_encoder.to_cnf text with
          | Ret (cls1, nv1), Ret (cls2, nv2) =>
              nv1 = nv2 ∧ cls1 ≡ₚ cls2 ∧ (∀ cl, cl ∈ cls1 ↔ cl ∈ cls2)
          | Raise e1, Raise e2 => e1 = e2
          | _, _ => False
          end) as Hmatch.
  { unfold CODE_encoder.to_cnf, solving_encoder.to_cnf. cbv zeta.
    rewrite Hlen. change (Z.of_nat 9) with 9.
    rewrite box_clauses_same, clue_clauses_same.
    destruct (solving_encoder.box_clauses 9 (int_sqrt 9)) as [boxes|e]; [|done].
    destruct (solving_encoder.clue_clauses 9 text) as [clues|e]; [|done].
    change (mret ?x) with (Ret x). cbv beta iota.
    assert (CODE_encoder.cell_clauses 9 ++ CODE_encoder.row_clauses 9
              ++ CODE_encoder.col_clauses 9 ++ boxes
              ++ CODE_encoder.adjacency_clauses 9 ++ clues
            ≡ₚ solving_encoder.cell_clauses 9 ++ solving_encoder.row_clauses 9
              ++ solving_encoder.col_clauses 9 ++ boxes
              ++ solving_encoder.adjacency_clauses 9 ++ clues) as HP.
    { rewrite cell_clauses_9, row_clauses_same, col_clauses_same.
      by rewrite adjacency_clauses_Permutation. }
    split_and!; [done|done|]. intros cl. by rewrite HP. }
  pose proof (solving_to_cnf_Ret_iff text) as Hret. cbv zeta in Hret.
  rewrite Hlen in Hret. change (Z.of_nat 9 * Z.of_nat 9 * Z.of_nat 9) with 729 in Hret.
  split_and!; [| |exact Hmatch].
  - intros Hread. destruct (proj2 Hret) as [cls2 Hcls2]; [split; [done|exact Hread]|].
    rewrite Hcls2 in Hmatch.
    destruct (CODE_encoder.to_cnf text) as [[cls1 nv1]|e]; [|done].
    destruct Hmatch as (-> & HP & Hset). by exists cls1, cls2, 729.
  - intros Hnot.
    destruct (solving_encoder.to_cnf text) as [[cls2 nv2]|e2] eqn:Hsolving.
    + exfalso. apply Hnot.
      destruct (solving_to_cnf_inv _ _ _ Hsolving) as (boxes & clues & _ & _ & _ & Hnv).
      rewrite Hlen in Hnv. change (Z.of_nat 9 * Z.of_nat 9 * Z.of_nat 9) with 729 in Hnv.
      subst nv2. by apply Hret; exists cls2.
    + destruct (CODE_encoder.to_cnf text) as [[cls1 nv1]|e1]; [done|].
      subst e1. by exists e2.
Qed.

Lemma encoders_agree_9x9_witness :
  length (replicate 9 (replicate 9 (TInt 0))) = 9%nat
  ∧ cells_readable (replicate 9 (replicate 9 (TInt 0)))
  ∧ ∃ cls1 cls2 nv,
      CODE_encoder.to_cnf (replicate 9 (replicate 9 (TInt 0))) = Ret (cls1, nv)
      ∧ solving_encoder.to_cnf (replicate 9 (replicate 9 (TInt 0))) = Ret (cls2, nv)
      ∧ nv = 729
      ∧ cls1 ≡ₚ cls2 ∧ (∀ cl, cl ∈ cls1 ↔ cl ∈ cls2).
Proof.
  assert (cells_readable (replicate 9 (replicate 9 (TInt 0)))) as Hread.
  { intros r c Hr Hc. exists (replicate 9 (TInt 0)), 0.
    rewrite length_replicate in Hr, Hc. split; apply lookup_replicate_2; lia. }
  split; [reflexivity|]. split; [exact Hread|].
  exact (proj1 (encoders_agree_9x9 (replicate 9 (replicate 9 (TInt 0))) eq_refl) Hread).
Defined.

Lemma clue_emitted (N : Z) (text : list (list token)) (clues : list (list Z))
    (r c z : Z) (row : list token) :
  solving_encoder.clue_clauses N text = Ret clues →
  0 ≤ r < N → 0 ≤ c < N →
  text !! Z.to_nat r = Some row → row !! Z.to_nat c = Some (TInt z) → 0 < z →
  [solving_encoder.var N r c z] ∈ clues.
Proof.
  intros Hclues Hr Hc Hrow Htok Hz.
  eapply (collect_Ret_elem_of _ _ _ _ (r, c)); [exact Hclues| | |by left].
  - apply list_elem_of_bind. exists r. split; [|by apply elem_of_py_range].
    apply list_elem_of_bind. exists c. split; [by left|by apply elem_of_py_range].
  - unfold solving_encoder.clue_cell, py_index. rewrite Hrow. cbn. rewrite Htok. cbn.
    destruct (Z.ltb_spec 0 z); [done|lia].
Qed.




(** ** Decoding the model ([src/solver.py]) *)

Section decoding.
Import solver.

Lemma grid_cell_insert_ne (grid : list (list Z)) (grid_row : list Z) (row col r c digit : Z) :
  0 ≤ row → 0 ≤ col → 0 ≤ r → 0 ≤ c →
  grid !! Z.to_nat row = Some grid_row →
  (row, col) ≠ (r, c) →
  grid_cell (<[Z.to_nat row := <[Z.to_nat col := digit]> grid_row]> grid) r c
  = grid_cell grid r c.
Proof.
  intros ???? Hrow Hne. unfold grid_cell.
  destruct (decide (row = r)) as [->|Hr].
  - rewrite list_lookup_insert_eq by (by eapply lookup_lt_Some).
    rewrite Hrow. simpl. apply list_lookup_insert_ne. intros ?%Z2Nat.inj; [congruence|lia..].
  - rewrite list_lookup_insert_ne; [done|]. intros ?%Z2Nat.inj; [congruence|lia..].
Qed.

Lemma decode_loop_untouched (indices : list Z) (model : list Z)
    (grid grid' : list (list Z)) (r c : Z) :
  0 ≤ r → 0 ≤ c →
  decode_loop indices model grid = Ret grid' →
  (∀ i, i ∈ indices → 1 ≤ i) →
  (∀ i, i ∈ indices → model !! Z.to_nat i = Some 1 →
        ((i - 1) `div` 81, ((i - 1) `mod` 81) `div` 9) ≠ (r, c)) →
  grid_cell grid' r c = grid_cell grid r c.
Proof.
  intros Hr Hc. revert grid.
  induction indices as [|i indices IH]; intros grid; simpl.
  - by intros [= <-].
  - intros Hloop Hpos Hcell.
    unfold py_index in Hloop at 1.
    destruct (model !! Z.to_nat i) as [val|] eqn:Hval; [|done].
    assert (1 ≤ i) as Hi by (apply Hpos; left).
    destruct (Z.eqb_spec val 1) as [->|Hne].
    + unfold py_index in Hloop.
      destruct (grid !! Z.to_nat ((i - 1) `div` 81)) as [grid_row|] eqn:Hrow; [|done].
      destruct (grid_row !! _); [|done].
      rewrite (IH _ Hloop).
      * apply grid_cell_insert_ne; try done.
        -- apply Z.div_pos; lia.
        -- apply Z.div_pos; [|lia]. apply Z.mod_pos_bound. lia.
        -- apply Hcell; [left|done].
      * intros j Hj. apply Hpos. by right.
      * intros j Hj. apply Hcell. by right.
    + apply (IH _ Hloop).
      * intros j Hj. apply Hpos. by right.
      * intros j Hj. apply Hcell. by right.
Qed.

Lemma decode_loop_shape (indices : list Z) (model : list Z) (grid grid' : list (list Z)) :
  decode_loop indices model grid = Ret grid' →
  length grid' = length grid
  ∧ (Forall (λ row, length row = 9%nat) grid → Forall (λ row, length row = 9%nat) grid').
Proof.
  revert grid. induction indices as [|i indices IH]; intros grid; simpl.
  - by intros [= <-].
  - unfold py_index at 1.
    destruct (model !! Z.to_nat i) as [val|]; [|done].
    destruct (val =? 1); [|apply IH].
    unfold py_index.
    destruct (grid !! Z.to_nat ((i - 1) `div` 81)) as [grid_row|] eqn:Hrow; [|done].
    destruct (grid_row !! _); [|done].
    intros [Hlen Hall]%IH. rewrite length_insert in Hlen. split; [done|].
    intros Hg. apply Hall. apply Forall_insert; [done|].
    rewrite length_insert. eapply Forall_lookup_1 in Hg; [|exact Hrow]. done.
Qed.

(** Whatever [num_vars] is, the decoded grid has nine rows of nine cells. *)
Lemma decode_shape (model : list Z) (num_vars : Z) (grid : list (list Z)) :
  decode model num_vars = Ret grid →
  length grid = 9%nat ∧ Forall (λ row, length row = 9%nat) grid.
Proof.
  unfold decode. intros [Hlen Hall]%decode_loop_shape. split; [done|].
  apply Hall. by repeat constructor.
Qed.

(** A cell none of whose nine variables is true keeps its initial [0]. *)
Lemma decode_cell_without_value (model : list Z) (num_vars : Z) (grid : list (list Z))
    (r c : Z) :
  decode model num_vars = Ret grid →
  0 ≤ r < 9 → 0 ≤ c < 9 →
  (∀ v, 1 ≤ v ≤ 9 → 81 * r + 9 * c + v ≤ num_vars →
        model !! Z.to_nat (81 * r + 9 * c + v) ≠ Some 1) →
  grid_cell grid r c = Some 0.
Proof.
  unfold decode. intros Hdec Hr Hc Hnone.
  rewrite (decode_loop_untouched _ _ _ _ r c ltac:(lia) ltac:(lia) Hdec).
  - unfold grid_cell. rewrite lookup_replicate_2 by lia. cbn [mbind option_bind].
    by rewrite lookup_replicate_2 by lia.
  - intros i Hi%elem_of_py_range. lia.
  - intros i Hi%elem_of_py_range Hmodel [= Hrow Hcol].
    apply (Hnone ((i - 1) `mod` 9 + 1)).
    + pose proof (Z.mod_pos_bound (i - 1) 9). lia.
    + replace (81 * r + 9 * c + ((i - 1) `mod` 9 + 1)) with i; [lia|].
      subst r c. clear. Z.div_mod_to_equations. lia.
    + replace (81 * r + 9 * c + ((i - 1) `mod` 9 + 1)) with i; [done|].
      subst r c. clear. Z.div_mod_to_equations. lia.
Qed.

Lemma solve_cnf_SAT_inv (fuel : nat) (clauses : list (list Z)) (num_vars : Z)
    (answer : option (list (list Z))) :
  solve_cnf fuel clauses num_vars = Some (Ret (SAT, answer)) →
  ∃ model grid,
    run_dpll fuel clauses num_vars = Some (Ret (Some model))
    ∧ decode model num_vars = Ret grid
    ∧ answer = Some grid.
Proof.
  unfold solve_cnf.
  destruct (run_dpll fuel clauses num_vars) as [[[model|]|]|]; try done.
  destruct (decode model num_vars) as [grid|] eqn:Hdec; [|done].
  cbn. intros [= <-]. eauto.
Qed.


(** C4.  [src/solver.py] on the one-clause instance [[[6]]] of a 4×4 puzzle
    ([num_vars = 64]).  Variable 6 is [var(0,1,2)] for [N = 4], so the
    inverse mapping for the puzzle's [N] puts digit 2 in cell (0,1).  The
    solver makes variable 6 true and its decoding, with the constants 81 and
    9, returns a grid of nine rows with digit 6 in cell (0,0) and 0 in cell
    (0,1). *)
Theorem decode_assumes_9x9 :
  solving_encoder.var 4 0 1 2 = 6
  ∧ ((6 - 1) `div` (4 * 4), ((6 - 1) `mod` (4 * 4)) `div` 4, (6 - 1) `mod` 4 + 1) = (0, 1, 2)
  ∧ ∃ model grid,
      run_dpll 2 [[6]] 64 = Some (Ret (Some model))
      ∧ model !! 6%nat = Some 1
      ∧ solve_cnf 2 [[6]] 64 = Some (Ret (SAT, Some grid))
      ∧ length grid = 9%nat
      ∧ grid_cell grid 0 0 = Some 6
      ∧ grid_cell grid 0 1 = Some 0.
Proof.
  split; [reflexivity|]. split; [reflexivity|].
  eexists; eexists. split; [vm_compute; reflexivity|].
  split; [reflexivity|]. split; [vm_compute; reflexivity|].
  split_and!; reflexivity.
Qed.

(** C8, as the code has it.  When [solve_cnf] returns ["SAT"], the grid is
    the decoding of the model of [dpll], and a cell [(r, c)] of the 9×9 grid
    none of whose variables [81r + 9c + v] (for [v] in 1..9, up to
    [num_vars]) is true in that model holds 0 in the returned grid: nothing
    is raised for it. *)
Theorem decode_leaves_zero (fuel : nat) (clauses : list (list Z)) (num_vars : Z)
    (answer : option (list (list Z))) (r c : Z) :
  solve_cnf fuel clauses num_vars = Some (Ret (SAT, answer)) →
  0 ≤ r < 9 → 0 ≤ c < 9 →
  ∃ model grid,
    run_dpll fuel clauses num_vars = Some (Ret (Some model))
    ∧ answer = Some grid
    ∧ ((∀ v, 1 ≤ v ≤ 9 → 81 * r + 9 * c + v ≤ num_vars →
             model !! Z.to_nat (81 * r + 9 * c + v) ≠ Some 1) →
       grid_cell grid r c = Some 0).
Proof.
  intros (model & grid & Hrun & Hdec & ->)%solve_cnf_SAT_inv Hr Hc.
  exists model, grid. split_and!; [done..|]. by apply decode_cell_without_value.
Qed.

Lemma decode_leaves_zero_witness :
  solve_cnf 1 [] 729 = Some (Ret (SAT, Some (replicate 9 (replicate 9 0))))
  ∧ 0 ≤ 4 < 9 ∧ 0 ≤ 7 < 9
  ∧ ∃ model grid,
      run_dpll 1 [] 729 = Some (Ret (Some model))
      ∧ Some (replicate 9 (replicate 9 0)) = Some grid
      ∧ ((∀ v, 1 ≤ v ≤ 9 → 81 * 4 + 9 * 7 + v ≤ 729 →
               model !! Z.to_nat (81 * 4 + 9 * 7 + v) ≠ Some 1) →
         grid_cell grid 4 7 = Some 0).
Proof.
  assert (solve_cnf 1 [] 729 = Some (Ret (SAT, Some (replicate 9 (replicate 9 0)))))
    as Hrun by (vm_compute; reflexivity).
  split; [exact Hrun|]. split; [lia|]. split; [lia|].
  apply (decode_leaves_zero 1 [] 729 _ 4 7 Hrun); lia.
Defined.

(** The claim of C8 fails on the empty clause set over 729 variables: the
    model of [dpll] makes no variable true, so every cell is without a
    value, and [solve_cnf] returns ["SAT"] with the all-zero grid. *)
Lemma solve_cnf_silent_zero_grid :
  ∃ model,
    run_dpll 1 [] 729 = Some (Ret (Some model))
    ∧ Forall (λ x, x ≠ 1) model
    ∧ solve_cnf 1 [] 729 = Some (Ret (SAT, Some (replicate 9 (replicate 9 0)))).
Proof.
  eexists. split; [vm_compute; reflexivity|].
  split; [|vm_compute; reflexivity].
  apply (bool_decide_unpack _). vm_compute. exact I.
Qed.

End decoding.

(** ** [src/solving/solver.py] *)

Section stub.
Import solving_solver.

Lemma initial_truth_values_lookup (num_vars k : Z) :
  initial_truth_values num_vars !! k
  = if decide (1 ≤ k ≤ num_vars) then Some None else None.
Proof.
  unfold initial_truth_values.
  assert (∀ (l : list Z) (m0 : gmap Z (option bool)),
            foldl (λ m i, <[i := None]> m) m0 l !! k
            = if decide (k ∈ l) then Some None else m0 !! k) as Hfold.
  { induction l as [|i l IH]; intros m0; simpl.
    - by destruct (decide (k ∈ [])) as [?%elem_of_nil|].
    - rewrite IH. destruct (decide (k ∈ l)) as [Hin|Hnin].
      + by rewrite decide_True by by right.
      + destruct (decide (i = k)) as [->|Hne].
        * rewrite lookup_insert_eq. by rewrite decide_True by left.
        * rewrite lookup_insert_ne by done.
          rewrite decide_False; [done|]. intros [?|?]%elem_of_cons; congruence. }
  rewrite Hfold, lookup_empty.
  destruct (decide (1 ≤ k ≤ num_vars)).
  - rewrite decide_True; [done|]. apply elem_of_py_range. lia.
  - rewrite decide_False; [done|]. rewrite elem_of_py_range. lia.
Qed.

Lemma record_units_app (cls1 cls2 : list (list Z)) (m : gmap Z (option bool)) :
  record_units (cls1 ++ cls2) m = record_units cls2 (record_units cls1 m).
Proof. apply foldl_app. Qed.

Lemma record_units_other (cls : list (list Z)) (m : gmap Z (option bool)) (k : Z) :
  (∀ l, [l] ∈ cls → Z.abs l ≠ k) →
  record_units cls m !! k = m !! k.
Proof.
  revert m. induction cls as [|cl cls IH]; intros m Hno; [done|].
  change (record_units (cl :: cls) m) with (record_units ([cl] ++ cls) m).
  rewrite record_units_app, IH by (intros l Hl; apply Hno; by right).
  destruct cl as [|l [|l' cl]]; [done| |done].
  unfold record_units. simpl.
  assert (Z.abs l ≠ k) by (apply Hno; left).
  destruct (l <? 0); by rewrite lookup_insert_ne.
Qed.

Lemma record_units_last (pre post : list (list Z)) (l : Z) (m : gmap Z (option bool)) :
  (∀ l', [l'] ∈ post → Z.abs l' ≠ Z.abs l) →
  record_units (pre ++ [l] :: post) m !! Z.abs l = Some (Some (negb (l <? 0))).
Proof.
  intros Hpost.
  change (pre ++ [l] :: post) with (pre ++ [[l]] ++ post).
  rewrite !record_units_app, record_units_other by done.
  unfold record_units. simpl. destruct (l <? 0); by rewrite lookup_insert_eq.
Qed.

End stub.

(** C10.  [solve_cnf] of [src/solving/solver.py] returns [None] on every
    input, never a (status, model) pair.  Its dictionary holds, for the
    variable of a one-literal clause, the sign of the last such clause
    ([False] for a negative literal, [True] otherwise); every other key of
    [1..num_vars] holds [None], and no further key is present. *)
Theorem stub_solve_cnf_returns_None (clauses : list (list Z)) (num_vars : Z) :
  let truth_values := fst (solving_solver.solve_cnf clauses num_vars) in
  let returned := snd (solving_solver.solve_cnf clauses num_vars) in
  returned = solving_solver.PyNone
  ∧ (∀ st model, returned ≠ solving_solver.PyPair st model)
  ∧ (∀ pre l post,
       clauses = pre ++ [l] :: post →
       (∀ l', [l'] ∈ post → Z.abs l' ≠ Z.abs l) →
       truth_values !! Z.abs l = Some (Some (negb (l <? 0))))
  ∧ (∀ k, (∀ l, [l] ∈ clauses → Z.abs l ≠ k) →
          truth_values !! k = if decide (1 ≤ k ≤ num_vars) then Some None else None).
Proof.
  cbn. split_and!; [done|done| |].
  - intros pre l post -> Hpost. by apply record_units_last.
  - intros k Hk. rewrite record_units_other by done. apply initial_truth_values_lookup.
Qed.

Lemma stub_solve_cnf_returns_None_witness :
  snd (solving_solver.solve_cnf [[1]; [-2]; [3; 4]; [-1]] 3) = solving_solver.PyNone
  ∧ fst (solving_solver.solve_cnf [[1]; [-2]; [3; 4]; [-1]] 3) !! Z.abs (-1)
    = Some (Some (negb (-1 <? 0)))
  ∧ fst (solving_solver.solve_cnf [[1]; [-2]; [3; 4]; [-1]] 3) !! 3
    = (if decide (1 ≤ 3 ≤ 3) then Some None else None).
Proof.
  destruct (stub_solve_cnf_returns_None [[1]; [-2]; [3; 4]; [-1]] 3) as (H1 & _ & H3 & H4).
  split; [exact H1|]. split.
  - apply (H3 [[1]; [-2]; [3; 4]] (-1) []); [reflexivity|].
    intros l' Hl'. by apply elem_of_nil in Hl'.
  - apply H4. intros l Hl.
    repeat (apply elem_of_cons in Hl as [Hl|Hl];
              [first [discriminate Hl|injection Hl as ->; lia]|]).
    by apply elem_of_nil in Hl.
Defined.

(** ** The DPLL solver ([src/solver.py]) *)

Section dpll_correct.
Import solver.

Lemma lit_val_cases (lit : Z) : lit_val lit = 1 ∨ lit_val lit = -1.
Proof. unfold lit_val. destruct (0 <? lit); auto. Qed.

Lemma lit_val_nonzero (lit : Z) : lit_val lit ≠ 0.
Proof. destruct (lit_val_cases lit); lia. Qed.

Lemma lit_val_opp (lit : Z) : lit ≠ 0 → lit_val (- lit) = - lit_val lit.
Proof.
  intros. unfold lit_val.
  destruct (Z.ltb_spec 0 lit), (Z.ltb_spec 0 (- lit)); lia.
Qed.

Lemma sat_lit_opp (v : nat → Z) (lit : Z) :
  lit ≠ 0 → sat_lit v lit → ¬ sat_lit v (- lit).
Proof.
  unfold sat_lit. intros Hlit H1 H2.
  rewrite Z.abs_opp, H1, lit_val_opp in H2 by done.
  pose proof (lit_val_nonzero lit). lia.
Qed.

Lemma abs_eq_cases (l lit : Z) : Z.to_nat (Z.abs l) = Z.to_nat (Z.abs lit) → l = lit ∨ l = - lit.
Proof. lia. Qed.

Lemma next_iter_singleton (cl : gset Z) : size cl = 1%nat → cl = {[ next_iter cl ]}.
Proof.
  intros [x Hx%leibniz_equiv]%size_1_elem_of. subst cl.
  unfold next_iter. by rewrite elements_singleton.
Qed.

(** *** The clause loop of unit propagation *)

(** Backward: a valuation of the simplified clauses that makes [lit] true
    satisfies the clauses before the loop. *)
Lemma simplify_sound (lit : Z) (cls cls' : list (gset Z)) (q q' : list Z) (v : nat → Z) :
  simplify lit cls q = Some (cls', q') →
  sat_lit v lit → sat_all v cls' → sat_all v cls.
Proof.
  revert cls' q q'. induction cls as [|cl cls IH]; intros cls' q q'; simpl.
  - intros _ _ _ cl []%elem_of_nil.
  - intros Hs Hlit Hall cl0 Hcl0.
    destruct (decide (lit ∈ cl)) as [Hin|Hnin].
    { apply elem_of_cons in Hcl0 as [->|Hcl0]; [by exists lit|]. by eapply IH. }
    destruct (decide (- lit ∈ cl)) as [Hopp|Hnopp].
    + destruct (decide (size (cl ∖ {[ - lit ]}) = 0%nat)); [done|].
      destruct (simplify lit cls _) as [[new q1]|] eqn:Hrec; [|done].
      injection Hs as <- <-.
      apply elem_of_cons in Hcl0 as [->|Hcl0].
      * destruct (Hall (cl ∖ {[ - lit ]})) as (l & Hl & Hsat); [left|].
        exists l. split; [|done]. by apply elem_of_difference in Hl as [? _].
      * eapply IH; [done|done| |done]. intros ??. apply Hall. by right.
    + destruct (simplify lit cls _) as [[new q1]|] eqn:Hrec; [|done].
      injection Hs as <- <-.
      apply elem_of_cons in Hcl0 as [->|Hcl0].
      * apply Hall. left.
      * eapply IH; [done|done| |done]. intros ??. apply Hall. by right.
Qed.

(** Structure of the result: where the new clauses and the new queue
    entries come from, and how long they are. *)
Lemma simplify_shape (lit : Z) (cls cls' : list (gset Z)) (q q' : list Z) :
  simplify lit cls q = Some (cls', q') →
  (∀ cl', cl' ∈ cls' →
     ∃ cl, cl ∈ cls ∧ (lit ∉ cl)
           ∧ ((cl' = cl ∧ (- lit ∉ cl)) ∨ (cl' = cl ∖ {[ - lit ]} ∧ - lit ∈ cl)))
  ∧ (∀ l, l ∈ q' → l ∈ q ∨ {[ l ]} ∈ cls')
  ∧ (length cls' ≤ length cls)%nat
  ∧ (length q' ≤ length q + length cls')%nat.
Proof.
  revert cls' q q'. induction cls as [|cl cls IH]; intros cls' q q'; simpl.
  - intros [= <- <-]. split_and!; [by intros ? ?%elem_of_nil|auto|done|simpl; lia].
  - destruct (decide (lit ∈ cl)) as [Hin|Hnin].
    { intros (H1 & H2 & H3 & H4)%IH. split_and!; [|done|lia|done].
      intros cl' (cl0 & ? & ?)%H1. exists cl0. split; [by right|done]. }
    destruct (decide (- lit ∈ cl)) as [Hopp|Hnopp].
    + destruct (decide (size (cl ∖ {[ - lit ]}) = 0%nat)); [done|].
      destruct (simplify lit cls _) as [[new q1]|] eqn:Hrec; [|done].
      intros [= <- <-]. apply IH in Hrec as (H1 & H2 & H3 & H4). split_and!.
      * intros cl' [->|Hcl']%elem_of_cons.
        -- exists cl. split; [left|]. split; [done|]. by right.
        -- destruct (H1 _ Hcl') as (cl0 & ? & ?). exists cl0. split; [by right|done].
      * intros l [Hl|Hl]%H2; [|by right; right].
        destruct (decide (size (cl ∖ {[ - lit ]}) = 1%nat)) as [Hone|]; [|by left].
        apply elem_of_cons in Hl as [->|Hl]; [|by left].
        right. apply elem_of_cons. left. symmetry. by apply next_iter_singleton.
      * simpl; lia.
      * destruct (decide (size (cl ∖ {[ - lit ]}) = 1%nat)); simpl in *; lia.
    + destruct (simplify lit cls _) as [[new q1]|] eqn:Hrec; [|done].
      intros [= <- <-]. apply IH in Hrec as (H1 & H2 & H3 & H4). split_and!.
      * intros cl' [->|Hcl']%elem_of_cons.
        -- exists cl. split; [left|]. split; [done|]. by left.
        -- destruct (H1 _ Hcl') as (cl0 & ? & ?). exists cl0. split; [by right|done].
      * intros l [Hl|Hl]%H2; [by left|by right; right].
      * simpl; lia.
      * simpl; lia.
Qed.

(** The conflict exit: some clause is exactly the negated literal. *)
Lemma simplify_conflict (lit : Z) (cls : list (gset Z)) (q : list Z) :
  simplify lit cls q = None → {[ - lit ]} ∈ cls ∧ lit ≠ - lit.
Proof.
  revert q. induction cls as [|cl cls IH]; intros q; simpl; [done|].
  destruct (decide (lit ∈ cl)) as [Hin|Hnin].
  { intros [??]%IH. split; [by right|done]. }
  destruct (decide (- lit ∈ cl)) as [Hopp|Hnopp].
  - destruct (decide (size (cl ∖ {[ - lit ]}) = 0%nat)) as [Hempty|].
    + intros _. apply size_empty_inv, leibniz_equiv in Hempty.
      split; [|intros Heq; apply Hnin; by rewrite Heq].
      assert (cl = {[ - lit ]}) as ->; [|left].
      apply set_eq. intros x. rewrite elem_of_singleton. split; [|by intros ->].
      intros Hx. destruct (decide (x = - lit)) as [|Hne]; [done|].
      exfalso. apply (not_elem_of_empty (C:=gset Z) x). rewrite <- Hempty.
      apply elem_of_difference. split; [done|]. by rewrite elem_of_singleton.
    + destruct (simplify lit cls _) as [[new q1]|] eqn:Hrec; [done|].
      intros _. apply IH in Hrec as [??]. split; [by right|done].
  - destruct (simplify lit cls _) as [[new q1]|] eqn:Hrec; [done|].
    intros _. apply IH in Hrec as [??]. split; [by right|done].
Qed.

(** Forward: a valuation of the clauses that makes [lit] true satisfies the
    simplified clauses. *)
Lemma simplify_complete (lit : Z) (cls cls' : list (gset Z)) (q q' : list Z) (v : nat → Z) :
  simplify lit cls q = Some (cls', q') →
  lit ≠ 0 → sat_lit v lit → sat_all v cls → sat_all v cls'.
Proof.
  intros (H1 & _)%simplify_shape Hlit Hv Hall cl' (cl & Hcl & Hnin & Hcase)%H1.
  destruct Hcase as [[-> _]|[-> Hopp]]; [by apply Hall|].
  destruct (Hall cl Hcl) as (l & Hl & Hsat). exists l. split; [|done].
  apply elem_of_difference. split; [done|].
  intros ->%elem_of_singleton. by apply (sat_lit_opp v lit).
Qed.

(** The clause loop of a branch is the clause loop of unit propagation
    without its queue. *)
Lemma commit_simplify (lit : Z) (cls : list (gset Z)) (q : list Z) :
  commit lit (- lit) cls = fst <$> simplify lit cls q.
Proof.
  revert q. induction cls as [|cl cls IH]; intros q; simpl; [done|].
  destruct (decide (lit ∈ cl)); [apply IH|].
  destruct (decide (- lit ∈ cl)).
  - destruct (decide (size (cl ∖ {[ - lit ]}) = 0%nat)); [done|].
    rewrite (IH (if decide (size (cl ∖ {[ - lit ]}) = 1%nat)
                 then next_iter (cl ∖ {[ - lit ]}) :: q else q)).
    by destruct (simplify lit cls _) as [[??]|].
  - rewrite (IH q). by destruct (simplify lit cls _) as [[??]|].
Qed.

Lemma commit_Some (lit : Z) (cls cls' : list (gset Z)) :
  commit lit (- lit) cls = Some cls' → ∃ q', simplify lit cls [] = Some (cls', q').
Proof.
  rewrite (commit_simplify lit cls []).
  destruct (simplify lit cls []) as [[new q']|]; [|done].
  intros [= <-]. eauto.
Qed.

Lemma commit_None (lit : Z) (cls : list (gset Z)) :
  commit lit (- lit) cls = None → simplify lit cls [] = None.
Proof.
  rewrite (commit_simplify lit cls []). by destruct (simplify lit cls []).
Qed.

(** *** The assignment array *)

Lemma assignment_ok_insert (a : list Z) (i : nat) (lit : Z) :
  assignment_ok a → assignment_ok (<[i := lit_val lit]> a).
Proof.
  intros Ha. destruct (decide (i < length a)%nat).
  - apply Forall_insert; [done|]. destruct (lit_val_cases lit); auto.
  - by rewrite list_insert_ge by lia.
Qed.

Lemma assignment_ok_lookup (a : list Z) (i : nat) (x : Z) :
  assignment_ok a → a !! i = Some x → x = 0 ∨ x = 1 ∨ x = -1.
Proof. intros Ha Hi. by eapply Forall_lookup_1 in Ha. Qed.

Lemma assignment_ok_replicate (n : nat) : assignment_ok (replicate n 0).
Proof. apply Forall_replicate. auto. Qed.

Lemma agrees_insert_inv (v : nat → Z) (a : list Z) (i : nat) (x : Z) :
  a !! i = Some 0 → agrees v (<[i := x]> a) → agrees v a.
Proof.
  intros Hi Hv j y Hj Hy. apply Hv; [|done].
  destruct (decide (i = j)) as [->|]; [congruence|]. by rewrite list_lookup_insert_ne.
Qed.

Lemma agrees_insert_value (v : nat → Z) (a : list Z) (i : nat) (x : Z) :
  (i < length a)%nat → x ≠ 0 → agrees v (<[i := x]> a) → v i = x.
Proof. intros Hi Hx Hv. apply Hv; [|done]. by apply list_lookup_insert_eq. Qed.

Lemma agrees_insert (v : nat → Z) (a : list Z) (i : nat) (x : Z) :
  agrees v a → v i = x → agrees v (<[i := x]> a).
Proof.
  intros Hv Hi j y Hj Hy. destruct (decide (i = j)) as [->|].
  - destruct (decide (j < length a)%nat).
    + rewrite list_lookup_insert_eq in Hj by done. congruence.
    + rewrite list_insert_ge in Hj by lia. by apply Hv.
  - rewrite list_lookup_insert_ne in Hj by done. by apply Hv.
Qed.

Lemma zeros_insert (a : list Z) (i : nat) (x : Z) :
  a !! i = Some 0 → x ≠ 0 → S (zeros (<[i := x]> a)) = zeros a.
Proof.
  unfold zeros. revert i. induction a as [|y a IH]; intros [|i]; simpl; try done.
  - intros [= ->] Hx. rewrite filter_cons_False, filter_cons_True by done. done.
  - intros Hi Hx. rewrite !filter_cons.
    destruct (decide (y = 0)); simpl; by rewrite <- (IH i).
Qed.

Lemma zeros_replicate (n : nat) : zeros (replicate n 0) = n.
Proof.
  unfold zeros. induction n as [|n IH]; [done|].
  change (replicate (S n) 0) with (0 :: replicate n 0).
  rewrite filter_cons_True by done. simpl. by rewrite IH.
Qed.

Lemma py_index_Ret {A : Type} (l : list A) (i : Z) (x : A) :
  py_index l i = Ret x ↔ l !! Z.to_nat i = Some x.
Proof. unfold py_index. destruct (l !! Z.to_nat i); naive_solver. Qed.

(** *** The unit-propagation loop *)

(** Whatever the clauses are: the loop keeps the array well formed, only
    fills unassigned entries, and a valuation of the final state is a
    valuation of the initial one. *)
Lemma propagate_sound (fuel : nat) (cls cls' : list (gset Z)) (a a' : list Z) (q : list Z) :
  propagate fuel cls a q = Some (Ret (Some (cls', a'))) →
  assignment_ok a →
  assignment_ok a' ∧ length a' = length a
  ∧ (∀ v, agrees v a' → agrees v a)
  ∧ (∀ v, agrees v a' → sat_all v cls' → sat_all v cls).
Proof.
  revert cls a q. induction fuel as [|fuel IH]; intros cls a q; simpl; [done|].
  destruct q as [|lit q]; [by intros [= <- <-]|].
  destruct (py_index a (Z.abs lit)) as [x|] eqn:Hx; [|done].
  apply py_index_Ret in Hx.
  destruct (Z.eqb_spec x (- lit_val lit)); [done|].
  destruct (Z.eqb_spec x (lit_val lit)); [apply IH|].
  destruct (simplify lit cls q) as [[new q']|] eqn:Hsimp; [|done].
  intros Hrec Hok.
  assert (x = 0) as ->.
  { pose proof (lit_val_cases lit). pose proof (assignment_ok_lookup _ _ _ Hok Hx). lia. }
  apply IH in Hrec as (Hok' & Hlen & Hagree & Hsat); [|by apply assignment_ok_insert].
  rewrite length_insert in Hlen. split_and!; [done|done| |].
  - intros v Hv. by eapply agrees_insert_inv, Hagree.
  - intros v Hv Hall. eapply simplify_sound; [done| |by apply Hsat].
    eapply agrees_insert_value, Hagree; [by eapply lookup_lt_Some|apply lit_val_nonzero|done].
Qed.

Lemma live_unassigned_simplify (lit : Z) (cls cls' : list (gset Z)) (q q' : list Z)
    (a : list Z) :
  simplify lit cls q = Some (cls', q') →
  live_unassigned a cls →
  live_unassigned (<[Z.to_nat (Z.abs lit) := lit_val lit]> a) cls'.
Proof.
  intros (H1 & _)%simplify_shape Hlive cl' l (cl & Hcl & Hnin & Hcase)%H1 Hl.
  assert (l ∈ cl ∧ l ≠ - lit) as [Hlcl Hne].
  { destruct Hcase as [[-> Hno]|[-> _]].
    - split; [exact Hl|]. intros ->. by apply Hno.
    - apply elem_of_difference in Hl as [Hl Hne]. split; [exact Hl|].
      intros ->. apply Hne. by apply elem_of_singleton. }
  destruct (Hlive cl l Hcl Hlcl) as [Hl0 Hlook]. split; [done|].
  rewrite list_lookup_insert_ne; [done|].
  intros [Heq|Heq]%abs_eq_cases; [apply Hnin; by rewrite Heq|apply Hne; lia].
Qed.

(** On a well-formed state the loop ends without raising; its conflict
    exit means that no valuation of the state exists, and its normal exit
    keeps every valuation. *)
Lemma propagate_complete (fuel : nat) (cls : list (gset Z)) (a : list Z) (q : list Z) :
  assignment_ok a → live_unassigned a cls → queue_ok a cls q →
  (length q + zeros a * (1 + length cls) < fuel)%nat →
  ∃ r, propagate fuel cls a q = Some (Ret r)
       ∧ match r with
         | None => ∀ v, agrees v a → ¬ sat_all v cls
         | Some (cls', a') =>
             live_unassigned a' cls'
             ∧ (length cls' ≤ length cls)%nat
             ∧ (zeros a' ≤ zeros a)%nat
             ∧ (∀ v, agrees v a → sat_all v cls → agrees v a' ∧ sat_all v cls')
         end.
Proof.
  revert cls a q. induction fuel as [|fuel IH]; intros cls a q Hok Hlive Hq Hfuel; [lia|].
  simpl. destruct q as [|lit q].
  { eexists. split; [done|]. split_and!; auto. }
  destruct (Hq lit) as (Hlit & Hrange & Himplied); [left|].
  assert (queue_ok a cls q) as Hq' by (intros l Hl; apply Hq; by right).
  unfold py_index.
  destruct (lookup_lt_is_Some_2 a _ Hrange) as [x Hx]. rewrite Hx.
  simpl in Hfuel.
  destruct (Z.eqb_spec x (- lit_val lit)) as [->|Hneg].
  { eexists. split; [done|]. intros v Hv Hall.
    pose proof (Himplied v Hv Hall) as Hsat. unfold sat_lit in Hsat.
    pose proof (lit_val_nonzero lit).
    rewrite (Hv _ _ Hx) in Hsat by lia. lia. }
  destruct (Z.eqb_spec x (lit_val lit)) as [->|Hpos].
  { apply IH; [done|done|done|lia]. }
  assert (x = 0) as ->.
  { pose proof (lit_val_cases lit). pose proof (assignment_ok_lookup _ _ _ Hok Hx). lia. }
  destruct (simplify lit cls q) as [[new q']|] eqn:Hsimp.
  - pose proof (simplify_shape _ _ _ _ _ Hsimp) as (Hnew & Hqnew & Hlen & Hqlen).
    pose proof (live_unassigned_simplify _ _ _ _ _ a Hsimp Hlive) as Hlive'.
    pose proof (zeros_insert a _ (lit_val lit) Hx (lit_val_nonzero lit)) as Hz.
    destruct (IH new (<[Z.to_nat (Z.abs lit) := lit_val lit]> a) q') as (r & -> & Hr).
    + by apply assignment_ok_insert.
    + done.
    + intros l [Hl|Hl]%Hqnew.
      * destruct (Hq' l Hl) as (? & ? & Himp). rewrite length_insert. split_and!; [done..|].
        intros v Hv Hall. apply Himp; [by eapply agrees_insert_inv|].
        eapply simplify_sound; [done| |done].
        by eapply agrees_insert_value; [|apply lit_val_nonzero|].
      * destruct (Hlive' {[ l ]} l Hl) as [? Hlook]; [by apply elem_of_singleton|].
        split_and!; [done|by eapply lookup_lt_Some|].
        intros v _ Hall. destruct (Hall _ Hl) as (l' & ->%elem_of_singleton & ?). done.
    + rewrite <- Hz in Hfuel. nia.
    + exists r. split; [done|]. destruct r as [[cls' a']|].
      * destruct Hr as (? & ? & ? & Hfwd). split_and!; [done|lia|lia|].
        intros v Hv Hall. apply Hfwd.
        -- apply agrees_insert; [done|]. by apply Himplied.
        -- eapply simplify_complete; [done|done| |done]. by apply Himplied.
      * intros v Hv Hall. apply (Hr v).
        -- apply agrees_insert; [done|]. by apply Himplied.
        -- eapply simplify_complete; [done|done| |done]. by apply Himplied.
  - apply simplify_conflict in Hsimp as [Hcl Hne].
    eexists. split; [done|]. intros v Hv Hall.
    destruct (Hall _ Hcl) as (l & ->%elem_of_singleton & Hsat).
    exact (sat_lit_opp v lit Hlit (Himplied v Hv Hall) Hsat).
Qed.


(** *** The end of the search: filling in and choosing *)

Lemma extends_agrees (a m : list Z) : extends a m → agrees (val_of m) a.
Proof. intros H i x Hi Hx. unfold val_of. by rewrite (H i x). Qed.

Lemma fill_unassigned_spec (indices : list Z) (a m : list Z) :
  fill_unassigned indices a = Ret m →
  assignment_ok a →
  assignment_ok m ∧ length m = length a ∧ extends a m
  ∧ (∀ i, i ∈ indices → m !! Z.to_nat i = Some 1 ∨ m !! Z.to_nat i = Some (-1)).
Proof.
  revert a. induction indices as [|i indices IH]; intros a; simpl.
  - intros [= <-] Hok. split_and!; [done|done|by intros ???|by intros ? ?%elem_of_nil].
  - destruct (py_index a i) as [x|] eqn:Hx; [|done]. apply py_index_Ret in Hx.
    intros Hfill Hok.
    set (a1 := if x =? 0 then <[Z.to_nat i := -1]> a else a) in Hfill.
    assert (assignment_ok a1 ∧ length a1 = length a ∧ extends a a1
            ∧ (a1 !! Z.to_nat i = Some 1 ∨ a1 !! Z.to_nat i = Some (-1))) as (Hok1 & Hlen1 & Hext1 & Hi1).
    { subst a1. destruct (Z.eqb_spec x 0) as [->|Hx0].
      - split_and!.
        + apply (assignment_ok_insert a _ (-1)). done.
        + apply length_insert.
        + intros j y Hj Hy. rewrite list_lookup_insert_ne; [done|]. congruence.
        + right. apply list_lookup_insert_eq. by eapply lookup_lt_Some.
      - split_and!; [done|done|by intros ???|].
        destruct (assignment_ok_lookup _ _ _ Hok Hx) as [?|[->| ->]]; [done|auto..]. }
    destruct (IH a1 Hfill Hok1) as (Hokm & Hlenm & Hextm & Him).
    split_and!; [done|congruence| |].
    + intros j y Hj Hy. apply Hextm; [|done]. by apply Hext1.
    + intros j [->|Hj]%elem_of_cons; [|by apply Him].
      destruct Hi1 as [Hi1|Hi1]; [left|right]; by apply Hextm.
Qed.

Lemma fill_unassigned_Ret (indices : list Z) (a : list Z) :
  (∀ i, i ∈ indices → (Z.to_nat i < length a)%nat) →
  ∃ m, fill_unassigned indices a = Ret m.
Proof.
  revert a. induction indices as [|i indices IH]; intros a Hin; simpl; [eauto|].
  unfold py_index.
  destruct (lookup_lt_is_Some_2 a (Z.to_nat i)) as [x ->]; [apply Hin; left|].
  apply IH. intros j Hj.
  destruct (x =? 0); [rewrite length_insert|]; apply Hin; by right.
Qed.

Lemma unassigned_vars_spec (a : list Z) (num_vars : Z) (us : list Z) (u : Z) :
  unassigned_vars a num_vars = Ret us →
  u ∈ us ↔ 1 ≤ u ≤ num_vars ∧ a !! Z.to_nat u = Some 0.
Proof.
  unfold unassigned_vars. intros Hus. split.
  - intros Hu. destruct (collect_elem_of _ _ _ _ Hus Hu) as (i & zs & Hi & Hf & Hin).
    apply elem_of_py_range in Hi.
    destruct (py_index a i) as [x|] eqn:Hx; [|done]. apply py_index_Ret in Hx.
    injection Hf as <-.
    destruct (Z.eqb_spec x 0) as [->|]; [|by apply elem_of_nil in Hin].
    apply list_elem_of_singleton in Hin as ->. split; [lia|done].
  - intros [Hu Hlook].
    eapply (collect_Ret_elem_of _ _ _ _ u); [exact Hus|apply elem_of_py_range; lia| |by left].
    apply py_index_Ret in Hlook. cbv beta. by rewrite Hlook.
Qed.

Lemma unassigned_vars_Ret (a : list Z) (num_vars : Z) :
  length a = Z.to_nat (num_vars + 1) → ∃ us, unassigned_vars a num_vars = Ret us.
Proof.
  intros Hlen. unfold unassigned_vars. apply collect_Ret_iff.
  intros i Hi%elem_of_py_range. unfold py_index.
  destruct (lookup_lt_is_Some_2 a (Z.to_nat i)) as [x ->]; [lia|]. eauto.
Qed.

Lemma py_max_by_elem_of (key : Z → Z) (x : Z) (l : list Z) : py_max_by key x l ∈ x :: l.
Proof.
  revert x. induction l as [|y l IH]; intros x; simpl; [left|].
  specialize (IH (if key x <? key y then y else x)).
  apply elem_of_cons in IH as [IH|IH].
  - rewrite IH. destruct (key x <? key y); [right; left|left].
  - by do 2 right.
Qed.

Lemma initial_queue_spec (cls : list (gset Z)) :
  (∀ l, l ∈ initial_queue cls → {[ l ]} ∈ cls)
  ∧ (length (initial_queue cls) ≤ length cls)%nat.
Proof.
  unfold initial_queue. split.
  - intros l (cl & -> & [Hsize Hcl]%list_elem_of_filter)%elem_of_reverse%list_elem_of_fmap.
    by rewrite <- next_iter_singleton.
  - rewrite length_reverse, length_fmap. apply length_filter.
Qed.

(** *** The recursion *)

Lemma dpll_unfold (fuel : nat) (cls : list (gset Z)) (a : list Z)
    (lc : gmap Z Z) (num_vars : Z) :
  dpll (S fuel) cls a lc num_vars =
  match propagate (S fuel) cls a (initial_queue cls) with
  | None => None
  | Some (Raise e) => Some (Raise e)
  | Some (Ret None) => Some (Ret None)
  | Some (Ret (Some (cls', a'))) =>
      match cls' with
      | [] =>
          Some (model ← fill_unassigned (py_range 1 (num_vars + 1)) a'; mret (Some model))
      | _ :: _ =>
          match unassigned_vars a' num_vars with
          | Raise e => Some (Raise e)
          | Ret [] => Some (Ret None)
          | Ret (u :: us) =>
              let var := py_max_by (λ v, counter_get lc v + counter_get lc (- v)) u us in
              let rec := λ c b, dpll fuel c b lc num_vars in
              try_val rec cls' a' var 1 (try_val rec cls' a' var (-1) (Some (Ret None)))
          end
      end
  end.
Proof. reflexivity. Qed.

Lemma try_val_Some (rec : list (gset Z) → list Z → option (result (option (list Z))))
    (cls : list (gset Z)) (a : list Z) (var val : Z)
    (otherwise : option (result (option (list Z)))) (m : list Z) :
  try_val rec cls a var val otherwise = Some (Ret (Some m)) →
  (∃ new_clauses,
     commit (if 0 <? val then var else - var) (if 0 <? val then - var else var) cls
     = Some new_clauses
     ∧ rec new_clauses (<[Z.to_nat var := val]> a) = Some (Ret (Some m)))
  ∨ otherwise = Some (Ret (Some m)).
Proof.
  unfold try_val. destruct (commit _ _ cls) as [new|]; [|by right].
  destruct (rec new _) as [[[m'|]|]|] eqn:Hrec; try done; [|by right].
  intros [= ->]. left. eauto.
Qed.

(** A branch on the unassigned variable [var] with the value of the literal
    [lit] (which is [var] or [-var]): a valuation of the branch is a
    valuation of the state before it. *)
Lemma branch_sound (lit : Z) (cls new : list (gset Z)) (a : list Z) (v : nat → Z) :
  commit lit (- lit) cls = Some new →
  a !! Z.to_nat (Z.abs lit) = Some 0 →
  agrees v (<[Z.to_nat (Z.abs lit) := lit_val lit]> a) → sat_all v new →
  agrees v a ∧ sat_all v cls.
Proof.
  intros [q' Hsimp]%commit_Some Hlook Hv Hall. split; [by eapply agrees_insert_inv|].
  eapply simplify_sound; [done| |done].
  eapply agrees_insert_value; [by eapply lookup_lt_Some|apply lit_val_nonzero|done].
Qed.

Lemma dpll_sound (fuel : nat) (cls : list (gset Z)) (a : list Z) (lc : gmap Z Z)
    (num_vars : Z) (m : list Z) :
  dpll fuel cls a lc num_vars = Some (Ret (Some m)) →
  assignment_ok a →
  assignment_ok m ∧ length m = length a
  ∧ agrees (val_of m) a ∧ sat_all (val_of m) cls
  ∧ (∀ i, 1 ≤ i ≤ num_vars → m !! Z.to_nat i = Some 1 ∨ m !! Z.to_nat i = Some (-1)).
Proof.
  revert cls a. induction fuel as [|fuel IH]; intros cls a; [done|].
  rewrite dpll_unfold.
  destruct (propagate (S fuel) cls a (initial_queue cls)) as [[[[cls' a']|]|]|] eqn:Hprop;
    try done.
  intros Hres Hok.
  destruct (propagate_sound _ _ _ _ _ _ Hprop Hok) as (Hok' & Hlen' & Hagree & Hsat).
  destruct cls' as [|cl cls'].
  - destruct (fill_unassigned _ a') as [m'|] eqn:Hfill; [|done].
    injection Hres as ->.
    destruct (fill_unassigned_spec _ _ _ Hfill Hok') as (Hokm & Hlenm & Hext & Htotal).
    split_and!; [done|congruence| | |].
    + by apply Hagree, extends_agrees.
    + apply Hsat; [by apply extends_agrees|]. by intros ? ?%elem_of_nil.
    + intros i Hi. apply Htotal, elem_of_py_range. lia.
  - destruct (unassigned_vars a' num_vars) as [[|u us]|] eqn:Hus; try done.
    cbv zeta in Hres.
    set (var := py_max_by _ u us) in Hres.
    assert (1 ≤ var ∧ a' !! Z.to_nat var = Some 0) as [Hvar Hlook].
    { pose proof (py_max_by_elem_of (λ v, counter_get lc v + counter_get lc (- v)) u us) as Hin.
      fold var in Hin. apply (unassigned_vars_spec _ _ _ _ Hus) in Hin as [? ?].
      split; [lia|done]. }
    assert (∀ lit new,
              Z.abs lit = var →
              commit lit (- lit) (cl :: cls') = Some new →
              dpll fuel new (<[Z.to_nat var := lit_val lit]> a') lc num_vars
              = Some (Ret (Some m)) →
              assignment_ok m ∧ length m = length a
              ∧ agrees (val_of m) a ∧ sat_all (val_of m) cls
              ∧ (∀ i, 1 ≤ i ≤ num_vars →
                      m !! Z.to_nat i = Some 1 ∨ m !! Z.to_nat i = Some (-1))) as Hbranch.
    { intros lit new Habs Hcommit Hrec.
      destruct (IH _ _ Hrec) as (Hokm & Hlenm & Hagm & Hsatm & Htotal).
      { by apply assignment_ok_insert. }
      rewrite length_insert in Hlenm. rewrite <- Habs in Hagm, Hlook.
      destruct (branch_sound _ _ _ _ _ Hcommit Hlook Hagm Hsatm) as [Hag' Hsat'].
      split_and!; [done|congruence|by apply Hagree|by apply Hsat|done]. }
    apply try_val_Some in Hres as [(new & Hcommit & Hrec)|Hres].
    { apply (Hbranch var new); [lia| |].
      - by replace (0 <? 1) with true in Hcommit by done.
      - replace (lit_val var) with 1; [done|]. unfold lit_val.
        by destruct (Z.ltb_spec 0 var); [|lia]. }
    apply try_val_Some in Hres as [(new & Hcommit & Hrec)|Hres]; [|done].
    apply (Hbranch (- var) new); [lia| |].
    + replace (0 <? -1) with false in Hcommit by done. by rewrite Z.opp_involutive.
    + replace (lit_val (- var)) with (-1); [done|]. unfold lit_val.
      by destruct (Z.ltb_spec 0 (- var)); [lia|].
Qed.


Lemma normalize_sat_lit (v : nat → Z) (lit : Z) : sat_lit v lit → sat_lit (normalize v) lit.
Proof.
  unfold sat_lit, normalize. intros ->.
  destruct (lit_val_cases lit) as [-> | ->]; by case_decide.
Qed.

Lemma normalize_sat_all (v : nat → Z) (cls : list (gset Z)) :
  sat_all v cls → sat_all (normalize v) cls.
Proof.
  intros Hall cl Hcl. destruct (Hall cl Hcl) as (l & ? & ?).
  exists l. split; [done|]. by apply normalize_sat_lit.
Qed.

Lemma normalize_agrees (v : nat → Z) (a : list Z) :
  assignment_ok a → agrees v a → agrees (normalize v) a.
Proof.
  intros Hok Hv i x Hi Hx. unfold normalize. rewrite (Hv i x Hi Hx).
  destruct (assignment_ok_lookup _ _ _ Hok Hi) as [?|[->| ->]]; [done|by case_decide..].
Qed.

(** A branch on the unassigned variable of [lit]: when the clause loop
    reports a conflict, or the recursive call fails, no valuation of the
    state makes [lit] true. *)
Lemma branch_conflict (lit : Z) (cls : list (gset Z)) (v : nat → Z) :
  lit ≠ 0 → commit lit (- lit) cls = None → sat_lit v lit → ¬ sat_all v cls.
Proof.
  intros Hlit [Hcl _]%commit_None%simplify_conflict Hv Hall.
  destruct (Hall _ Hcl) as (l & ->%elem_of_singleton & Hsat).
  by apply (sat_lit_opp v lit).
Qed.

Lemma branch_complete (lit : Z) (cls new : list (gset Z)) (a : list Z) (v : nat → Z) :
  lit ≠ 0 → commit lit (- lit) cls = Some new →
  agrees v a → sat_lit v lit → sat_all v cls →
  agrees v (<[Z.to_nat (Z.abs lit) := lit_val lit]> a) ∧ sat_all v new.
Proof.
  intros Hlit [q' Hsimp]%commit_Some Hv Hsat Hall. split.
  - by apply agrees_insert.
  - by eapply simplify_complete.
Qed.

Lemma branch_live (lit : Z) (cls new : list (gset Z)) (a : list Z) :
  commit lit (- lit) cls = Some new → live_unassigned a cls →
  live_unassigned (<[Z.to_nat (Z.abs lit) := lit_val lit]> a) new
  ∧ (length new ≤ length cls)%nat.
Proof.
  intros [q' Hsimp]%commit_Some Hlive. split.
  - by eapply live_unassigned_simplify.
  - by apply simplify_shape in Hsimp as (_ & _ & ? & _).
Qed.

(** On a well-formed state and with enough fuel, [dpll] returns without
    raising, and when it returns failure the state has no valuation. *)
Lemma dpll_complete (fuel : nat) (cls : list (gset Z)) (a : list Z) (lc : gmap Z Z)
    (num_vars : Z) :
  assignment_ok a → length a = Z.to_nat (num_vars + 1) → live_unassigned a cls →
  (enough_fuel cls a ≤ fuel)%nat →
  ∃ r, dpll fuel cls a lc num_vars = Some (Ret r)
       ∧ (r = None → ∀ v, agrees v a → ¬ sat_all v cls).
Proof.
  unfold enough_fuel.
  revert cls a. induction fuel as [|fuel IH]; intros cls a Hok Hlen Hlive Hfuel; [lia|].
  rewrite dpll_unfold.
  destruct (initial_queue_spec cls) as [Hq Hqlen].
  destruct (propagate_complete (S fuel) cls a (initial_queue cls)) as (r0 & Hprop & Hr0);
    [done|done| |nia|].
  { intros l Hl%Hq. destruct (Hlive {[ l ]} l Hl) as [? Hlook]; [by apply elem_of_singleton|].
    split_and!; [done|by eapply lookup_lt_Some|].
    intros v _ Hall. by destruct (Hall _ Hl) as (l' & ->%elem_of_singleton & ?). }
  rewrite Hprop. destruct r0 as [[cls' a']|]; [|by eexists].
  destruct Hr0 as (Hlive' & Hlen' & Hz' & Hfwd).
  destruct (propagate_sound _ _ _ _ _ _ Hprop Hok) as (Hok' & Hlena' & _ & _).
  destruct cls' as [|cl cls'].
  { destruct (fill_unassigned_Ret (py_range 1 (num_vars + 1)) a') as [m ->].
    - intros i Hi%elem_of_py_range. lia.
    - cbn. by eexists. }
  destruct (unassigned_vars_Ret a' num_vars) as [us Hus]; [congruence|]. rewrite Hus.
  destruct us as [|u us].
  { eexists. split; [done|]. intros _ v Hv Hall.
    destruct (Hfwd v Hv Hall) as [Hv' Hall'].
    destruct (Hall' cl) as (l & Hl & _); [left|].
    destruct (Hlive' cl l) as [Hl0 Hlook]; [left|done|].
    assert (Z.abs l ∈ []) as []%elem_of_nil.
    apply (unassigned_vars_spec _ _ _ _ Hus). split; [|done].
    apply lookup_lt_Some in Hlook. lia. }
  cbv zeta. set (var := py_max_by _ u us).
  assert (1 ≤ var ∧ a' !! Z.to_nat var = Some 0) as [Hvar Hlook].
  { pose proof (py_max_by_elem_of (λ v, counter_get lc v + counter_get lc (- v)) u us) as Hin.
    fold var in Hin. apply (unassigned_vars_spec _ _ _ _ Hus) in Hin as [? ?].
    split; [lia|done]. }
  (* one round of the loop, for the literal [lit] of the chosen variable *)
  assert (∀ lit otherwise (Q : (nat → Z) → Prop),
            Z.abs lit = var → lit ≠ 0 →
            (∃ r, otherwise = Some (Ret r)
                  ∧ (r = None → ∀ v, agrees v a' → sat_all v (cl :: cls') → Q v)) →
            ∃ r, try_val (λ c b, dpll fuel c b lc num_vars) (cl :: cls') a' var (lit_val lit)
                   otherwise = Some (Ret r)
                 ∧ (r = None → ∀ v, agrees v a' → sat_all v (cl :: cls') →
                               Q v ∧ ¬ sat_lit v lit)) as Hround.
  { intros lit otherwise Q Habs Hlit (ro & -> & Hro).
    assert ((if 0 <? lit_val lit then var else - var) = lit) as Etarget.
    { unfold lit_val. destruct (Z.ltb_spec 0 lit); simpl; lia. }
    assert ((if 0 <? lit_val lit then - var else var) = - lit) as Eopp.
    { unfold lit_val. destruct (Z.ltb_spec 0 lit); simpl; lia. }
    unfold try_val. rewrite Etarget, Eopp.
    destruct (commit lit (- lit) (cl :: cls')) as [new|] eqn:Hcommit.
    - rewrite <- Habs in Hlook.
      destruct (branch_live _ _ _ a' Hcommit Hlive') as [Hlive_new Hlen_new].
      pose proof (zeros_insert a' _ (lit_val lit) Hlook (lit_val_nonzero lit)) as Hz.
      rewrite <- Habs.
      destruct (IH new (<[Z.to_nat (Z.abs lit) := lit_val lit]> a')) as (r1 & Hr1 & Hnone1).
      + by apply assignment_ok_insert.
      + rewrite length_insert. congruence.
      + done.
      + simpl in *. nia.
      + rewrite Hr1. destruct r1 as [m|]; [by eexists|].
        exists ro. split; [done|]. intros Hnone v Hv Hall. split; [by apply Hro|].
        intros Hsat.
        destruct (branch_complete _ _ _ _ v Hlit Hcommit Hv Hsat Hall).
        by apply (Hnone1 eq_refl v).
    - exists ro. split; [done|]. intros Hnone v Hv Hall. split; [by apply Hro|].
      intros Hsat. by apply (branch_conflict _ _ v Hlit Hcommit Hsat). }
  (* the two rounds: [val = 1] is the literal [var], [val = -1] is [- var] *)
  assert (lit_val var = 1) as Hpos.
  { unfold lit_val. by destruct (Z.ltb_spec 0 var); [|lia]. }
  assert (lit_val (- var) = -1) as Hneg.
  { unfold lit_val. by destruct (Z.ltb_spec 0 (- var)); [lia|]. }
  destruct (Hround (- var) (Some (Ret None)) (λ _, True)) as (r2 & Hr2 & Hnone2);
    [lia|lia|by eexists|].
  rewrite Hneg in Hr2.
  destruct (Hround var
              (try_val (λ c b, dpll fuel c b lc num_vars) (cl :: cls') a' var (-1)
                 (Some (Ret None)))
              (λ v, True ∧ ¬ sat_lit v (- var))) as (r & Hr & Hnone);
    [lia|lia|by exists r2|].
  rewrite Hpos in Hr. exists r. split; [done|].
  intros Hrn v Hv Hall.
  destruct (Hfwd v Hv Hall) as [Hv' Hall'].
  destruct (Hnone Hrn (normalize v)) as [[_ Hnneg] Hnpos].
  { by apply normalize_agrees. }
  { by apply normalize_sat_all. }
  unfold sat_lit in Hnneg, Hnpos. rewrite Hneg, Z.abs_opp in Hnneg. rewrite Hpos in Hnpos.
  unfold normalize in Hnneg, Hnpos. by case_decide.
Qed.


(** *** More fuel does not change a result *)

Lemma propagate_mono (fuel fuel' : nat) (cls : list (gset Z)) (a q : list Z)
    (r : result (option (list (gset Z) * list Z))) :
  (fuel ≤ fuel')%nat →
  propagate fuel cls a q = Some r → propagate fuel' cls a q = Some r.
Proof.
  revert fuel' cls a q. induction fuel as [|fuel IH]; intros fuel' cls a q Hle; [done|].
  destruct fuel' as [|fuel']; [lia|]. simpl.
  destruct q as [|lit q]; [done|].
  destruct (py_index a (Z.abs lit)) as [x|]; [|done].
  destruct (x =? - lit_val lit); [done|].
  destruct (x =? lit_val lit); [apply IH; lia|].
  destruct (simplify lit cls q) as [[new q']|]; [|done].
  apply IH; lia.
Qed.

Lemma try_val_mono (rec rec' : list (gset Z) → list Z → option (result (option (list Z))))
    (cls : list (gset Z)) (a : list Z) (var val : Z)
    (otherwise otherwise' : option (result (option (list Z))))
    (r : result (option (list Z))) :
  (∀ c b r, rec c b = Some r → rec' c b = Some r) →
  (otherwise = Some r → otherwise' = Some r) →
  try_val rec cls a var val otherwise = Some r →
  try_val rec' cls a var val otherwise' = Some r.
Proof.
  intros Hrec Hother. unfold try_val.
  destruct (commit _ _ cls) as [new|]; [|done].
  destruct (rec new _) as [r1|] eqn:Hr1; [|done].
  rewrite (Hrec _ _ _ Hr1). by destruct r1 as [[?|]|].
Qed.

Lemma dpll_mono (fuel fuel' : nat) (cls : list (gset Z)) (a : list Z) (lc : gmap Z Z)
    (num_vars : Z) (r : result (option (list Z))) :
  (fuel ≤ fuel')%nat →
  dpll fuel cls a lc num_vars = Some r → dpll fuel' cls a lc num_vars = Some r.
Proof.
  revert fuel' cls a r. induction fuel as [|fuel IH]; intros fuel' cls a r Hle; [done|].
  destruct fuel' as [|fuel']; [lia|]. rewrite !dpll_unfold.
  destruct (propagate (S fuel) cls a _) as [r0|] eqn:Hprop; [|done].
  rewrite (propagate_mono _ (S fuel') _ _ _ _ Hle Hprop).
  destruct r0 as [[[cls' a']|]|]; [|done..].
  destruct cls' as [|cl cls']; [done|].
  destruct (unassigned_vars a' num_vars) as [[|u us]|]; [done| |done].
  cbv zeta. apply try_val_mono; [intros c b r1; apply IH; lia|].
  apply try_val_mono; [intros c b r1; apply IH; lia|done].
Qed.

Lemma solve_cnf_mono (fuel fuel' : nat) (clauses : list (list Z)) (num_vars : Z)
    (r : result (status * option (list (list Z)))) :
  (fuel ≤ fuel')%nat →
  solve_cnf fuel clauses num_vars = Some r → solve_cnf fuel' clauses num_vars = Some r.
Proof.
  intros Hle. unfold solve_cnf, run_dpll.
  destruct (dpll fuel _ _ _ _) as [r0|] eqn:Hdpll; [|done].
  by rewrite (dpll_mono _ fuel' _ _ _ _ _ Hle Hdpll).
Qed.

End dpll_correct.

(** ** The solver as a whole *)

Section solve_cnf_correct.
Import solver.

Lemma sat_all_satisfiable (v : nat → Z) (clauses : list (list Z)) :
  sat_all v (list_to_set <$> clauses) → satisfiable clauses.
Proof.
  intros Hall. exists (λ i, bool_decide (v (Z.to_nat i) = 1)). intros cl Hcl.
  destruct (Hall (list_to_set cl)) as (lit & Hlit%elem_of_list_to_set & Hsat).
  { by apply list_elem_of_fmap_2. }
  exists lit. split; [done|]. unfold sat_lit, lit_val in Hsat. rewrite Hsat.
  by destruct (0 <? lit).
Qed.

Lemma satisfiable_sat_all (clauses : list (list Z)) :
  satisfiable clauses →
  ∃ v, sat_all v (list_to_set <$> clauses).
Proof.
  intros [M HM]. exists (λ i, if M (Z.of_nat i) then 1 else -1).
  intros cl' (cl & -> & Hcl)%list_elem_of_fmap.
  destruct (HM cl Hcl) as (lit & Hlit & Hval).
  exists lit. split; [by apply elem_of_list_to_set|].
  unfold sat_lit, lit_val. rewrite Z2Nat.id by lia. rewrite Hval.
  by destruct (0 <? lit).
Qed.

Lemma agrees_replicate (v : nat → Z) (n : nat) : agrees v (replicate n 0).
Proof. intros i x [-> _]%lookup_replicate Hx. done. Qed.

Lemma run_dpll_sound (fuel : nat) (clauses : list (list Z)) (num_vars : Z) (model : list Z) :
  run_dpll fuel clauses num_vars = Some (Ret (Some model)) →
  length model = Z.to_nat (num_vars + 1)
  ∧ (∀ i, 1 ≤ i ≤ num_vars →
          model !! Z.to_nat i = Some 1 ∨ model !! Z.to_nat i = Some (-1))
  ∧ (∀ cl, cl ∈ clauses →
       ∃ lit, lit ∈ cl ∧ model !! Z.to_nat (Z.abs lit) = Some (lit_val lit)).
Proof.
  unfold run_dpll.
  intros (Hok & Hlen & _ & Hall & Htotal)%dpll_sound; [|apply assignment_ok_replicate].
  rewrite length_replicate in Hlen. split_and!; [done|done|].
  intros cl Hcl.
  destruct (Hall (list_to_set cl)) as (lit & Hlit%elem_of_list_to_set & Hsat).
  { by apply list_elem_of_fmap_2. }
  exists lit. split; [done|]. unfold sat_lit, val_of in Hsat.
  pose proof (lit_val_nonzero lit).
  destruct (model !! Z.to_nat (Z.abs lit)) as [x|]; simpl in Hsat; [by subst|done].
Qed.

(** [dpll] decides every well-formed instance, given enough fuel. *)
Lemma run_dpll_decides (fuel : nat) (clauses : list (list Z)) (num_vars : Z) :
  well_formed clauses num_vars →
  ((Z.to_nat (num_vars + 1) + 1) * (length clauses + 2) ≤ fuel)%nat →
  (satisfiable clauses ∧ ∃ model, run_dpll fuel clauses num_vars = Some (Ret (Some model)))
  ∨ (¬ satisfiable clauses ∧ run_dpll fuel clauses num_vars = Some (Ret None)).
Proof.
  intros Hwf Hfuel. unfold run_dpll.
  destruct (dpll_complete fuel (list_to_set <$> clauses)
              (replicate (Z.to_nat (num_vars + 1)) 0)
              (counter (list_to_set <$> clauses)) num_vars) as (r & Hr & Hnone).
  - apply assignment_ok_replicate.
  - apply length_replicate.
  - intros cl' lit (cl & -> & Hcl)%list_elem_of_fmap Hlit%elem_of_list_to_set.
    destruct (Hwf cl lit Hcl Hlit) as [? ?]. split; [done|].
    apply lookup_replicate_2. lia.
  - unfold enough_fuel. by rewrite zeros_replicate, length_fmap.
  - destruct r as [model|].
    + left. split; [|by exists model].
      apply dpll_sound in Hr as (_ & _ & _ & Hall & _); [|apply assignment_ok_replicate].
      by eapply sat_all_satisfiable.
    + right. split; [|done]. intros [v Hv]%satisfiable_sat_all.
      by apply (Hnone eq_refl v (agrees_replicate v _)).
Qed.

(** *** The decoding does not raise on instances of at most 729 variables *)

Lemma decode_loop_Ret (indices : list Z) (model : list Z) (grid : list (list Z)) :
  (∀ i, i ∈ indices → 1 ≤ i ≤ 729 ∧ (Z.to_nat i < length model)%nat) →
  length grid = 9%nat → Forall (λ row, length row = 9%nat) grid →
  ∃ grid', decode_loop indices model grid = Ret grid'.
Proof.
  revert grid. induction indices as [|i indices IH]; intros grid Hin Hlen Hrows; simpl; [eauto|].
  destruct (Hin i) as [Hi Hlook]; [left|].
  assert (∀ j, j ∈ indices → 1 ≤ j ≤ 729 ∧ (Z.to_nat j < length model)%nat) as Hin'
    by (intros j Hj; apply Hin; by right).
  unfold py_index at 1.
  destruct (lookup_lt_is_Some_2 model _ Hlook) as [val ->].
  destruct (val =? 1); [|by apply IH].
  assert (0 ≤ (i - 1) `div` 81 < 9) as Hrow by (clear -Hi; Z.div_mod_to_equations; lia).
  assert (0 ≤ ((i - 1) `mod` 81) `div` 9 < 9) as Hcol
    by (clear -Hi; Z.div_mod_to_equations; lia).
  unfold py_index.
  destruct (lookup_lt_is_Some_2 grid (Z.to_nat ((i - 1) `div` 81))) as [grid_row Hgr]; [lia|].
  rewrite Hgr.
  assert (length grid_row = 9%nat) as Hlr by (by eapply Forall_lookup_1 in Hrows).
  destruct (lookup_lt_is_Some_2 grid_row (Z.to_nat (((i - 1) `mod` 81) `div` 9)))
    as [old ->]; [lia|].
  apply IH; [done|by rewrite length_insert|].
  apply Forall_insert; [done|]. by rewrite length_insert.
Qed.

Lemma decode_Ret (model : list Z) (num_vars : Z) :
  length model = Z.to_nat (num_vars + 1) → num_vars ≤ 729 →
  ∃ grid, decode model num_vars = Ret grid.
Proof.
  intros Hlen Hnv. unfold decode. apply decode_loop_Ret.
  - intros i Hi%elem_of_py_range. lia.
  - done.
  - by repeat constructor.
Qed.

(** X9.  [solve_cnf] decides every well-formed instance of at most 729
    variables, given enough fuel: it returns ["SAT"] with a grid when the
    clause list is satisfiable and [("UNSAT", None)] when it is not, and
    raises no exception. *)
Lemma solve_cnf_decides_up_to_729 (fuel : nat) (clauses : list (list Z)) (num_vars : Z) :
  well_formed clauses num_vars → num_vars ≤ 729 →
  ((Z.to_nat (num_vars + 1) + 1) * (length clauses + 2) ≤ fuel)%nat →
  (satisfiable clauses
   ∧ ∃ grid, solve_cnf fuel clauses num_vars = Some (Ret (SAT, Some grid)))
  ∨ (¬ satisfiable clauses
     ∧ solve_cnf fuel clauses num_vars = Some (Ret (UNSAT, None))).
Proof.
  intros Hwf Hnv Hfuel. unfold solve_cnf.
  destruct (run_dpll_decides fuel clauses num_vars Hwf Hfuel)
    as [[Hsat [model Hrun]]|[Hunsat Hrun]]; rewrite Hrun.
  - left. split; [done|].
    destruct (run_dpll_sound _ _ _ _ Hrun) as (Hlen & _ & _).
    destruct (decode_Ret model num_vars Hlen Hnv) as [grid ->]. by exists grid.
  - by right.
Qed.

(** C1.  Whenever [solve_cnf] returns ["SAT"], the model of [dpll] that it
    decodes has an entry for each of [0..num_vars], the entries of
    [1..num_vars] are all 1 (true) or -1 (false), none 0 (unassigned), and
    every clause of the instance has a literal [lit] that the model makes
    true: the entry of [abs(lit)] is 1 for a positive and -1 for a negative
    literal. *)
Theorem solve_cnf_sound (fuel : nat) (clauses : list (list Z)) (num_vars : Z)
    (answer : option (list (list Z))) :
  solve_cnf fuel clauses num_vars = Some (Ret (SAT, answer)) →
  ∃ model,
    run_dpll fuel clauses num_vars = Some (Ret (Some model))
    ∧ length model = Z.to_nat (num_vars + 1)
    ∧ (∀ i, 1 ≤ i ≤ num_vars →
            model !! Z.to_nat i = Some 1 ∨ model !! Z.to_nat i = Some (-1))
    ∧ (∀ cl, cl ∈ clauses →
         ∃ lit, lit ∈ cl
                ∧ model !! Z.to_nat (Z.abs lit) = Some (if 0 <? lit then 1 else -1)).
Proof.
  intros (model & grid & Hrun & _ & _)%solve_cnf_SAT_inv.
  exists model. split; [done|]. by apply run_dpll_sound in Hrun.
Qed.

Lemma solve_cnf_sound_witness :
  ∃ answer model,
    solve_cnf 10 [[1; 2]; [-1; 2]; [-2; 3]] 3 = Some (Ret (SAT, answer))
    ∧ run_dpll 10 [[1; 2]; [-1; 2]; [-2; 3]] 3 = Some (Ret (Some model))
    ∧ (∀ cl, cl ∈ [[1; 2]; [-1; 2]; [-2; 3]] →
         ∃ lit, lit ∈ cl
                ∧ model !! Z.to_nat (Z.abs lit) = Some (if 0 <? lit then 1 else -1)).
Proof.
  assert (∃ answer, solve_cnf 10 [[1; 2]; [-1; 2]; [-2; 3]] 3 = Some (Ret (SAT, answer)))
    as [answer Hrun] by (eexists; vm_compute; reflexivity).
  destruct (solve_cnf_sound 10 [[1; 2]; [-1; 2]; [-2; 3]] 3 answer Hrun)
    as (model & Hdpll & _ & _ & Hsat).
  exists answer, model. split; [exact Hrun|]. split; [exact Hdpll|exact Hsat].
Defined.

(** C2.  On the satisfiable, well-formed instance with the single clause
    [[730]] over 730 variables [dpll] finds a model, and the decoding in
    [solve_cnf] then indexes row 9 of its nine-row grid: whatever the fuel
    (two units are enough), [solve_cnf] raises [IndexError] and returns no
    verdict. *)
Theorem solve_cnf_raises_beyond_729 (extra_fuel : nat) :
  well_formed [[730]] 730
  ∧ satisfiable [[730]]
  ∧ (∃ model, run_dpll (2 + extra_fuel) [[730]] 730 = Some (Ret (Some model))
              ∧ model !! 730%nat = Some 1)
  ∧ solve_cnf (2 + extra_fuel) [[730]] 730 = Some (Raise IndexError).
Proof.
  split_and!.
  - intros cl lit ->%list_elem_of_singleton ->%list_elem_of_singleton. lia.
  - exists (λ _, true). intros cl ->%list_elem_of_singleton.
    exists 730. split; [by left|done].
  - assert (∃ model, run_dpll 2 [[730]] 730 = Some (Ret (Some model))
                     ∧ model !! 730%nat = Some 1) as (model & Hrun & Hlook)
      by (eexists; split; [vm_compute; reflexivity|reflexivity]).
    exists model. split; [|done]. unfold run_dpll in *.
    apply (dpll_mono 2); [lia|exact Hrun].
  - apply (solve_cnf_mono 2); [lia|]. vm_compute. reflexivity.
Qed.

End solve_cnf_correct.

(** ** What the clause families say *)

Section families_meaning.
Import solving_encoder.

Lemma at_least_one_holds {A : Type} (M : Z → bool) (f : A → Z) (l : list A) :
  (∀ x, x ∈ l → 0 < f x) →
  clause_holds M (f <$> l) → ∃ x, x ∈ l ∧ M (f x) = true.
Proof.
  intros Hpos (lit & (x & -> & Hx)%list_elem_of_fmap & Hlit).
  exists x. split; [done|]. unfold lit_holds in Hlit. specialize (Hpos x Hx).
  rewrite Z.abs_eq in Hlit by lia. rewrite Hlit. by apply Z.ltb_lt.
Qed.

Lemma at_most_one_holds (M : Z → bool) (x y : Z) :
  0 < x → 0 < y → clause_holds M [- x; - y] → ¬ (M x = true ∧ M y = true).
Proof.
  intros Hx Hy (lit & Hin & Hlit) [Mx My]. unfold lit_holds in Hlit.
  apply elem_of_cons in Hin as [->|Hin%list_elem_of_singleton]; [|subst lit];
    rewrite Z.abs_opp, Z.abs_eq in Hlit by lia.
  - rewrite Mx in Hlit. symmetry in Hlit. apply Z.ltb_lt in Hlit. lia.
  - rewrite My in Hlit. symmetry in Hlit. apply Z.ltb_lt in Hlit. lia.
Qed.

Lemma var_positive (N r c v : Z) : 0 ≤ N → 0 ≤ r → 0 ≤ c → 1 ≤ v → 0 < var N r c v.
Proof. unfold var. intros. nia. Qed.

(** The pattern of every family: one clause over the literals [g k] for
    [k] in [lo, hi) and one binary clause for each pair [k1 < k2]. *)
Lemma exactly_one_holds (M : Z → bool) (g : Z → Z) (lo hi : Z) :
  (∀ k, lo ≤ k < hi → 0 < g k) →
  clause_holds M (g <$> py_range lo hi) →
  (∀ k1 k2, lo ≤ k1 → k1 < k2 → k2 < hi → clause_holds M [- g k1; - g k2]) →
  ∃ k, lo ≤ k < hi ∧ M (g k) = true
       ∧ ∀ k', lo ≤ k' < hi → M (g k') = true → k' = k.
Proof.
  intros Hpos Halo Hamo.
  apply at_least_one_holds in Halo as (k & Hk%elem_of_py_range & Mk).
  2:{ intros k Hk%elem_of_py_range. by apply Hpos. }
  exists k. split_and!; [lia|lia|done|].
  intros k' Hk' Mk'. destruct (Z.lt_trichotomy k' k) as [Hlt|[->|Hgt]]; [|done|].
  - exfalso. apply (at_most_one_holds M (g k') (g k)); [apply Hpos; lia..| |done].
    apply Hamo; lia.
  - exfalso. apply (at_most_one_holds M (g k) (g k')); [apply Hpos; lia..| |done].
    apply Hamo; lia.
Qed.

Lemma solving_row_family (text : list (list token)) (cls : list (list Z)) (nv r v : Z) :
  let N := Z.of_nat (length text) in
  solving_encoder.to_cnf text = Ret (cls, nv) →
  0 ≤ r < N → 1 ≤ v ≤ N →
  (λ c, var N r c v) <$> py_range 0 N ∈ cls
  ∧ (∀ c1 c2, 0 ≤ c1 → c1 < c2 → c2 < N → [- var N r c1 v; - var N r c2 v] ∈ cls).
Proof.
  intros N (boxes & clues & _ & _ & -> & _)%solving_to_cnf_inv Hr Hv. fold N.
  assert (∀ cl, cl ∈ ((λ c, var N r c v) <$> py_range 0 N)
                       :: (c1 ← py_range 0 N; c2 ← py_range (c1 + 1) N;
                           [[- var N r c1 v; - var N r c2 v]])
                → cl ∈ row_clauses N) as Hrow.
  { intros cl Hcl. unfold row_clauses.
    apply list_elem_of_bind. exists r. split; [|apply elem_of_py_range; lia].
    apply list_elem_of_bind. exists v. split; [|apply elem_of_py_range; lia]. done. }
  split.
  - rewrite !elem_of_app. right; left. apply Hrow. left.
  - intros c1 c2 H1 H12 H2. rewrite !elem_of_app. right; left. apply Hrow. right.
    apply list_elem_of_bind. exists c1. split; [|apply elem_of_py_range; lia].
    apply list_elem_of_bind. exists c2. split; [|apply elem_of_py_range; lia]. by left.
Qed.

Lemma solving_col_family (text : list (list token)) (cls : list (list Z)) (nv c v : Z) :
  let N := Z.of_nat (length text) in
  solving_encoder.to_cnf text = Ret (cls, nv) →
  0 ≤ c < N → 1 ≤ v ≤ N →
  (λ r, var N r c v) <$> py_range 0 N ∈ cls
  ∧ (∀ r1 r2, 0 ≤ r1 → r1 < r2 → r2 < N → [- var N r1 c v; - var N r2 c v] ∈ cls).
Proof.
  intros N (boxes & clues & _ & _ & -> & _)%solving_to_cnf_inv Hc Hv. fold N.
  assert (∀ cl, cl ∈ ((λ r, var N r c v) <$> py_range 0 N)
                       :: (r1 ← py_range 0 N; r2 ← py_range (r1 + 1) N;
                           [[- var N r1 c v; - var N r2 c v]])
                → cl ∈ col_clauses N) as Hcol.
  { intros cl Hcl. unfold col_clauses.
    apply list_elem_of_bind. exists c. split; [|apply elem_of_py_range; lia].
    apply list_elem_of_bind. exists v. split; [|apply elem_of_py_range; lia]. done. }
  split.
  - rewrite !elem_of_app. do 2 right; left. apply Hcol. left.
  - intros r1 r2 H1 H12 H2. rewrite !elem_of_app. do 2 right; left. apply Hcol. right.
    apply list_elem_of_bind. exists r1. split; [|apply elem_of_py_range; lia].
    apply list_elem_of_bind. exists r2. split; [|apply elem_of_py_range; lia]. by left.
Qed.

(** Of the variables of a cell exactly one is true in a model. *)
Lemma cell_exactly_one (text : list (list token)) (cls : list (list Z)) (nv : Z)
    (M : Z → bool) (r c : Z) :
  let N := Z.of_nat (length text) in
  solving_encoder.to_cnf text = Ret (cls, nv) → models M cls →
  0 ≤ r < N → 0 ≤ c < N →
  ∃ v, 1 ≤ v ≤ N ∧ M (var N r c v) = true
       ∧ ∀ v', 1 ≤ v' ≤ N → M (var N r c v') = true → v' = v.
Proof.
  intros N Hcnf HM Hr Hc.
  destruct (solving_cell_family text cls nv r c Hcnf Hr Hc) as (Halo & _ & Hamo & _).
  fold N in Halo, Hamo.
  destruct (exactly_one_holds M (λ v, var N r c v) 1 (N + 1)) as (v & Hv & Mv & Huniq).
  - intros v Hv. apply var_positive; lia.
  - apply HM. by replace (py_range 1 (N + 1)) with (seqZ 1 N)
      by (unfold py_range; f_equal; lia).
  - intros v1 v2 ???. apply HM, Hamo; lia.
  - exists v. split_and!; [lia|lia|done|]. intros v' Hv'. apply Huniq. lia.
Qed.

(** X1.  In every truth assignment that satisfies the clauses of [to_cnf],
    each cell [(r, c)] of the grid has exactly one digit [v] in [1..N]
    whose variable [var(r,c,v)] is true. *)
Theorem cell_family_meaning (text : list (list token)) (cls : list (list Z)) (nv : Z)
    (M : Z → bool) (r c : Z) :
  let N := Z.of_nat (length text) in
  solving_encoder.to_cnf text = Ret (cls, nv) → models M cls →
  0 ≤ r < N → 0 ≤ c < N →
  ∃ v, 1 ≤ v ≤ N ∧ M (var N r c v) = true
       ∧ ∀ v', 1 ≤ v' ≤ N → M (var N r c v') = true → v' = v.
Proof. exact (cell_exactly_one text cls nv M r c). Qed.

(** A model puts each digit in exactly one column of each row. *)
Lemma row_exactly_one (text : list (list token)) (cls : list (list Z)) (nv : Z)
    (M : Z → bool) (r v : Z) :
  let N := Z.of_nat (length text) in
  solving_encoder.to_cnf text = Ret (cls, nv) → models M cls →
  0 ≤ r < N → 1 ≤ v ≤ N →
  ∃ c, 0 ≤ c < N ∧ M (var N r c v) = true
       ∧ ∀ c', 0 ≤ c' < N → M (var N r c' v) = true → c' = c.
Proof.
  intros N Hcnf HM Hr Hv.
  destruct (solving_row_family text cls nv r v Hcnf Hr Hv) as (Halo & Hamo).
  fold N in Halo, Hamo.
  apply (exactly_one_holds M (λ c, var N r c v) 0 N).
  - intros c Hc. apply var_positive; lia.
  - by apply HM.
  - intros c1 c2 ???. by apply HM, Hamo.
Qed.

(** X2.  In every truth assignment that satisfies the clauses of [to_cnf],
    each digit [v] is in exactly one column of each row [r]: exactly one
    [c] in [0..N-1] has [var(r,c,v)] true. *)
Theorem row_family_meaning (text : list (list token)) (cls : list (list Z)) (nv : Z)
    (M : Z → bool) (r v : Z) :
  let N := Z.of_nat (length text) in
  solving_encoder.to_cnf text = Ret (cls, nv) → models M cls →
  0 ≤ r < N → 1 ≤ v ≤ N →
  ∃ c, 0 ≤ c < N ∧ M (var N r c v) = true
       ∧ ∀ c', 0 ≤ c' < N → M (var N r c' v) = true → c' = c.
Proof. exact (row_exactly_one text cls nv M r v). Qed.

(** A model puts each digit in exactly one row of each column. *)
Lemma col_exactly_one (text : list (list token)) (cls : list (list Z)) (nv : Z)
    (M : Z → bool) (c v : Z) :
  let N := Z.of_nat (length text) in
  solving_encoder.to_cnf text = Ret (cls, nv) → models M cls →
  0 ≤ c < N → 1 ≤ v ≤ N →
  ∃ r, 0 ≤ r < N ∧ M (var N r c v) = true
       ∧ ∀ r', 0 ≤ r' < N → M (var N r' c v) = true → r' = r.
Proof.
  intros N Hcnf HM Hc Hv.
  destruct (solving_col_family text cls nv c v Hcnf Hc Hv) as (Halo & Hamo).
  fold N in Halo, Hamo.
  apply (exactly_one_holds M (λ r, var N r c v) 0 N).
  - intros r Hr. apply var_positive; lia.
  - by apply HM.
  - intros r1 r2 ???. by apply HM, Hamo.
Qed.

(** X3.  In every truth assignment that satisfies the clauses of [to_cnf],
    each digit [v] is in exactly one row of each column [c]: exactly one
    [r] in [0..N-1] has [var(r,c,v)] true. *)
Theorem col_family_meaning (text : list (list token)) (cls : list (list Z)) (nv : Z)
    (M : Z → bool) (c v : Z) :
  let N := Z.of_nat (length text) in
  solving_encoder.to_cnf text = Ret (cls, nv) → models M cls →
  0 ≤ c < N → 1 ≤ v ≤ N →
  ∃ r, 0 ≤ r < N ∧ M (var N r c v) = true
       ∧ ∀ r', 0 ≤ r' < N → M (var N r' c v) = true → r' = r.
Proof. exact (col_exactly_one text cls nv M c v). Qed.


(** *** Boxes *)

Lemma py_range_step_square (B : Z) :
  0 < B → py_range_step 0 (B * B) B = Ret ((λ k, 0 + k * B) <$> seqZ 0 B).
Proof.
  intros HB. unfold py_range_step.
  destruct (Z.eqb_spec B 0); [lia|]. destruct (Z.ltb_spec 0 B); [|lia].
  do 3 f_equal. symmetry. apply (Z.div_unique _ _ _ (B - 1)); lia.
Qed.

Lemma bind_fmap_comm {A B C : Type} (h : B → C) (g : A → list B) (l : list A) :
  l ≫= (λ x, h <$> g x) = h <$> (l ≫= g).
Proof.
  induction l as [|x l IH]; [done|]. csimpl. by rewrite IH, fmap_app.
Qed.

(** The cells of a box, in the order of the two loops, are the cells
    [(r_box + k / B, c_box + k mod B)] for [k = 0, ..., B² - 1]. *)
Lemma box_vars_list (N B r_box c_box v : Z) :
  0 < B →
  (i ← py_range 0 B; j ← py_range 0 B; [var N (r_box + i) (c_box + j) v])
  = (λ k, var N (r_box + k `div` B) (c_box + k `mod` B) v) <$> py_range 0 (B * B).
Proof.
  intros HB. unfold py_range. rewrite !Z.sub_0_r.
  set (h := λ k, var N (r_box + k `div` B) (c_box + k `mod` B) v).
  assert (∀ i, 0 ≤ i →
               (seqZ 0 B ≫= λ j, [var N (r_box + i) (c_box + j) v])
               = h <$> seqZ (0 + i * B) B) as Hinner.
  { intros i Hi.
    replace (seqZ (0 + i * B) B) with (Z.add (0 + i * B) <$> seqZ 0 B)
      by (rewrite fmap_add_seqZ; f_equal; lia).
    rewrite <- list_fmap_compose.
    assert (∀ l : list Z, Forall (λ j, 0 ≤ j < B) l →
              (l ≫= λ j, [var N (r_box + i) (c_box + j) v])
              = (h ∘ Z.add (0 + i * B)) <$> l) as Hl.
    { induction 1 as [|j l Hj _ IH]; [done|]. csimpl. rewrite IH. f_equal.
      unfold h. rewrite Z.add_0_l.
      replace ((i * B + j) `div` B) with i
        by (apply (Z.div_unique _ _ _ j); lia).
      replace ((i * B + j) `mod` B) with j
        by (apply (Z.mod_unique _ _ i); lia).
      done. }
    apply Hl, Forall_seqZ. lia. }
  erewrite (Forall_bind_ext _ (λ i, h <$> seqZ (0 + i * B) B)).
  2:{ apply Forall_seqZ. intros i Hi. apply Hinner. lia. }
  rewrite (bind_fmap_comm h (λ i, seqZ (0 + i * B) B)).
  rewrite <- (Z2Nat.id B) at 1 by lia.
  rewrite bind_seqZ_blocks by lia. by rewrite Z2Nat.id by lia.
Qed.

Lemma solving_box_family (text : list (list token)) (cls : list (list Z))
    (nv B br bc v : Z) :
  let N := Z.of_nat (length text) in
  let g := λ k, var N (br * B + k `div` B) (bc * B + k `mod` B) v in
  solving_encoder.to_cnf text = Ret (cls, nv) →
  0 < B → N = B * B →
  0 ≤ br < B → 0 ≤ bc < B → 1 ≤ v ≤ N →
  g <$> py_range 0 N ∈ cls
  ∧ (∀ k1 k2, 0 ≤ k1 → k1 < k2 → k2 < N → [- g k1; - g k2] ∈ cls).
Proof.
  intros N g (boxes & clues & Hboxes & _ & -> & _)%solving_to_cnf_inv HB HN Hbr Hbc Hv.
  fold N in Hboxes. subst g. cbv beta.
  assert (int_sqrt N = B) as HsB by (rewrite HN; apply Z.sqrt_square; lia).
  rewrite HsB in Hboxes. unfold box_clauses in Hboxes.
  assert (py_range_step 0 N B = Ret ((λ k, 0 + k * B) <$> seqZ 0 B)) as Hstep
    by (rewrite HN; by apply py_range_step_square).
  rewrite Hstep in Hboxes.
  cbn in Hboxes. injection Hboxes as Hboxes.
  set (g := λ k, var N (br * B + k `div` B) (bc * B + k `mod` B) v).
  assert (∀ cl, cl ∈ (g <$> py_range 0 N)
                       :: (i1 ← py_range 0 N; i2 ← py_range (i1 + 1) N;
                           [[- g i1; - g i2]])
                → cl ∈ cell_clauses N ++ row_clauses N ++ col_clauses N
                       ++ boxes ++ adjacency_clauses N ++ clues) as Hbox.
  { intros cl Hcl. rewrite !elem_of_app. do 3 right; left. rewrite <- Hboxes.
    apply list_elem_of_bind. exists (0 + br * B).
    split; [|apply list_elem_of_fmap; exists br; split; [done|apply elem_of_seqZ; lia]].
    apply list_elem_of_bind. exists (0 + bc * B).
    split; [|apply list_elem_of_fmap; exists bc; split; [done|apply elem_of_seqZ; lia]].
    apply list_elem_of_bind. exists v. split; [|apply elem_of_py_range; lia].
    cbv zeta. rewrite (box_vars_list N B (0 + br * B) (0 + bc * B) v HB).
    rewrite !Z.add_0_l, <- HN. fold g.
    rewrite length_fmap, length_py_range, Z2Nat.id by lia. rewrite Z.sub_0_r.
    apply elem_of_cons in Hcl as [->|Hcl]; [left|right].
    apply list_elem_of_bind in Hcl as (i1 & Hcl & Hi1).
    apply list_elem_of_bind in Hcl as (i2 & ->%list_elem_of_singleton & Hi2).
    apply list_elem_of_bind. exists i1. split; [|done].
    apply list_elem_of_bind. exists i2. split; [|done].
    apply elem_of_py_range in Hi1, Hi2.
    assert (∀ k, 0 ≤ k < N → (g <$> py_range 0 N) !!! Z.to_nat k = g k) as Hlook.
    { intros k Hk. rewrite !list_lookup_total_alt, list_lookup_fmap.
      unfold py_range. rewrite lookup_seqZ_lt by lia. simpl. f_equal. lia. }
    rewrite !Hlook by lia. by left. }
  split.
  - apply Hbox. left.
  - intros k1 k2 H1 H12 H2. apply Hbox. right.
    apply list_elem_of_bind. exists k1. split; [|apply elem_of_py_range; lia].
    apply list_elem_of_bind. exists k2. split; [|apply elem_of_py_range; lia]. by left.
Qed.

(** A model puts each digit in exactly one cell of each box. *)
Lemma box_exactly_one (text : list (list token)) (cls : list (list Z)) (nv : Z)
    (M : Z → bool) (B br bc v : Z) :
  let N := Z.of_nat (length text) in
  solving_encoder.to_cnf text = Ret (cls, nv) → models M cls →
  0 < B → N = B * B →
  0 ≤ br < B → 0 ≤ bc < B → 1 ≤ v ≤ N →
  ∃ i j, 0 ≤ i < B ∧ 0 ≤ j < B ∧ M (var N (br * B + i) (bc * B + j) v) = true
         ∧ ∀ i' j', 0 ≤ i' < B → 0 ≤ j' < B →
                    M (var N (br * B + i') (bc * B + j') v) = true → i' = i ∧ j' = j.
Proof.
  intros N Hcnf HM HB HN Hbr Hbc Hv.
  destruct (solving_box_family text cls nv B br bc v Hcnf HB HN Hbr Hbc Hv) as (Halo & Hamo).
  fold N in Halo, Hamo.
  destruct (exactly_one_holds M
              (λ k, var N (br * B + k `div` B) (bc * B + k `mod` B) v) 0 N)
    as (k & Hk & Mk & Huniq).
  - intros k Hk. apply var_positive; [lia| | |lia].
    + pose proof (Z.div_pos k B). nia.
    + pose proof (Z.mod_pos_bound k B). nia.
  - by apply HM.
  - intros k1 k2 ???. by apply HM, Hamo.
  - cbv beta in Mk, Huniq.
    exists (k `div` B), (k `mod` B).
    assert (0 ≤ k `div` B < B) by (split; [apply Z.div_pos; lia|apply Z.div_lt_upper_bound; lia]).
    pose proof (Z.mod_pos_bound k B HB).
    split_and!; [lia..|done|].
    intros i' j' Hi' Hj' Mij.
    assert (i' * B + j' = k) as <-.
    { apply Huniq; [nia|].
      replace ((i' * B + j') `div` B) with i'
        by (apply (Z.div_unique _ _ _ j'); lia).
      replace ((i' * B + j') `mod` B) with j'
        by (apply (Z.mod_unique _ _ i'); lia).
      done. }
    split.
    + apply (Z.div_unique _ _ _ j'); lia.
    + apply (Z.mod_unique _ _ i'); lia.
Qed.

(** X4.  When the grid size is a square [N = B²], every truth assignment
    that satisfies the clauses of [to_cnf] puts each digit [v] in exactly
    one cell of each [B]×[B] box. *)
Theorem box_family_meaning (text : list (list token)) (cls : list (list Z)) (nv : Z)
    (M : Z → bool) (B br bc v : Z) :
  let N := Z.of_nat (length text) in
  solving_encoder.to_cnf text = Ret (cls, nv) → models M cls →
  0 < B → N = B * B →
  0 ≤ br < B → 0 ≤ bc < B → 1 ≤ v ≤ N →
  ∃ i j, 0 ≤ i < B ∧ 0 ≤ j < B ∧ M (var N (br * B + i) (bc * B + j) v) = true
         ∧ ∀ i' j', 0 ≤ i' < B → 0 ≤ j' < B →
                    M (var N (br * B + i') (bc * B + j') v) = true → i' = i ∧ j' = j.
Proof. exact (box_exactly_one text cls nv M B br bc v). Qed.


(** A model gives no two consecutive digits to a cell and its right or
    down neighbour. *)
Lemma adjacent_not_consecutive (text : list (list token)) (cls : list (list Z)) (nv : Z)
    (M : Z → bool) (r c r' c' v v' : Z) :
  let N := Z.of_nat (length text) in
  solving_encoder.to_cnf text = Ret (cls, nv) → models M cls →
  0 ≤ r < N → 0 ≤ c < N → right_or_down r c r' c' → r' < N → c' < N →
  1 ≤ v ≤ N → 1 ≤ v' ≤ N →
  M (var N r c v) = true → M (var N r' c' v') = true →
  ¬ consecutive v v'.
Proof.
  intros N (boxes & clues & _ & _ & -> & _)%solving_to_cnf_inv HM Hr Hc Hrd Hr' Hc' Hv Hv'
    Mv Mv' Hcons. fold N in HM.
  assert (0 ≤ r' ∧ 0 ≤ c') as [??] by (unfold right_or_down in Hrd; lia).
  apply (at_most_one_holds M (var N r c v) (var N r' c' v')); [apply var_positive; lia..| |done].
  apply HM. rewrite !elem_of_app. do 4 right; left.
  apply elem_of_adjacency_clauses. by exists r, c, v, r', c', v'.
Qed.

(** X5.  In every truth assignment that satisfies the clauses of [to_cnf],
    a cell and its right or down neighbour never hold consecutive digits:
    if [var(r,c,v)] and [var(r',c',v')] are both true then [v'] is neither
    [v + 1] nor [v - 1]. *)
Theorem adjacency_family_meaning (text : list (list token)) (cls : list (list Z)) (nv : Z)
    (M : Z → bool) (r c r' c' v v' : Z) :
  let N := Z.of_nat (length text) in
  solving_encoder.to_cnf text = Ret (cls, nv) → models M cls →
  0 ≤ r < N → 0 ≤ c < N → right_or_down r c r' c' → r' < N → c' < N →
  1 ≤ v ≤ N → 1 ≤ v' ≤ N →
  M (var N r c v) = true → M (var N r' c' v') = true →
  ¬ consecutive v v'.
Proof. exact (adjacent_not_consecutive text cls nv M r c r' c' v v'). Qed.

(** A model makes the variable of every positive clue true. *)
Lemma clue_forced (text : list (list token)) (cls : list (list Z)) (nv : Z)
    (M : Z → bool) (r c z : Z) (row : list token) :
  let N := Z.of_nat (length text) in
  solving_encoder.to_cnf text = Ret (cls, nv) → models M cls →
  0 ≤ r < N → 0 ≤ c < N →
  text !! Z.to_nat r = Some row → row !! Z.to_nat c = Some (TInt z) → 0 < z →
  M (var N r c z) = true.
Proof.
  intros N (boxes & clues & _ & Hclues & -> & _)%solving_to_cnf_inv HM Hr Hc Hrow Htok Hz.
  fold N in HM, Hclues.
  destruct (HM [var N r c z]) as (lit & ->%list_elem_of_singleton & Hlit).
  { rewrite !elem_of_app. do 5 right. by eapply clue_emitted. }
  unfold lit_holds in Hlit.
  assert (0 < var N r c z) by (apply var_positive; lia).
  rewrite Z.abs_eq in Hlit by lia. rewrite Hlit. by apply Z.ltb_lt.
Qed.

(** X6.  In every truth assignment that satisfies the clauses of [to_cnf],
    the variable [var(r,c,z)] of every positive clue [z] read at a cell
    [(r, c)] of the file is true. *)
Theorem clue_family_meaning (text : list (list token)) (cls : list (list Z)) (nv : Z)
    (M : Z → bool) (r c z : Z) (row : list token) :
  let N := Z.of_nat (length text) in
  solving_encoder.to_cnf text = Ret (cls, nv) → models M cls →
  0 ≤ r < N → 0 ≤ c < N →
  text !! Z.to_nat r = Some row → row !! Z.to_nat c = Some (TInt z) → 0 < z →
  M (var N r c z) = true.
Proof. exact (clue_forced text cls nv M r c z row). Qed.


(** *** The sample puzzle *)

Lemma models_Forall (M : Z → bool) (cls : list (list Z)) :
  models M cls ↔ Forall (λ cl, Exists (λ lit, M (Z.abs lit) = (0 <? lit)) cl) cls.
Proof.
  unfold models, clause_holds, lit_holds. rewrite Forall_forall.
  by setoid_rewrite Exists_exists.
Qed.

Lemma sample_to_cnf : solving_encoder.to_cnf sample_puzzle = Ret (sample_clauses, 729).
Proof. vm_compute. reflexivity. Qed.

Lemma sample_models : models sample_model sample_clauses.
Proof. apply models_Forall, (bool_decide_unpack _). vm_compute. exact I. Qed.

Lemma cell_family_meaning_witness :
  ∃ v, 1 ≤ v ≤ 9 ∧ sample_model (var 9 4 7 v) = true
       ∧ ∀ v', 1 ≤ v' ≤ 9 → sample_model (var 9 4 7 v') = true → v' = v.
Proof.
  apply (cell_family_meaning sample_puzzle sample_clauses 729 sample_model 4 7
           sample_to_cnf sample_models); simpl; lia.
Defined.

Lemma row_family_meaning_witness :
  ∃ c, 0 ≤ c < 9 ∧ sample_model (var 9 4 c 6) = true
       ∧ ∀ c', 0 ≤ c' < 9 → sample_model (var 9 4 c' 6) = true → c' = c.
Proof.
  apply (row_family_meaning sample_puzzle sample_clauses 729 sample_model 4 6
           sample_to_cnf sample_models); simpl; lia.
Defined.

Lemma col_family_meaning_witness :
  ∃ r, 0 ≤ r < 9 ∧ sample_model (var 9 r 7 6) = true
       ∧ ∀ r', 0 ≤ r' < 9 → sample_model (var 9 r' 7 6) = true → r' = r.
Proof.
  apply (col_family_meaning sample_puzzle sample_clauses 729 sample_model 7 6
           sample_to_cnf sample_models); simpl; lia.
Defined.

Lemma box_family_meaning_witness :
  ∃ i j, 0 ≤ i < 3 ∧ 0 ≤ j < 3 ∧ sample_model (var 9 (1 * 3 + i) (2 * 3 + j) 6) = true
         ∧ ∀ i' j', 0 ≤ i' < 3 → 0 ≤ j' < 3 →
                    sample_model (var 9 (1 * 3 + i') (2 * 3 + j') 6) = true →
                    i' = i ∧ j' = j.
Proof.
  apply (box_family_meaning sample_puzzle sample_clauses 729 sample_model 3 1 2 6
           sample_to_cnf sample_models); simpl; lia.
Defined.

Lemma adjacency_family_meaning_witness :
  right_or_down 4 7 4 8
  ∧ sample_model (var 9 4 7 9) = true ∧ sample_model (var 9 4 8 7) = true
  ∧ ¬ consecutive 9 7.
Proof.
  assert (right_or_down 4 7 4 8) as Hrd by (left; lia).
  assert (sample_model (var 9 4 7 9) = true) as M1 by reflexivity.
  assert (sample_model (var 9 4 8 7) = true) as M2 by reflexivity.
  split; [exact Hrd|]. split; [exact M1|]. split; [exact M2|].
  apply (adjacency_family_meaning sample_puzzle sample_clauses 729 sample_model
           4 7 4 8 9 7 sample_to_cnf sample_models); simpl; try lia; assumption.
Defined.

Lemma clue_family_meaning_witness : sample_model (var 9 0 2 5) = true.
Proof.
  apply (clue_family_meaning sample_puzzle sample_clauses 729 sample_model 0 2 5
           (TInt <$> [1; 3; 5; 2; 4; 7; 9; 6; 8]) sample_to_cnf sample_models);
    simpl; try lia; reflexivity.
Defined.

End families_meaning.

Section encoding_completeness.
Import solving_encoder.

Lemma grid_model_var (N : Z) (sol : Z → Z → Z) (r c v : Z) :
  0 ≤ r < N → 0 ≤ c < N → 1 ≤ v ≤ N →
  grid_model N sol (var N r c v) = bool_decide (sol r c = v).
Proof.
  intros Hr Hc Hv. unfold grid_model.
  pose proof (var_bounds N r c v Hr Hc Hv) as Hb.
  destruct (var_inverse N (var N r c v) Hb) as (Hr' & Hc' & Hv' & Hvar).
  destruct (var_injective N _ _ _ r c v Hr' Hc' Hv' Hr Hc Hv Hvar) as (-> & -> & Ev).
  apply bool_decide_ext. split; [intros [_ ?]; lia|]. intros ?. split; [done|lia].
Qed.

Lemma positive_lit_holds (N : Z) (sol : Z → Z → Z) (r c v : Z) :
  0 ≤ r < N → 0 ≤ c < N → 1 ≤ v ≤ N → sol r c = v →
  lit_holds (grid_model N sol) (var N r c v).
Proof.
  intros Hr Hc Hv Hsol. unfold lit_holds.
  pose proof (var_bounds N r c v Hr Hc Hv).
  rewrite Z.abs_eq by lia. rewrite grid_model_var by done.
  rewrite bool_decide_eq_true_2 by done. symmetry. apply Z.ltb_lt. lia.
Qed.

Lemma negative_lit_holds (N : Z) (sol : Z → Z → Z) (r c v : Z) :
  0 ≤ r < N → 0 ≤ c < N → 1 ≤ v ≤ N → sol r c ≠ v →
  lit_holds (grid_model N sol) (- var N r c v).
Proof.
  intros Hr Hc Hv Hsol. unfold lit_holds.
  pose proof (var_bounds N r c v Hr Hc Hv).
  rewrite Z.abs_opp, Z.abs_eq by lia. rewrite grid_model_var by done.
  rewrite bool_decide_eq_false_2 by done. symmetry. apply Z.ltb_ge. lia.
Qed.

(** A binary clause over two variables that the grid does not make true
    together. *)
Lemma pair_clause_holds (N : Z) (sol : Z → Z → Z) (r1 c1 v1 r2 c2 v2 : Z) :
  0 ≤ r1 < N → 0 ≤ c1 < N → 1 ≤ v1 ≤ N →
  0 ≤ r2 < N → 0 ≤ c2 < N → 1 ≤ v2 ≤ N →
  ¬ (sol r1 c1 = v1 ∧ sol r2 c2 = v2) →
  clause_holds (grid_model N sol) [- var N r1 c1 v1; - var N r2 c2 v2].
Proof.
  intros ?????? Hnot. destruct (decide (sol r1 c1 = v1)) as [Heq|Hne].
  - exists (- var N r2 c2 v2). split; [by right; left|].
    apply negative_lit_holds; try done. intros Heq2. by apply Hnot.
  - exists (- var N r1 c1 v1). split; [by left|]. by apply negative_lit_holds.
Qed.


Lemma clue_cell_inv (N : Z) (text : list (list token)) (r c : Z) (zs : list (list Z))
    (cl : list Z) :
  clue_cell N text (r, c) = Ret zs → cl ∈ zs →
  ∃ row z, text !! Z.to_nat r = Some row ∧ row !! Z.to_nat c = Some (TInt z)
           ∧ 0 < z ∧ cl = [var N r c z].
Proof.
  unfold clue_cell, py_index.
  destruct (text !! Z.to_nat r) as [row|] eqn:Hrow; [|done]. cbn.
  destruct (row !! Z.to_nat c) as [[z|]|] eqn:Htok; [|done..]. cbn.
  intros [= <-] Hcl. destruct (Z.ltb_spec 0 z); [|by apply elem_of_nil in Hcl].
  apply list_elem_of_singleton in Hcl as ->. by exists row, z.
Qed.

(** The truth assignment of a solved grid that keeps the clues satisfies
    every clause. *)
Lemma grid_models_clauses (text : list (list token)) (cls : list (list Z)) (nv B : Z)
    (sol : Z → Z → Z) :
  let N := Z.of_nat (length text) in
  solving_encoder.to_cnf text = Ret (cls, nv) →
  0 < B → N = B * B →
  digits_in_range N sol → once_in_row N sol → once_in_col N sol → once_in_box N B sol →
  non_consecutive N sol → keeps_clues N text sol →
  models (grid_model N sol) cls.
Proof.
  intros N (boxes & clues & Hboxes & Hclues & -> & _)%solving_to_cnf_inv HB HN
    Hdig Hrow Hcol Hbox Hadj Hclue cl. fold N in Hboxes, Hclues. fold N.
  rewrite !elem_of_app. intros [Hcl|[Hcl|[Hcl|[Hcl|[Hcl|Hcl]]]]].
  - (* cells *)
    unfold cell_clauses in Hcl.
    apply list_elem_of_bind in Hcl as (r & Hcl & Hr%elem_of_py_range).
    apply list_elem_of_bind in Hcl as (c & Hcl & Hc%elem_of_py_range).
    apply elem_of_cons in Hcl as [->|Hcl].
    + exists (var N r c (sol r c)). split.
      * apply list_elem_of_fmap. exists (sol r c). split; [done|].
        apply elem_of_py_range. specialize (Hdig r c Hr Hc). lia.
      * apply positive_lit_holds; auto.
    + apply list_elem_of_bind in Hcl as (v1 & Hcl & Hv1%elem_of_py_range).
      apply list_elem_of_bind in Hcl as (v2 & ->%list_elem_of_singleton & Hv2%elem_of_py_range).
      apply pair_clause_holds; [lia..|]. lia.
  - (* rows *)
    unfold row_clauses in Hcl.
    apply list_elem_of_bind in Hcl as (r & Hcl & Hr%elem_of_py_range).
    apply list_elem_of_bind in Hcl as (v & Hcl & Hv%elem_of_py_range).
    destruct (Hrow r v) as (c & Hc & Hsol & Huniq); [lia..|].
    apply elem_of_cons in Hcl as [->|Hcl].
    + exists (var N r c v). split.
      * apply list_elem_of_fmap. exists c. split; [done|]. by apply elem_of_py_range.
      * apply positive_lit_holds; auto; lia.
    + apply list_elem_of_bind in Hcl as (c1 & Hcl & Hc1%elem_of_py_range).
      apply list_elem_of_bind in Hcl as (c2 & ->%list_elem_of_singleton & Hc2%elem_of_py_range).
      apply pair_clause_holds; [lia..|]. intros [E1 E2].
      apply Huniq in E1, E2; lia.
  - (* columns *)
    unfold col_clauses in Hcl.
    apply list_elem_of_bind in Hcl as (c & Hcl & Hc%elem_of_py_range).
    apply list_elem_of_bind in Hcl as (v & Hcl & Hv%elem_of_py_range).
    destruct (Hcol c v) as (r & Hr & Hsol & Huniq); [lia..|].
    apply elem_of_cons in Hcl as [->|Hcl].
    + exists (var N r c v). split.
      * apply list_elem_of_fmap. exists r. split; [done|]. by apply elem_of_py_range.
      * apply positive_lit_holds; auto; lia.
    + apply list_elem_of_bind in Hcl as (r1 & Hcl & Hr1%elem_of_py_range).
      apply list_elem_of_bind in Hcl as (r2 & ->%list_elem_of_singleton & Hr2%elem_of_py_range).
      apply pair_clause_holds; [lia..|]. intros [E1 E2].
      apply Huniq in E1, E2; lia.
  - (* boxes *)
    assert (int_sqrt N = B) as HsB by (rewrite HN; apply Z.sqrt_square; lia).
    rewrite HsB in Hboxes. unfold box_clauses in Hboxes.
    assert (py_range_step 0 N B = Ret ((λ k, 0 + k * B) <$> seqZ 0 B)) as Hstep
      by (rewrite HN; by apply py_range_step_square).
    rewrite Hstep in Hboxes. cbn in Hboxes. injection Hboxes as Hboxes.
    rewrite <- Hboxes in Hcl.
    apply list_elem_of_bind in Hcl as (r_box & Hcl & (br & -> & Hbr%elem_of_seqZ)%list_elem_of_fmap).
    apply list_elem_of_bind in Hcl as (c_box & Hcl & (bc & -> & Hbc%elem_of_seqZ)%list_elem_of_fmap).
    apply list_elem_of_bind in Hcl as (v & Hcl & Hv%elem_of_py_range).
    cbv zeta in Hcl. rewrite (box_vars_list N B _ _ v HB) in Hcl.
    rewrite !Z.add_0_l, <- HN in Hcl.
    set (g := λ k, var N (br * B + k `div` B) (bc * B + k `mod` B) v) in Hcl.
    rewrite length_fmap, length_py_range, Z2Nat.id in Hcl by lia.
    rewrite Z.sub_0_r in Hcl.
    assert (∀ k, 0 ≤ k < N → (g <$> py_range 0 N) !!! Z.to_nat k = g k) as Hlook.
    { intros k Hk. rewrite !list_lookup_total_alt, list_lookup_fmap.
      unfold py_range. rewrite lookup_seqZ_lt by lia. simpl. f_equal. lia. }
    assert (∀ k, 0 ≤ k < N → 0 ≤ k `div` B < B ∧ 0 ≤ k `mod` B < B) as Hkb.
    { intros k Hk. split; [|by apply Z.mod_pos_bound].
      split; [apply Z.div_pos; lia|apply Z.div_lt_upper_bound; lia]. }
    destruct (Hbox br bc v) as (i & j & Hi & Hj & Hsol & Huniq); [lia..|].
    apply elem_of_cons in Hcl as [->|Hcl].
    + exists (g (i * B + j)). split.
      * apply list_elem_of_fmap. exists (i * B + j). split; [done|].
        apply elem_of_py_range. nia.
      * unfold g.
        replace ((i * B + j) `div` B) with i by (apply (Z.div_unique _ _ _ j); lia).
        replace ((i * B + j) `mod` B) with j by (apply (Z.mod_unique _ _ i); lia).
        apply positive_lit_holds; auto; nia.
    + apply list_elem_of_bind in Hcl as (k1 & Hcl & Hk1%elem_of_py_range).
      apply list_elem_of_bind in Hcl as (k2 & ->%list_elem_of_singleton & Hk2%elem_of_py_range).
      rewrite !Hlook by lia. unfold g.
      destruct (Hkb k1) as [??]; [lia|]. destruct (Hkb k2) as [??]; [lia|].
      apply pair_clause_holds; [nia..|]. intros [E1 E2].
      apply Huniq in E1 as [E1 E1']; [|lia..]. apply Huniq in E2 as [E2 E2']; [|lia..].
      pose proof (Z.div_mod k1 B). pose proof (Z.div_mod k2 B). nia.
  - (* adjacency *)
    apply elem_of_adjacency_clauses in Hcl
      as (r & c & v & r' & c' & v' & Hr & Hc & Hv & Hrd & Hr' & Hc' & Hcons & Hv' & ->).
    assert (0 ≤ r' ∧ 0 ≤ c') as [??] by (unfold right_or_down in Hrd; lia).
    apply pair_clause_holds; [lia..|]. intros [E1 E2].
    apply (Hadj r c r' c'); try done. by rewrite E1, E2.
  - (* clues *)
    destruct (collect_elem_of _ _ _ _ Hclues Hcl) as ([r c] & zs & Hrc & Hz & Hin).
    apply list_elem_of_bind in Hrc as (r0 & Hrc & Hr%elem_of_py_range).
    apply list_elem_of_bind in Hrc as (c0 & [= <- <-]%list_elem_of_singleton & Hc%elem_of_py_range).
    destruct (clue_cell_inv _ _ _ _ _ _ Hz Hin) as (row & z & Htrow & Htok & Hz0 & ->).
    exists (var N r c z). split; [by left|].
    pose proof (Hclue r c row z Hr Hc Htrow Htok Hz0) as Hsol.
    pose proof (Hdig r c Hr Hc).
    apply positive_lit_holds; auto; lia.
Qed.

(** X7.  The encoding loses no solution: when the grid size is a square
    [N = B²], every filled grid with digits in [1..N], each digit once in
    every row, column and box, no consecutive digits in neighbouring cells
    and the positive clues of the file kept, gives a truth assignment
    ([var(r,c,v)] true exactly when the grid holds [v] at [(r, c)]) that
    satisfies every clause [to_cnf] returns. *)
Theorem encoding_complete (text : list (list token)) (cls : list (list Z)) (nv B : Z)
    (sol : Z → Z → Z) :
  let N := Z.of_nat (length text) in
  solving_encoder.to_cnf text = Ret (cls, nv) →
  0 < B → N = B * B →
  digits_in_range N sol → once_in_row N sol → once_in_col N sol → once_in_box N B sol →
  non_consecutive N sol → keeps_clues N text sol →
  models (grid_model N sol) cls.
Proof. exact (grid_models_clauses text cls nv B sol). Qed.


(** *** The sample grid is a solved non-consecutive Sudoku *)

Lemma range_Forall (P : Z → Prop) (lo hi : Z) :
  Forall P (py_range lo hi) → ∀ k, lo ≤ k < hi → P k.
Proof. rewrite Forall_forall. intros H k Hk. by apply H, elem_of_py_range. Qed.

Lemma range_Exists (P : Z → Prop) (lo hi : Z) :
  Exists P (py_range lo hi) → ∃ k, lo ≤ k < hi ∧ P k.
Proof.
  rewrite Exists_exists. intros (k & Hk%elem_of_py_range & HP). by exists k.
Qed.

Lemma sample_digits : digits_in_range 9 sample_sol.
Proof.
  assert (Forall (λ r, Forall (λ c, 1 ≤ sample_sol r c ≤ 9) (py_range 0 9)) (py_range 0 9))
    as H by (apply (bool_decide_unpack _); vm_compute; exact I).
  intros r c Hr Hc. by apply (range_Forall _ _ _ (range_Forall _ _ _ H r Hr)).
Qed.

Lemma sample_rows : once_in_row 9 sample_sol.
Proof.
  assert (Forall (λ r, Forall (λ v,
            Exists (λ c, sample_sol r c = v
                         ∧ Forall (λ c', sample_sol r c' = v → c' = c) (py_range 0 9))
                   (py_range 0 9)) (py_range 1 10)) (py_range 0 9))
    as H by (apply (bool_decide_unpack _); vm_compute; exact I).
  intros r v Hr Hv.
  destruct (range_Exists _ _ _ (range_Forall _ _ _ (range_Forall _ _ _ H r Hr) v ltac:(lia)))
    as (c & Hc & Hsol & Huniq).
  exists c. split_and!; [lia..|done|]. intros c' Hc'. by apply (range_Forall _ _ _ Huniq).
Qed.

Lemma sample_cols : once_in_col 9 sample_sol.
Proof.
  assert (Forall (λ c, Forall (λ v,
            Exists (λ r, sample_sol r c = v
                         ∧ Forall (λ r', sample_sol r' c = v → r' = r) (py_range 0 9))
                   (py_range 0 9)) (py_range 1 10)) (py_range 0 9))
    as H by (apply (bool_decide_unpack _); vm_compute; exact I).
  intros c v Hc Hv.
  destruct (range_Exists _ _ _ (range_Forall _ _ _ (range_Forall _ _ _ H c Hc) v ltac:(lia)))
    as (r & Hr & Hsol & Huniq).
  exists r. split_and!; [lia..|done|]. intros r' Hr'. by apply (range_Forall _ _ _ Huniq).
Qed.

Lemma sample_boxes : once_in_box 9 3 sample_sol.
Proof.
  assert (Forall (λ br, Forall (λ bc, Forall (λ v,
            Exists (λ i, Exists (λ j,
              sample_sol (br * 3 + i) (bc * 3 + j) = v
              ∧ Forall (λ i', Forall (λ j',
                  sample_sol (br * 3 + i') (bc * 3 + j') = v → i' = i ∧ j' = j)
                  (py_range 0 3)) (py_range 0 3))
              (py_range 0 3)) (py_range 0 3))
            (py_range 1 10)) (py_range 0 3)) (py_range 0 3))
    as H by (apply (bool_decide_unpack _); vm_compute; exact I).
  intros br bc v Hbr Hbc Hv.
  pose proof (range_Forall _ _ _ (range_Forall _ _ _ (range_Forall _ _ _ H br Hbr) bc Hbc)
                v ltac:(lia)) as Hv'.
  apply range_Exists in Hv' as (i & Hi & Hj').
  apply range_Exists in Hj' as (j & Hj & Hsol & Huniq).
  exists i, j. split_and!; [lia..|done|]. intros i' j' Hi' Hj''.
  by apply (range_Forall _ _ _ (range_Forall _ _ _ Huniq i' Hi')).
Qed.

Lemma sample_non_consecutive : non_consecutive 9 sample_sol.
Proof.
  assert (Forall (λ r, Forall (λ c,
            (c + 1 < 9 → sample_sol r (c + 1) ≠ sample_sol r c + 1
                         ∧ sample_sol r (c + 1) ≠ sample_sol r c - 1)
            ∧ (r + 1 < 9 → sample_sol (r + 1) c ≠ sample_sol r c + 1
                           ∧ sample_sol (r + 1) c ≠ sample_sol r c - 1))
            (py_range 0 9)) (py_range 0 9))
    as H by (apply (bool_decide_unpack _); vm_compute; exact I).
  intros r c r' c' Hr Hc Hrd Hr' Hc' Hcons.
  destruct (range_Forall _ _ _ (range_Forall _ _ _ H r Hr) c Hc) as [Hright Hdown].
  unfold consecutive in Hcons.
  destruct Hrd as [[-> ->]|[-> ->]]; [destruct (Hright Hc')|destruct (Hdown Hr')]; lia.
Qed.

Lemma sample_keeps_clues : keeps_clues 9 sample_puzzle sample_sol.
Proof.
  intros r c row z Hr Hc Hrow Htok Hz.
  assert (Z.to_nat r < 9)%nat as Hlt by (by apply lookup_lt_Some in Hrow).
  destruct (decide (r = 0)) as [->|Hr0].
  - injection Hrow as <-.
    assert (Z.to_nat c < 9)%nat as Hltc by (by apply lookup_lt_Some in Htok).
    assert (Forall (λ c, ∀ z, (TInt <$> [1; 3; 5; 2; 4; 7; 9; 6; 8]) !! Z.to_nat c = Some (TInt z)
                              → sample_sol 0 c = z) (py_range 0 9)) as H.
    { repeat constructor; intros z' [= <-]; reflexivity. }
    apply (range_Forall _ _ _ H c); [lia|done].
  - exfalso. change sample_puzzle with
      ((TInt <$> [1; 3; 5; 2; 4; 7; 9; 6; 8]) :: replicate 8 (replicate 9 (TInt 0))) in Hrow.
    destruct (Z.to_nat r) as [|n] eqn:En; [lia|].
    change (replicate 8 (replicate 9 (TInt 0)) !! n = Some row) in Hrow.
    apply lookup_replicate in Hrow as [-> _].
    apply lookup_replicate in Htok as [[= ->] _]. lia.
Qed.

Lemma encoding_complete_witness : models (grid_model 9 sample_sol) sample_clauses.
Proof.
  apply (encoding_complete sample_puzzle sample_clauses 729 3 sample_sol sample_to_cnf);
    [lia|reflexivity|exact sample_digits|exact sample_rows|exact sample_cols
    |exact sample_boxes|exact sample_non_consecutive|exact sample_keeps_clues].
Defined.

End encoding_completeness.

(** ** More on the solver ([src/solver.py]) *)

Section solver_more.
Import solver.

(** X8.  [dpll] terminates and is complete on well-formed instances, for
    any number of variables: when every literal is non-zero and within
    [-num_vars..num_vars], a recursion depth of
    [(num_vars + 2) * (len(clauses) + 2)] is enough for [dpll] to return
    without an exception, and it returns a model exactly when the clause
    list is satisfiable. *)
Theorem dpll_decides_well_formed (fuel : nat) (clauses : list (list Z)) (num_vars : Z) :
  well_formed clauses num_vars →
  ((Z.to_nat (num_vars + 1) + 1) * (length clauses + 2) ≤ fuel)%nat →
  ∃ r, run_dpll fuel clauses num_vars = Some (Ret r)
       ∧ (satisfiable clauses ↔ ∃ model, r = Some model).
Proof.
  intros Hwf Hfuel.
  destruct (run_dpll_decides fuel clauses num_vars Hwf Hfuel)
    as [[Hsat [model Hrun]]|[Hunsat Hrun]].
  - exists (Some model). split; [done|]. split; [by exists model|done].
  - exists None. split; [done|]. split; [done|]. by intros [? [=]].
Qed.

Lemma dpll_decides_well_formed_witness :
  ∃ r, run_dpll 24 [[1; 2]; [-1; 2]; [-2; -1]] 2 = Some (Ret r)
       ∧ (satisfiable [[1; 2]; [-1; 2]; [-2; -1]] ↔ ∃ model, r = Some model).
Proof.
  apply (dpll_decides_well_formed 24 [[1; 2]; [-1; 2]; [-2; -1]] 2).
  - intros cl lit Hcl Hlit.
    repeat (apply elem_of_cons in Hcl as [->|Hcl]);
      [..|by apply elem_of_nil in Hcl];
      repeat (apply elem_of_cons in Hlit as [->|Hlit]);
      try (by apply elem_of_nil in Hlit); lia.
  - simpl. lia.
Defined.

Lemma solve_cnf_decides_up_to_729_witness :
  (satisfiable [[1; 2]; [-1; 2]; [-2; -1]]
   ∧ ∃ grid, solve_cnf 24 [[1; 2]; [-1; 2]; [-2; -1]] 2 = Some (Ret (SAT, Some grid)))
  ∨ (¬ satisfiable [[1; 2]; [-1; 2]; [-2; -1]]
     ∧ solve_cnf 24 [[1; 2]; [-1; 2]; [-2; -1]] 2 = Some (Ret (UNSAT, None))).
Proof.
  apply (solve_cnf_decides_up_to_729 24 [[1; 2]; [-1; 2]; [-2; -1]] 2).
  - intros cl lit Hcl Hlit.
    repeat (apply elem_of_cons in Hcl as [->|Hcl]);
      [..|by apply elem_of_nil in Hcl];
      repeat (apply elem_of_cons in Hlit as [->|Hlit]);
      try (by apply elem_of_nil in Hlit); lia.
  - lia.
  - simpl. lia.
Defined.

(** *** The decoding loop *)

Lemma decode_loop_app (l1 l2 : list Z) (model : list Z) (grid : list (list Z)) :
  decode_loop (l1 ++ l2) model grid
  = match decode_loop l1 model grid with
    | Ret grid1 => decode_loop l2 model grid1
    | Raise e => Raise e
    end.
Proof.
  revert grid. induction l1 as [|i l1 IH]; intros grid; simpl; [done|].
  destruct (py_index model i) as [val|]; [|done].
  destruct (val =? 1); [|apply IH].
  destruct (py_index grid _) as [grid_row|]; [|done].
  destruct (py_index grid_row _); [apply IH|done].
Qed.

(** The loop raises exactly when a variable above 729 is true, and then it
    is [IndexError]. *)
Lemma decode_loop_outcome (indices : list Z) (model : list Z) (grid : list (list Z)) :
  (∀ i, i ∈ indices → 1 ≤ i ∧ (Z.to_nat i < length model)%nat) →
  length grid = 9%nat → Forall (λ row, length row = 9%nat) grid →
  match decode_loop indices model grid with
  | Ret _ => ∀ i, i ∈ indices → model !! Z.to_nat i = Some 1 → i ≤ 729
  | Raise e => e = IndexError ∧ ∃ i, i ∈ indices ∧ model !! Z.to_nat i = Some 1 ∧ 729 < i
  end.
Proof.
  revert grid. induction indices as [|i indices IH]; intros grid Hin Hlen Hrows; simpl.
  { by intros ? ?%elem_of_nil. }
  destruct (Hin i) as [Hi Hlook]; [left|].
  assert (∀ j, j ∈ indices → 1 ≤ j ∧ (Z.to_nat j < length model)%nat) as Hin'
    by (intros j Hj; apply Hin; by right).
  unfold py_index at 1.
  destruct (lookup_lt_is_Some_2 model _ Hlook) as [val Hval]. rewrite Hval.
  destruct (Z.eqb_spec val 1) as [->|Hne].
  - destruct (decide (i ≤ 729)) as [Hle|Hgt].
    + assert (0 ≤ (i - 1) `div` 81 < 9) as Hrow by (clear -Hi Hle; Z.div_mod_to_equations; lia).
      assert (0 ≤ ((i - 1) `mod` 81) `div` 9 < 9) as Hcol
        by (clear -Hi; Z.div_mod_to_equations; lia).
      unfold py_index.
      destruct (lookup_lt_is_Some_2 grid (Z.to_nat ((i - 1) `div` 81))) as [grid_row Hgr]; [lia|].
      rewrite Hgr.
      assert (length grid_row = 9%nat) as Hlr by (by eapply Forall_lookup_1 in Hrows).
      destruct (lookup_lt_is_Some_2 grid_row (Z.to_nat (((i - 1) `mod` 81) `div` 9)))
        as [old ->]; [lia|].
      specialize (IH (<[Z.to_nat ((i - 1) `div` 81) :=
                        <[Z.to_nat (((i - 1) `mod` 81) `div` 9) := (i - 1) `mod` 9 + 1]>
                          grid_row]> grid) Hin').
      destruct (decode_loop indices model _) as [g'|e].
      * intros j [->|Hj]%elem_of_cons; [done|]. apply IH; [by rewrite length_insert| |done].
        apply Forall_insert; [done|]. by rewrite length_insert.
      * destruct IH as (-> & j & ? & ? & ?); [by rewrite length_insert| |].
        { apply Forall_insert; [done|]. by rewrite length_insert. }
        split; [done|]. exists j. split; [by right|done].
    + assert (9 ≤ (i - 1) `div` 81) as Hrow by (clear -Hgt; Z.div_mod_to_equations; lia).
      unfold py_index. rewrite lookup_ge_None_2 by lia.
      split; [done|]. exists i. split; [left|]. split; [done|lia].
  - specialize (IH grid Hin' Hlen Hrows).
    destruct (decode_loop indices model grid) as [g'|e].
    + intros j [->|Hj]%elem_of_cons; [congruence|by apply IH].
    + destruct IH as (-> & j & ? & ? & ?). split; [done|]. exists j. split; [by right|done].
Qed.

(** X10.  The decoding loop of [solve_cnf], run on a model with an entry
    for each of [0..num_vars], raises [IndexError] exactly when some
    variable of index 730 or more is true in the model, and returns a grid
    exactly when there is none. *)
Theorem decode_raises_iff (model : list Z) (num_vars : Z) :
  length model = Z.to_nat (num_vars + 1) →
  (decode model num_vars = Raise IndexError
   ↔ ∃ i, 730 ≤ i ≤ num_vars ∧ model !! Z.to_nat i = Some 1)
  ∧ ((∃ grid, decode model num_vars = Ret grid)
     ↔ ∀ i, 730 ≤ i ≤ num_vars → model !! Z.to_nat i ≠ Some 1).
Proof.
  intros Hlen. unfold decode.
  pose proof (decode_loop_outcome (py_range 1 (num_vars + 1)) model
                (replicate 9 (replicate 9 0))) as H.
  destruct (decode_loop _ model _) as [grid|e].
  - assert (∀ i, 730 ≤ i ≤ num_vars → model !! Z.to_nat i ≠ Some 1) as Hnone.
    { intros i Hi Htrue. assert (i ≤ 729); [|lia].
      apply H; [|done| |apply elem_of_py_range; lia|done].
      + intros j Hj%elem_of_py_range. lia.
      + by repeat constructor. }
    split; split; [done| |done|by exists grid].
    intros (i & Hi & Htrue). by destruct (Hnone i Hi).
  - destruct H as (-> & i & Hi%elem_of_py_range & Htrue & Hgt); [|done| |].
    { intros j Hj%elem_of_py_range. lia. }
    { by repeat constructor. }
    split; split; [intros _|done|by intros [? [=]]|].
    + exists i. split; [lia|done].
    + intros Hnone. destruct (Hnone i); [lia|done].
Qed.

Lemma decode_raises_iff_witness :
  (decode [0; -1; 1] 2 = Raise IndexError
   ↔ ∃ i, 730 ≤ i ≤ 2 ∧ [0; -1; 1] !! Z.to_nat i = Some 1)
  ∧ ((∃ grid, decode [0; -1; 1] 2 = Ret grid)
     ↔ ∀ i, 730 ≤ i ≤ 2 → [0; -1; 1] !! Z.to_nat i ≠ Some 1).
Proof. apply (decode_raises_iff [0; -1; 1] 2). reflexivity. Defined.


Lemma grid_cell_insert_eq (grid : list (list Z)) (grid_row : list Z) (r c digit : Z) :
  grid !! Z.to_nat r = Some grid_row →
  (Z.to_nat c < length grid_row)%nat →
  grid_cell (<[Z.to_nat r := <[Z.to_nat c := digit]> grid_row]> grid) r c = Some digit.
Proof.
  intros Hrow Hc. unfold grid_cell.
  rewrite list_lookup_insert_eq by (by eapply lookup_lt_Some). simpl.
  by apply list_lookup_insert_eq.
Qed.

(** The cell of the decoded grid holds the digit of the largest true
    variable of the cell. *)
Lemma decode_largest_true (model : list Z) (num_vars : Z) (grid : list (list Z))
    (r c v : Z) :
  decode model num_vars = Ret grid →
  0 ≤ r < 9 → 0 ≤ c < 9 → 1 ≤ v ≤ 9 →
  81 * r + 9 * c + v ≤ num_vars →
  model !! Z.to_nat (81 * r + 9 * c + v) = Some 1 →
  (∀ v', v < v' ≤ 9 → 81 * r + 9 * c + v' ≤ num_vars →
         model !! Z.to_nat (81 * r + 9 * c + v') ≠ Some 1) →
  grid_cell grid r c = Some v.
Proof.
  unfold decode. intros Hdec Hr Hc Hv Hle Htrue Hlast.
  set (i := 81 * r + 9 * c + v) in *.
  assert (py_range 1 (num_vars + 1) = py_range 1 i ++ [i] ++ py_range (i + 1) (num_vars + 1))
    as Hsplit.
  { unfold py_range. replace (num_vars + 1 - 1) with ((i - 1) + (1 + (num_vars - i))) by lia.
    rewrite seqZ_app by lia. f_equal. replace (1 + (i - 1)) with i by lia.
    rewrite seqZ_cons by lia. f_equal. f_equal; lia. }
  rewrite Hsplit, decode_loop_app in Hdec.
  destruct (decode_loop (py_range 1 i) model _) as [grid1|] eqn:H1; [|done].
  rewrite decode_loop_app in Hdec. simpl in Hdec.
  unfold py_index in Hdec at 1. rewrite Htrue in Hdec. simpl in Hdec.
  assert ((i - 1) `div` 81 = r) as Er by (subst i; clear -Hr Hc Hv; Z.div_mod_to_equations; lia).
  assert (((i - 1) `mod` 81) `div` 9 = c) as Ec
    by (subst i; clear -Hr Hc Hv; Z.div_mod_to_equations; lia).
  assert ((i - 1) `mod` 9 + 1 = v) as Ev
    by (subst i; clear -Hr Hc Hv; Z.div_mod_to_equations; lia).
  rewrite Er, Ec, Ev in Hdec. unfold py_index in Hdec.
  destruct (grid1 !! Z.to_nat r) as [grid_row|] eqn:Hrow; [|done].
  destruct (grid_row !! Z.to_nat c) as [old|] eqn:Hold; [|done].
  rewrite (decode_loop_untouched _ _ _ _ r c ltac:(lia) ltac:(lia) Hdec).
  - apply grid_cell_insert_eq; [done|]. by eapply lookup_lt_Some.
  - intros j Hj%elem_of_py_range. lia.
  - intros j Hj%elem_of_py_range Hjtrue [= Hjr Hjc].
    apply (Hlast ((j - 1) `mod` 9 + 1)).
    + split; [|pose proof (Z.mod_pos_bound (j - 1) 9); lia].
      subst i. clear -Hj Hjr Hjc Hr Hc Hv. Z.div_mod_to_equations. lia.
    + replace (81 * r + 9 * c + ((j - 1) `mod` 9 + 1)) with j; [lia|].
      clear -Hjr Hjc. Z.div_mod_to_equations. lia.
    + replace (81 * r + 9 * c + ((j - 1) `mod` 9 + 1)) with j; [done|].
      clear -Hjr Hjc. Z.div_mod_to_equations. lia.
Qed.

(** X11.  In the grid that the decoding loop of [solve_cnf] returns, the
    cell [(r, c)] holds the digit [v] when [81r + 9c + v] is the largest
    true variable of that cell: a later true variable of the same cell
    would overwrite the digit. *)
Theorem decode_cell_value (model : list Z) (num_vars : Z) (grid : list (list Z))
    (r c v : Z) :
  decode model num_vars = Ret grid →
  0 ≤ r < 9 → 0 ≤ c < 9 → 1 ≤ v ≤ 9 →
  81 * r + 9 * c + v ≤ num_vars →
  model !! Z.to_nat (81 * r + 9 * c + v) = Some 1 →
  (∀ v', v < v' ≤ 9 → 81 * r + 9 * c + v' ≤ num_vars →
         model !! Z.to_nat (81 * r + 9 * c + v') ≠ Some 1) →
  grid_cell grid r c = Some v.
Proof. exact (decode_largest_true model num_vars grid r c v). Qed.

Lemma decode_cell_value_witness :
  decode [0; -1; 1; -1; 1; -1] 5 = Ret (<[0%nat := <[0%nat := 4]> (replicate 9 0)]>
                                         (replicate 9 (replicate 9 0)))
  ∧ grid_cell (<[0%nat := <[0%nat := 4]> (replicate 9 0)]> (replicate 9 (replicate 9 0))) 0 0
    = Some 4.
Proof.
  assert (decode [0; -1; 1; -1; 1; -1] 5
          = Ret (<[0%nat := <[0%nat := 4]> (replicate 9 0)]> (replicate 9 (replicate 9 0))))
    as Hdec by reflexivity.
  split; [exact Hdec|].
  apply (decode_cell_value [0; -1; 1; -1; 1; -1] 5 _ 0 0 4 Hdec); try lia; [reflexivity|].
  intros v' Hv' Hle. simpl in Hle.
  assert (v' = 5) as -> by lia. discriminate.
Defined.

(** The digits of the decoded grid *)
Lemma decode_loop_digits (indices : list Z) (model : list Z) (grid grid' : list (list Z)) :
  decode_loop indices model grid = Ret grid' →
  Forall (Forall (λ d, 0 ≤ d ≤ 9)) grid → Forall (Forall (λ d, 0 ≤ d ≤ 9)) grid'.
Proof.
  revert grid. induction indices as [|i indices IH]; intros grid; simpl.
  - by intros [= <-].
  - unfold py_index at 1.
    destruct (model !! Z.to_nat i) as [val|]; [|done].
    destruct (val =? 1); [|apply IH].
    unfold py_index.
    destruct (grid !! Z.to_nat ((i - 1) `div` 81)) as [grid_row|] eqn:Hrow; [|done].
    destruct (grid_row !! _) eqn:Hold; [|done].
    intros Hloop Hg. apply (IH _ Hloop).
    apply Forall_insert; [done|]. apply Forall_insert.
    + by eapply Forall_lookup_1 in Hg.
    + pose proof (Z.mod_pos_bound (i - 1) 9). lia.
Qed.

(** X12.  Whatever [solve_cnf] returns without an exception is either
    [("UNSAT", None)] or ["SAT"] with a grid of nine rows of nine entries,
    each entry in [0..9]. *)
Theorem solve_cnf_answer_shape (fuel : nat) (clauses : list (list Z)) (num_vars : Z)
    (st : status) (answer : option (list (list Z))) :
  solve_cnf fuel clauses num_vars = Some (Ret (st, answer)) →
  (st = UNSAT ∧ answer = None)
  ∨ (st = SAT
     ∧ ∃ grid, answer = Some grid ∧ length grid = 9%nat
               ∧ Forall (λ row, length row = 9%nat ∧ Forall (λ d, 0 ≤ d ≤ 9) row) grid).
Proof.
  unfold solve_cnf.
  destruct (run_dpll fuel clauses num_vars) as [[[model|]|]|]; try done.
  - destruct (decode model num_vars) as [grid|] eqn:Hdec; [|done].
    cbn. intros [= <- <-]. right. split; [done|]. exists grid. split; [done|].
    destruct (decode_shape _ _ _ Hdec) as [Hlen Hrows]. split; [done|].
    unfold decode in Hdec. apply decode_loop_digits in Hdec.
    + apply Forall_forall. intros row Hrow. split.
      * by eapply Forall_forall in Hrows.
      * by eapply Forall_forall in Hdec.
    + repeat constructor; lia.
  - intros [= <- <-]. by left.
Qed.

Lemma solve_cnf_answer_shape_witness :
  ∃ st answer,
    solve_cnf 3 [[6]; [-2]] 64 = Some (Ret (st, answer))
    ∧ ((st = UNSAT ∧ answer = None)
       ∨ (st = SAT
          ∧ ∃ grid, answer = Some grid ∧ length grid = 9%nat
                    ∧ Forall (λ row, length row = 9%nat ∧ Forall (λ d, 0 ≤ d ≤ 9) row) grid)).
Proof.
  assert (∃ st answer, solve_cnf 3 [[6]; [-2]] 64 = Some (Ret (st, answer)))
    as (st & answer & Hrun) by (do 2 eexists; vm_compute; reflexivity).
  exists st, answer. split; [exact Hrun|].
  exact (solve_cnf_answer_shape 3 [[6]; [-2]] 64 st answer Hrun).
Defined.

(** *** The literal counts and the branching variable *)

Lemma counter_fold_get (lits : list Z) (m : gmap Z Z) (l : Z) :
  default 0 (foldl (λ m l, <[l := default 0 (m !! l) + 1]> m) m lits !! l)
  = default 0 (m !! l) + Z.of_nat (length (filter (l =.) lits)).
Proof.
  revert m. induction lits as [|x lits IH]; intros m; simpl; [lia|].
  rewrite IH. rewrite filter_cons. destruct (decide (l = x)) as [<-|Hne].
  - rewrite lookup_insert_eq. simpl. lia.
  - rewrite lookup_insert_ne by done. lia.
Qed.

Lemma count_NoDup (lits : list Z) (l : Z) :
  NoDup lits → length (filter (l =.) lits) = if decide (l ∈ lits) then 1%nat else 0%nat.
Proof.
  induction 1 as [|x lits Hx _ IH]; [done|].
  rewrite filter_cons. destruct (decide (l = x)) as [<-|Hne].
  - simpl. rewrite IH. rewrite decide_False by done.
    by rewrite decide_True by left.
  - rewrite IH. destruct (decide (l ∈ lits)) as [Hin|Hnin].
    + by rewrite decide_True by (by right).
    + rewrite decide_False; [done|]. by intros [?|?]%elem_of_cons.
Qed.

(** X13.  The count that [solve_cnf] keeps for a literal is the number of
    clauses the literal occurs in; a literal repeated within one clause is
    counted once, because the clauses are turned into sets first. *)
Theorem counter_counts_clauses (clauses : list (list Z)) (l : Z) :
  counter_get (counter (list_to_set <$> clauses)) l
  = Z.of_nat (length (filter (λ cl, l ∈ cl) clauses)).
Proof.
  assert (length (filter (l =.) ((list_to_set <$> clauses) ≫= λ cl : gset Z, elements cl))
          = length (filter (λ cl, l ∈ cl) clauses)) as Hcount.
  { induction clauses as [|cl clauses IH]; [done|].
    csimpl. rewrite filter_app, length_app, IH, filter_cons.
    rewrite count_NoDup by apply NoDup_elements.
    destruct (decide (l ∈ cl)) as [Hin|Hnin].
    - rewrite decide_True by (by apply elem_of_elements, elem_of_list_to_set). done.
    - rewrite decide_False; [done|]. by intros ?%elem_of_elements%elem_of_list_to_set. }
  unfold counter_get, counter. rewrite counter_fold_get, lookup_empty, Hcount. simpl. lia.
Qed.

(** [max] returns the first of the elements with the largest key. *)
Lemma py_max_by_spec (key : Z → Z) (x : Z) (l : list Z) :
  ∃ l1 l2, x :: l = l1 ++ py_max_by key x l :: l2
           ∧ (∀ y, y ∈ l1 → key y < key (py_max_by key x l))
           ∧ (∀ y, y ∈ l2 → key y ≤ key (py_max_by key x l)).
Proof.
  assert (∀ l l1 m l2,
            (∀ y, y ∈ l1 → key y < key m) → (∀ y, y ∈ l2 → key y ≤ key m) →
            ∃ l1' l2', l1 ++ m :: l2 ++ l = l1' ++ py_max_by key m l :: l2'
                       ∧ (∀ y, y ∈ l1' → key y < key (py_max_by key m l))
                       ∧ (∀ y, y ∈ l2' → key y ≤ key (py_max_by key m l))) as Hgen.
  { clear x l. induction l as [|z l IH]; intros l1 m l2 H1 H2; simpl.
    - exists l1, l2. by rewrite app_nil_r.
    - destruct (Z.ltb_spec (key m) (key z)) as [Hlt|Hge].
      + destruct (IH (l1 ++ m :: l2) z []) as (l1' & l2' & Heq & H1' & H2').
        * intros y [Hy|Hy]%elem_of_app; [specialize (H1 y Hy); lia|].
          apply elem_of_cons in Hy as [Hy|Hy]; [subst y; lia|].
          specialize (H2 y Hy). lia.
        * by intros y ?%elem_of_nil.
        * exists l1', l2'. rewrite <- Heq. simpl. by rewrite <- app_assoc.
      + destruct (IH l1 m (l2 ++ [z])) as (l1' & l2' & Heq & H1' & H2').
        * done.
        * intros y [Hy| ->%list_elem_of_singleton]%elem_of_app; [by apply H2|lia].
        * exists l1', l2'. rewrite <- Heq. by rewrite <- app_assoc. }
  destruct (Hgen l [] x []) as (l1 & l2 & Heq & H1 & H2); try (by intros y ?%elem_of_nil).
  by exists l1, l2.
Qed.

(** A comprehension with a filter keeps the order of its input. *)
Lemma collect_pick_order (f : Z → result (list Z)) (l ys l1 l2 : list Z) (y : Z) :
  (∀ x zs, f x = Ret zs → zs = [x] ∨ zs = []) →
  collect f l = Ret ys → ys = l1 ++ y :: l2 →
  ∃ p1 p2, l = p1 ++ y :: p2 ∧ ∀ z, z ∈ l2 → z ∈ p2.
Proof.
  intros Hpick. revert ys l1. induction l as [|x l IH]; intros ys l1; simpl.
  - intros [= <-] Heq. by destruct l1.
  - destruct (f x) as [zs|] eqn:Hfx; [|done].
    destruct (collect f l) as [ys'|] eqn:Hys'; [|done].
    intros [= <-] Heq. destruct (Hpick x zs Hfx) as [->| ->]; simpl in Heq.
    + destruct l1 as [|x' l1]; simpl in Heq; injection Heq as <- Heq.
      * exists [], l. split; [done|]. intros z Hz. rewrite <- Heq in Hz.
        destruct (collect_elem_of _ _ _ _ Hys' Hz) as (x' & zs' & Hx' & Hfx' & Hin).
        destruct (Hpick x' zs' Hfx') as [->| ->]; [|by apply elem_of_nil in Hin].
        by apply list_elem_of_singleton in Hin as ->.
      * destruct (IH ys' l1 eq_refl Heq) as (p1 & p2 & -> & Hsub).
        by exists (x :: p1), p2.
    + destruct (IH ys' l1 eq_refl Heq) as (p1 & p2 & -> & Hsub).
      by exists (x :: p1), p2.
Qed.

Lemma py_range_order (a b y z : Z) (p1 p2 : list Z) :
  py_range a b = p1 ++ y :: p2 → z ∈ p2 → y < z.
Proof.
  unfold py_range. intros Heq [k Hk]%list_elem_of_lookup.
  assert (seqZ a (b - a) !! length p1 = Some y) as Hy
    by (rewrite Heq; by apply list_lookup_middle).
  assert (seqZ a (b - a) !! (length p1 + S k)%nat = Some z) as Hz
    by (rewrite Heq, lookup_app_r by lia;
        by replace (length p1 + S k - length p1)%nat with (S k) by lia).
  apply lookup_seqZ in Hy as [-> _]. apply lookup_seqZ in Hz as [-> _]. lia.
Qed.

(** X14.  The branching variable of [dpll] is an unassigned variable of
    [1..num_vars] whose score (the count of the variable plus the count of
    its negation) is the largest among the unassigned variables, and it is
    the one of smallest index among those of largest score. *)
Theorem branching_variable (assignment : list Z) (num_vars : Z)
    (literal_counts : gmap Z Z) (u : Z) (us : list Z) :
  let score := λ v, counter_get literal_counts v + counter_get literal_counts (- v) in
  let var := py_max_by score u us in
  unassigned_vars assignment num_vars = Ret (u :: us) →
  (1 ≤ var ≤ num_vars ∧ assignment !! Z.to_nat var = Some 0)
  ∧ ∀ v, 1 ≤ v ≤ num_vars → assignment !! Z.to_nat v = Some 0 →
         score v < score var ∨ (score v = score var ∧ var ≤ v).
Proof.
  intros score var Hus. split.
  - apply (unassigned_vars_spec _ _ _ var Hus). apply py_max_by_elem_of.
  - intros v Hv Hzero.
    assert (v ∈ u :: us) as Hin by (by apply (unassigned_vars_spec _ _ _ v Hus)).
    destruct (py_max_by_spec score u us) as (l1 & l2 & Heq & H1 & H2). fold var in Heq, H1, H2.
    rewrite Heq in Hin.
    apply elem_of_app in Hin as [Hin|[->|Hin]%elem_of_cons].
    + left. by apply H1.
    + right. lia.
    + specialize (H2 v Hin).
      assert (∃ p1 p2, py_range 1 (num_vars + 1) = p1 ++ var :: p2
                       ∧ ∀ z, z ∈ l2 → z ∈ p2) as (p1 & p2 & Hp & Hsub).
      { unfold unassigned_vars in Hus.
        eapply collect_pick_order; [|exact Hus|exact Heq].
        intros x zs. cbv beta. destruct (py_index assignment x) as [w|]; [|done].
        intros [= <-]. destruct (w =? 0); auto. }
      pose proof (py_range_order _ _ var v p1 p2 Hp (Hsub v Hin)). lia.
Qed.

Lemma branching_variable_witness :
  let score := λ v, counter_get (counter (list_to_set <$> [[1; -3]; [3; 4]; [-4; 2]])) v
                    + counter_get (counter (list_to_set <$> [[1; -3]; [3; 4]; [-4; 2]])) (- v) in
  (1 ≤ 3 ≤ 4 ∧ [0; 0; 1; 0; 0] !! Z.to_nat 3 = Some 0)
  ∧ ∀ v, 1 ≤ v ≤ 4 → [0; 0; 1; 0; 0] !! Z.to_nat v = Some 0 →
         score v < score 3 ∨ (score v = score 3 ∧ 3 ≤ v).
Proof.
  exact (branching_variable [0; 0; 1; 0; 0] 4
           (counter (list_to_set <$> [[1; -3]; [3; 4]; [-4; 2]])) 1 [3; 4] eq_refl).
Defined.

End solver_more.

Section pipeline.
Import solving_encoder.

(** Every literal of the output is a variable [var(r,c,v)] of a cell of
    the grid or its negation, with [v] a digit or the clue of the cell. *)
Lemma to_cnf_literal_inv (text : list (list token)) (cls : list (list Z)) (nv B : Z)
    (cl : list Z) (lit : Z) :
  let N := Z.of_nat (length text) in
  solving_encoder.to_cnf text = Ret (cls, nv) →
  0 < B → N = B * B →
  cl ∈ cls → lit ∈ cl →
  ∃ r c v, 0 ≤ r < N ∧ 0 ≤ c < N ∧ 1 ≤ v
           ∧ (v ≤ N ∨ ∃ row, text !! Z.to_nat r = Some row ∧ row !! Z.to_nat c = Some (TInt v))
           ∧ (lit = var N r c v ∨ lit = - var N r c v).
Proof.
  intros N (boxes & clues & Hboxes & Hclues & -> & _)%solving_to_cnf_inv HB HN.
  fold N in Hboxes, Hclues. fold N.
  assert (∀ r1 c1 v1 r2 c2 v2,
            0 ≤ r1 < N → 0 ≤ c1 < N → 1 ≤ v1 ≤ N → 0 ≤ r2 < N → 0 ≤ c2 < N → 1 ≤ v2 ≤ N →
            lit ∈ [- var N r1 c1 v1; - var N r2 c2 v2] →
            ∃ r c v, 0 ≤ r < N ∧ 0 ≤ c < N ∧ 1 ≤ v
              ∧ (v ≤ N ∨ ∃ row, text !! Z.to_nat r = Some row
                                ∧ row !! Z.to_nat c = Some (TInt v))
              ∧ (lit = var N r c v ∨ lit = - var N r c v)) as Hpair.
  { intros r1 c1 v1 r2 c2 v2 ?????? [Hl|Hl%list_elem_of_singleton]%elem_of_cons; subst lit.
    - exists r1, c1, v1. split_and!; first [lia|by right|left; lia].
    - exists r2, c2, v2. split_and!; first [lia|by right|left; lia]. }
  rewrite !elem_of_app. intros [Hcl|[Hcl|[Hcl|[Hcl|[Hcl|Hcl]]]]] Hlit.
  - unfold cell_clauses in Hcl.
    apply list_elem_of_bind in Hcl as (r & Hcl & Hr%elem_of_py_range).
    apply list_elem_of_bind in Hcl as (c & Hcl & Hc%elem_of_py_range).
    apply elem_of_cons in Hcl as [->|Hcl].
    + apply list_elem_of_fmap in Hlit as (v & -> & Hv%elem_of_py_range).
      exists r, c, v. split_and!; first [lia|by left|left; lia].
    + apply list_elem_of_bind in Hcl as (v1 & Hcl & Hv1%elem_of_py_range).
      apply list_elem_of_bind in Hcl as (v2 & ->%list_elem_of_singleton & Hv2%elem_of_py_range).
      apply (Hpair r c v1 r c v2); (lia || done).
  - unfold row_clauses in Hcl.
    apply list_elem_of_bind in Hcl as (r & Hcl & Hr%elem_of_py_range).
    apply list_elem_of_bind in Hcl as (v & Hcl & Hv%elem_of_py_range).
    apply elem_of_cons in Hcl as [->|Hcl].
    + apply list_elem_of_fmap in Hlit as (c & -> & Hc%elem_of_py_range).
      exists r, c, v. split_and!; first [lia|by left|left; lia].
    + apply list_elem_of_bind in Hcl as (c1 & Hcl & Hc1%elem_of_py_range).
      apply list_elem_of_bind in Hcl as (c2 & ->%list_elem_of_singleton & Hc2%elem_of_py_range).
      apply (Hpair r c1 v r c2 v); (lia || done).
  - unfold col_clauses in Hcl.
    apply list_elem_of_bind in Hcl as (c & Hcl & Hc%elem_of_py_range).
    apply list_elem_of_bind in Hcl as (v & Hcl & Hv%elem_of_py_range).
    apply elem_of_cons in Hcl as [->|Hcl].
    + apply list_elem_of_fmap in Hlit as (r & -> & Hr%elem_of_py_range).
      exists r, c, v. split_and!; first [lia|by left|left; lia].
    + apply list_elem_of_bind in Hcl as (r1 & Hcl & Hr1%elem_of_py_range).
      apply list_elem_of_bind in Hcl as (r2 & ->%list_elem_of_singleton & Hr2%elem_of_py_range).
      apply (Hpair r1 c v r2 c v); (lia || done).
  - assert (int_sqrt N = B) as HsB by (rewrite HN; apply Z.sqrt_square; lia).
    rewrite HsB in Hboxes. unfold box_clauses in Hboxes.
    assert (py_range_step 0 N B = Ret ((λ k, 0 + k * B) <$> seqZ 0 B)) as Hstep
      by (rewrite HN; by apply py_range_step_square).
    rewrite Hstep in Hboxes. cbn in Hboxes. injection Hboxes as Hboxes.
    rewrite <- Hboxes in Hcl.
    apply list_elem_of_bind in Hcl as (r_box & Hcl & (br & -> & Hbr%elem_of_seqZ)%list_elem_of_fmap).
    apply list_elem_of_bind in Hcl as (c_box & Hcl & (bc & -> & Hbc%elem_of_seqZ)%list_elem_of_fmap).
    apply list_elem_of_bind in Hcl as (v & Hcl & Hv%elem_of_py_range).
    cbv zeta in Hcl. rewrite (box_vars_list N B _ _ v HB) in Hcl.
    rewrite !Z.add_0_l, <- HN in Hcl.
    set (g := λ k, var N (br * B + k `div` B) (bc * B + k `mod` B) v) in Hcl.
    rewrite length_fmap, length_py_range, Z2Nat.id in Hcl by lia.
    rewrite Z.sub_0_r in Hcl.
    assert (∀ k, 0 ≤ k < N → (g <$> py_range 0 N) !!! Z.to_nat k = g k) as Hlook.
    { intros k Hk. rewrite !list_lookup_total_alt, list_lookup_fmap.
      unfold py_range. rewrite lookup_seqZ_lt by lia. simpl. f_equal. lia. }
    assert (∀ k, 0 ≤ k < N → 0 ≤ k `div` B < B ∧ 0 ≤ k `mod` B < B) as Hkb.
    { intros k Hk. split; [|by apply Z.mod_pos_bound].
      split; [apply Z.div_pos; lia|apply Z.div_lt_upper_bound; lia]. }
    apply elem_of_cons in Hcl as [->|Hcl].
    + apply list_elem_of_fmap in Hlit as (k & -> & Hk%elem_of_py_range).
      destruct (Hkb k Hk) as [??].
      exists (br * B + k `div` B), (bc * B + k `mod` B), v.
      split_and!; [nia..|lia|left; lia|by left].
    + apply list_elem_of_bind in Hcl as (k1 & Hcl & Hk1%elem_of_py_range).
      apply list_elem_of_bind in Hcl as (k2 & ->%list_elem_of_singleton & Hk2%elem_of_py_range).
      rewrite !Hlook in Hlit by lia. unfold g in Hlit.
      destruct (Hkb k1) as [??]; [lia|]. destruct (Hkb k2) as [??]; [lia|].
      eapply Hpair; [..|exact Hlit]; nia.
  - apply elem_of_adjacency_clauses in Hcl
      as (r & c & v & r' & c' & v' & Hr & Hc & Hv & Hrd & Hr' & Hc' & Hcons & Hv' & ->).
    assert (0 ≤ r' ∧ 0 ≤ c') as [??] by (unfold right_or_down in Hrd; lia).
    apply (Hpair r c v r' c' v'); (lia || done).
  - destruct (collect_elem_of _ _ _ _ Hclues Hcl) as ([r c] & zs & Hrc & Hz & Hin).
    apply list_elem_of_bind in Hrc as (r0 & Hrc & Hr%elem_of_py_range).
    apply list_elem_of_bind in Hrc as (c0 & [= <- <-]%list_elem_of_singleton & Hc%elem_of_py_range).
    destruct (clue_cell_inv _ _ _ _ _ _ Hz Hin) as (row & z & Htrow & Htok & Hz0 & ->).
    apply list_elem_of_singleton in Hlit as ->.
    exists r, c, z. split_and!; [lia..| |by left]. right. by exists row.
Qed.

Lemma clues_in_range_lookup (text : list (list token)) (r c z : Z) (row : list token) :
  clues_in_range text →
  text !! Z.to_nat r = Some row → row !! Z.to_nat c = Some (TInt z) →
  0 ≤ z ≤ Z.of_nat (length text).
Proof.
  intros Hcl Hrow Htok.
  eapply Forall_lookup_1 in Hcl; [|exact Hrow].
  eapply Forall_lookup_1 in Hcl; [|exact Htok]. by apply Hcl.
Qed.

Lemma to_cnf_well_formed (text : list (list token)) (cls : list (list Z)) (nv B : Z) :
  let N := Z.of_nat (length text) in
  solving_encoder.to_cnf text = Ret (cls, nv) →
  0 < B → N = B * B → clues_in_range text →
  well_formed cls nv.
Proof.
  intros N Hcnf HB HN Hclues cl lit Hcl Hlit.
  destruct (to_cnf_literal_inv text cls nv B cl lit Hcnf HB HN Hcl Hlit)
    as (r & c & v & Hr & Hc & Hv & Hv' & Hvar).
  fold N in Hr, Hc, Hv', Hvar.
  assert (v ≤ N) as HvN.
  { destruct Hv' as [?|(row & Hrow & Htok)]; [done|].
    by destruct (clues_in_range_lookup text r c v row Hclues Hrow Htok). }
  destruct (solving_to_cnf_inv _ _ _ Hcnf) as (boxes & clues & _ & _ & _ & Hnv).
  fold N in Hnv. rewrite Hnv.
  pose proof (var_bounds N r c v Hr Hc ltac:(lia)). lia.
Qed.

(** X15.  When the grid size is a square [N = B²] and every clue of the
    file is in [0..N], every literal of every clause [to_cnf] returns is a
    declared variable or its negation: its absolute value is in
    [1..N³]. *)
Theorem to_cnf_literals_declared (text : list (list token)) (cls : list (list Z))
    (nv B : Z) (cl : list Z) (lit : Z) :
  let N := Z.of_nat (length text) in
  solving_encoder.to_cnf text = Ret (cls, nv) →
  0 < B → N = B * B → clues_in_range text →
  cl ∈ cls → lit ∈ cl → 1 ≤ Z.abs lit ≤ N * N * N.
Proof.
  intros N Hcnf HB HN Hclues Hcl Hlit.
  destruct (to_cnf_well_formed text cls nv B Hcnf HB HN Hclues cl lit Hcl Hlit).
  destruct (solving_to_cnf_inv _ _ _ Hcnf) as (boxes & clues & _ & _ & _ & Hnv).
  fold N in Hnv. lia.
Qed.

End pipeline.

Section pipeline_9x9.
Import solving_encoder.

Lemma array_model_models (model : list Z) (cls : list (list Z)) :
  (∀ cl, cl ∈ cls →
     ∃ lit, lit ∈ cl ∧ model !! Z.to_nat (Z.abs lit) = Some (solver.lit_val lit)) →
  models (array_model model) cls.
Proof.
  intros Hsat cl Hcl. destruct (Hsat cl Hcl) as (lit & Hlit & Hval).
  exists lit. split; [done|]. unfold lit_holds, array_model. rewrite Hval.
  unfold solver.lit_val. destruct (0 <? lit).
  - by apply bool_decide_eq_true_2.
  - by apply bool_decide_eq_false_2.
Qed.

(** The decoded grid of a model of the clauses of a 9-line file holds
    [v] at [(r, c)] exactly when the model makes [var(r,c,v)] true. *)
Lemma decoded_grid_model (text : list (list token)) (cls : list (list Z)) (nv : Z)
    (model : list Z) (grid : list (list Z)) (r c v : Z) :
  length text = 9%nat →
  solving_encoder.to_cnf text = Ret (cls, nv) →
  models (array_model model) cls →
  solver.decode model nv = Ret grid →
  0 ≤ r < 9 → 0 ≤ c < 9 → 1 ≤ v ≤ 9 →
  grid_fun grid r c = v ↔ array_model model (var 9 r c v) = true.
Proof.
  intros Hlen Hcnf HM Hdec Hr Hc Hv.
  destruct (solving_to_cnf_inv _ _ _ Hcnf) as (boxes & clues & _ & _ & _ & Hnv).
  rewrite Hlen in Hnv. change (nv = 729) in Hnv. subst nv.
  destruct (cell_exactly_one text cls 729 (array_model model) r c Hcnf HM)
    as (v0 & Hv0 & Mv0 & Huniq); [rewrite Hlen; lia..|].
  rewrite Hlen in Hv0, Mv0, Huniq. change (Z.of_nat 9) with 9 in *.
  assert (grid_cell grid r c = Some v0) as Hcell.
  { apply (decode_largest_true model 729 grid r c v0 Hdec); try lia.
    - unfold array_model in Mv0. apply bool_decide_eq_true_1 in Mv0.
      rewrite <- Mv0. f_equal. unfold var. f_equal. lia.
    - intros v' Hv' _ Htrue. assert (v' = v0); [|lia].
      apply Huniq; [lia|]. unfold array_model. apply bool_decide_eq_true_2.
      rewrite <- Htrue. f_equal. unfold var. f_equal. lia. }
  unfold grid_fun. rewrite Hcell. simpl. split.
  - by intros <-.
  - intros Mv. symmetry. by apply Huniq.
Qed.

(** The grid decoded from a model array that satisfies the clauses of a
    9-line file solves the puzzle. *)
Lemma model_grid_solves (text : list (list token))
    (cls : list (list Z)) (nv : Z) (model : list Z) (grid : list (list Z)) :
  length text = 9%nat → clues_in_range text →
  solving_encoder.to_cnf text = Ret (cls, nv) →
  models (array_model model) cls →
  solver.decode model nv = Ret grid →
  solves_puzzle text (grid_fun grid).
Proof.
  intros Hlen Hclues Hcnf Hsat Hdec.
  set (M := array_model model) in *.
  assert (∀ r c v, 0 ≤ r < 9 → 0 ≤ c < 9 → 1 ≤ v ≤ 9 →
                   grid_fun grid r c = v ↔ M (var 9 r c v) = true) as Hiff
    by (intros; by eapply decoded_grid_model).
  assert (Z.of_nat (length text) = 9) as HN by (by rewrite Hlen).
  assert (digits_in_range 9 (grid_fun grid)) as Hdig.
  { intros r c Hr Hc.
    destruct (cell_exactly_one text cls nv M r c Hcnf Hsat) as (v & Hv & Mv & _);
      [lia..|]. rewrite HN in Hv, Mv. apply Hiff in Mv; [|lia..]. lia. }
  split_and!; [done|..].
  - intros r v Hr Hv.
    destruct (row_exactly_one text cls nv M r v Hcnf Hsat) as (c & Hc & Mc & Huniq);
      [lia..|]. rewrite HN in Hc, Mc, Huniq.
    exists c. split_and!; [lia..|by apply Hiff|].
    intros c' Hc' Hsol. apply Huniq; [done|]. by apply Hiff.
  - intros c v Hc Hv.
    destruct (col_exactly_one text cls nv M c v Hcnf Hsat) as (r & Hr & Mr & Huniq);
      [lia..|]. rewrite HN in Hr, Mr, Huniq.
    exists r. split_and!; [lia..|by apply Hiff|].
    intros r' Hr' Hsol. apply Huniq; [done|]. by apply Hiff.
  - intros br bc v Hbr Hbc Hv.
    destruct (box_exactly_one text cls nv M 3 br bc v Hcnf Hsat)
      as (i & j & Hi & Hj & Mij & Huniq); [lia..|]. rewrite HN in Mij, Huniq.
    exists i, j. split_and!; [lia..|apply Hiff; [lia..|done]|].
    intros i' j' Hi' Hj' Hsol. apply Huniq; [done..|]. apply Hiff; [lia..|done].
  - intros r c r' c' Hr Hc Hrd Hr' Hc'.
    assert (0 ≤ r' ∧ 0 ≤ c') as [??] by (unfold right_or_down in Hrd; lia).
    pose proof (Hdig r c Hr Hc). pose proof (Hdig r' c' ltac:(lia) ltac:(lia)).
    pose proof (adjacent_not_consecutive text cls nv M r c r' c'
                  (grid_fun grid r c) (grid_fun grid r' c') Hcnf Hsat) as Hadj.
    rewrite HN in Hadj. apply Hadj; try lia; try done; apply Hiff; (lia || done).
  - intros r c row z Hr Hc Hrow Htok Hz.
    pose proof (clues_in_range_lookup text r c z row Hclues Hrow Htok) as Hz9.
    rewrite HN in Hz9.
    pose proof (clue_forced text cls nv M r c z row Hcnf Hsat) as Hclue.
    rewrite HN in Hclue. apply Hiff; [lia..|]. apply Hclue; (lia || done).
Qed.

(** The grid decoded from a model that [dpll] returns for the clauses of a
    9-line file solves the puzzle. *)
Lemma decoded_model_solves (fuel : nat) (text : list (list token))
    (cls : list (list Z)) (nv : Z) (model : list Z) (grid : list (list Z)) :
  length text = 9%nat → clues_in_range text →
  solving_encoder.to_cnf text = Ret (cls, nv) →
  solver.run_dpll fuel cls nv = Some (Ret (Some model)) →
  solver.decode model nv = Ret grid →
  solves_puzzle text (grid_fun grid).
Proof.
  intros Hlen Hclues Hcnf Hrun Hdec.
  destruct (run_dpll_sound _ _ _ _ Hrun) as (_ & _ & Hsat).
  apply array_model_models in Hsat. by eapply model_grid_solves.
Qed.

(** X16.  For a file of nine lines with clues in [0..9]: when [solve_cnf],
    run on the clauses of [to_cnf], returns ["SAT"] with a grid, the grid
    is a solved non-consecutive Sudoku of the puzzle: digits in [1..9],
    each digit once in every row, column and 3×3 box, no consecutive
    digits in neighbouring cells, and every positive clue kept. *)
Theorem pipeline_answer_solves_puzzle (fuel : nat) (text : list (list token))
    (cls : list (list Z)) (nv : Z) (grid : list (list Z)) :
  length text = 9%nat → clues_in_range text →
  solving_encoder.to_cnf text = Ret (cls, nv) →
  solver.solve_cnf fuel cls nv = Some (Ret (solver.SAT, Some grid)) →
  solves_puzzle text (grid_fun grid).
Proof.
  intros Hlen Hclues Hcnf (model & grid' & Hrun & Hdec & [= <-])%solve_cnf_SAT_inv.
  by eapply decoded_model_solves.
Qed.

(** Solving any clause list with the clauses of the encoding of a 9-line
    file, in whatever order and number, decides the puzzle. *)
Lemma solve_cnf_decides_same_clauses (fuel : nat) (text : list (list token))
    (cls cls' : list (list Z)) (nv : Z) :
  length text = 9%nat → clues_in_range text →
  solving_encoder.to_cnf text = Ret (cls, nv) →
  (∀ cl, cl ∈ cls' ↔ cl ∈ cls) →
  (731 * (length cls' + 2) ≤ fuel)%nat →
  ((∃ sol, solves_puzzle text sol)
   ∧ ∃ grid, solver.solve_cnf fuel cls' nv = Some (Ret (solver.SAT, Some grid))
             ∧ solves_puzzle text (grid_fun grid))
  ∨ ((¬ ∃ sol, solves_puzzle text sol)
     ∧ solver.solve_cnf fuel cls' nv = Some (Ret (solver.UNSAT, None))).
Proof.
  intros Hlen Hclues Hcnf Hsame Hfuel.
  assert (Z.of_nat (length text) = 9) as HN by (by rewrite Hlen).
  destruct (solving_to_cnf_inv _ _ _ Hcnf) as (boxes & clues & _ & _ & _ & Hnv).
  rewrite HN in Hnv. change (nv = 729) in Hnv.
  assert (well_formed cls' nv) as Hwf.
  { intros cl lit Hcl%Hsame.
    by apply (to_cnf_well_formed text cls nv 3 Hcnf); [lia|lia|done|]. }
  assert ((∃ sol, solves_puzzle text sol) → satisfiable cls') as Hsol.
  { intros (sol & Hdig & Hrow & Hcol & Hbox & Hadj & Hkeep).
    exists (grid_model 9 sol). intros cl Hcl%Hsame.
    pose proof (grid_models_clauses text cls nv 3 sol Hcnf) as Hmod.
    rewrite HN in Hmod. apply Hmod; (lia || done). }
  unfold solver.solve_cnf.
  destruct (run_dpll_decides fuel cls' nv Hwf) as [[Hsat [model Hrun]]|[Hunsat Hrun]];
    [subst nv; exact Hfuel| |]; rewrite Hrun.
  - destruct (run_dpll_sound _ _ _ _ Hrun) as (Hmlen & _ & Hmodel).
    destruct (decode_Ret model nv Hmlen ltac:(lia)) as [grid Hdec].
    apply array_model_models in Hmodel.
    assert (solves_puzzle text (grid_fun grid)) as Hsolved.
    { apply (model_grid_solves text cls nv model grid); try done.
      intros cl Hcl%Hsame. by apply Hmodel. }
    left. split; [by exists (grid_fun grid)|].
    rewrite Hdec. by exists grid.
  - right. split; [|done]. intros Hex. by apply Hunsat, Hsol.
Qed.

(** Encoding a 9-line file and solving the clauses decides the puzzle. *)
Lemma solve_cnf_decides_puzzle (fuel : nat) (text : list (list token))
    (cls : list (list Z)) (nv : Z) :
  length text = 9%nat → clues_in_range text →
  solving_encoder.to_cnf text = Ret (cls, nv) →
  (731 * (length cls + 2) ≤ fuel)%nat →
  ((∃ sol, solves_puzzle text sol)
   ∧ ∃ grid, solver.solve_cnf fuel cls nv = Some (Ret (solver.SAT, Some grid))
             ∧ solves_puzzle text (grid_fun grid))
  ∨ ((¬ ∃ sol, solves_puzzle text sol)
     ∧ solver.solve_cnf fuel cls nv = Some (Ret (solver.UNSAT, None))).
Proof.
  intros Hlen Hclues Hcnf Hfuel.
  by apply (solve_cnf_decides_same_clauses fuel text cls cls nv).
Qed.

(** X17.  For a file of nine lines with clues in [0..9] that [to_cnf]
    encodes, [solve_cnf] with enough fuel raises no exception and decides
    the puzzle: it returns ["SAT"] with a grid that solves the puzzle when
    the puzzle has a solution, and [("UNSAT", None)] when it has none. *)
Theorem pipeline_decides_puzzle (fuel : nat) (text : list (list token))
    (cls : list (list Z)) (nv : Z) :
  length text = 9%nat → clues_in_range text →
  solving_encoder.to_cnf text = Ret (cls, nv) →
  (731 * (length cls + 2) ≤ fuel)%nat →
  ((∃ sol, solves_puzzle text sol)
   ∧ ∃ grid, solver.solve_cnf fuel cls nv = Some (Ret (solver.SAT, Some grid))
             ∧ solves_puzzle text (grid_fun grid))
  ∨ ((¬ ∃ sol, solves_puzzle text sol)
     ∧ solver.solve_cnf fuel cls nv = Some (Ret (solver.UNSAT, None))).
Proof. exact (solve_cnf_decides_puzzle fuel text cls nv). Qed.

Lemma full_to_cnf : solving_encoder.to_cnf full_puzzle = Ret (full_clauses, 729).
Proof. vm_compute. reflexivity. Qed.

Lemma full_clues_in_range : clues_in_range full_puzzle.
Proof.
  assert (Forall (Forall (λ z, 0 ≤ z ≤ 9)) sample_solution) as Hall
    by (apply (bool_decide_unpack _); vm_compute; exact I).
  unfold clues_in_range, full_puzzle. rewrite length_fmap.
  apply Forall_fmap. eapply Forall_impl; [exact Hall|].
  intros row Hrow. apply Forall_fmap. eapply Forall_impl; [exact Hrow|].
  intros z Hz z' [= <-]. exact Hz.
Qed.

Lemma full_puzzle_solved : solves_puzzle full_puzzle sample_sol.
Proof.
  split_and!; [exact sample_digits|exact sample_rows|exact sample_cols|exact sample_boxes
              |exact sample_non_consecutive|].
  intros r c row z Hr Hc Hrow Htok Hz. unfold full_puzzle in Hrow.
  rewrite list_lookup_fmap in Hrow.
  destruct (sample_solution !! Z.to_nat r) as [digits|] eqn:Hdigits; [|done].
  injection Hrow as <-. rewrite list_lookup_fmap in Htok.
  destruct (digits !! Z.to_nat c) as [d|] eqn:Hd; [|done]. injection Htok as ->.
  unfold sample_sol, grid_cell. rewrite Hdigits. simpl. by rewrite Hd.
Qed.

Lemma to_cnf_literals_declared_witness : 1 ≤ Z.abs (- 729) ≤ 9 * 9 * 9.
Proof.
  apply (to_cnf_literals_declared full_puzzle full_clauses 729 3 [- 728; - 729] (- 729)
           full_to_cnf); [lia|reflexivity|exact full_clues_in_range| |].
  - apply (bool_decide_unpack _). vm_compute. exact I.
  - apply (bool_decide_unpack _). vm_compute. exact I.
Defined.

Lemma pipeline_answer_solves_puzzle_witness :
  ∃ grid,
    solver.solve_cnf (731 * (length full_clauses + 2)) full_clauses 729
    = Some (Ret (solver.SAT, Some grid))
    ∧ solves_puzzle full_puzzle (grid_fun grid).
Proof.
  destruct (solve_cnf_decides_puzzle (731 * (length full_clauses + 2)) full_puzzle
              full_clauses 729 eq_refl full_clues_in_range full_to_cnf (le_n _))
    as [[_ (grid & Hrun & _)]|[Hno _]].
  - exists grid. split; [exact Hrun|].
    exact (pipeline_answer_solves_puzzle (731 * (length full_clauses + 2)) full_puzzle
             full_clauses 729 grid eq_refl full_clues_in_range full_to_cnf Hrun).
  - exfalso. apply Hno. exists sample_sol. exact full_puzzle_solved.
Defined.

Lemma pipeline_decides_puzzle_witness :
  let fuel := (731 * (length full_clauses + 2))%nat in
  ((∃ sol, solves_puzzle full_puzzle sol)
   ∧ ∃ grid, solver.solve_cnf fuel full_clauses 729 = Some (Ret (solver.SAT, Some grid))
             ∧ solves_puzzle full_puzzle (grid_fun grid))
  ∨ ((¬ ∃ sol, solves_puzzle full_puzzle sol)
     ∧ solver.solve_cnf fuel full_clauses 729 = Some (Ret (solver.UNSAT, None))).
Proof.
  intros fuel.
  apply (pipeline_decides_puzzle fuel full_puzzle full_clauses 729 eq_refl
           full_clues_in_range full_to_cnf).
  reflexivity.
Defined.

End pipeline_9x9.

Section CODE_pipeline.

(** On a file of nine lines the encoder of [src/CODE] returns the clauses
    of the encoder of [src/solving], in another order. *)
Lemma CODE_same_clauses (text : list (list token)) (cls' : list (list Z)) (nv : Z) :
  length text = 9%nat →
  CODE_encoder.to_cnf text = Ret (cls', nv) →
  ∃ cls, solving_encoder.to_cnf text = Ret (cls, nv) ∧ ∀ cl, cl ∈ cls' ↔ cl ∈ cls.
Proof.
  intros Hlen Hcnf.
  destruct (CODE_to_cnf_inv _ _ _ Hcnf) as (boxes & clues & Hb & Hc & Hcls & Hnv).
  rewrite Hlen in Hb, Hc, Hcls, Hnv. change (Z.of_nat 9) with 9 in Hb, Hc, Hcls, Hnv.
  rewrite box_clauses_same in Hb. rewrite clue_clauses_same in Hc.
  exists (solving_encoder.cell_clauses 9 ++ solving_encoder.row_clauses 9
          ++ solving_encoder.col_clauses 9 ++ boxes
          ++ solving_encoder.adjacency_clauses 9 ++ clues).
  split.
  - unfold solving_encoder.to_cnf. cbv zeta. rewrite Hlen. change (Z.of_nat 9) with 9.
    rewrite Hb, Hc, Hnv. reflexivity.
  - intros cl. rewrite Hcls, cell_clauses_9, row_clauses_same, col_clauses_same.
    rewrite adjacency_clauses_Permutation. reflexivity.
Qed.

(** X28.  The encoder of [src/CODE] with the solver: for a file of nine
    lines with clues in [0..9] that [to_cnf] of [src/CODE/encoder.py]
    encodes, [solve_cnf] with enough fuel raises no exception and decides
    the puzzle: ["SAT"] with a grid that solves the puzzle when the puzzle
    has a solution, [("UNSAT", None)] when it has none. *)
Theorem CODE_pipeline_decides_puzzle (fuel : nat) (text : list (list token))
    (cls : list (list Z)) (nv : Z) :
  length text = 9%nat → clues_in_range text →
  CODE_encoder.to_cnf text = Ret (cls, nv) →
  (731 * (length cls + 2) ≤ fuel)%nat →
  ((∃ sol, solves_puzzle text sol)
   ∧ ∃ grid, solver.solve_cnf fuel cls nv = Some (Ret (solver.SAT, Some grid))
             ∧ solves_puzzle text (grid_fun grid))
  ∨ ((¬ ∃ sol, solves_puzzle text sol)
     ∧ solver.solve_cnf fuel cls nv = Some (Ret (solver.UNSAT, None))).
Proof.
  intros Hlen Hclues Hcnf Hfuel.
  destruct (CODE_same_clauses text cls nv Hlen Hcnf) as (cls0 & Hcnf0 & Hsame).
  by apply (solve_cnf_decides_same_clauses fuel text cls0 cls nv).
Qed.

Lemma CODE_full_to_cnf : CODE_encoder.to_cnf full_puzzle = Ret (CODE_full_clauses, 729).
Proof. vm_compute. reflexivity. Qed.

Lemma CODE_pipeline_decides_puzzle_witness :
  let fuel := (731 * (length CODE_full_clauses + 2))%nat in
  ((∃ sol, solves_puzzle full_puzzle sol)
   ∧ ∃ grid, solver.solve_cnf fuel CODE_full_clauses 729
             = Some (Ret (solver.SAT, Some grid))
             ∧ solves_puzzle full_puzzle (grid_fun grid))
  ∨ ((¬ ∃ sol, solves_puzzle full_puzzle sol)
     ∧ solver.solve_cnf fuel CODE_full_clauses 729 = Some (Ret (solver.UNSAT, None))).
Proof.
  intros fuel.
  apply (CODE_pipeline_decides_puzzle fuel full_puzzle CODE_full_clauses 729 eq_refl
           full_clues_in_range CODE_full_to_cnf).
  reflexivity.
Defined.

End CODE_pipeline.

Section backtracking.
Import backtracking_solver.

(** *** Indexing *)

Lemma getitem_Ok {A : Type} (l : list A) (i : Z) (x : A) :
  getitem l i = Ok x ↔
  0 ≤ py_norm_index l i ∧ l !! Z.to_nat (py_norm_index l i) = Some x.
Proof.
  unfold getitem. cbv zeta. destruct (Z.ltb_spec (py_norm_index l i) 0).
  - split; [done|]. lia.
  - destruct (l !! _); split; try done.
    + intros [= ->]. done.
    + by intros [_ [= ->]].
    + by intros [_ ?].
Qed.

Lemma getitem_in_range {A : Type} (l : list A) (i : Z) (x : A) :
  0 ≤ i → l !! Z.to_nat i = Some x → getitem l i = Ok x.
Proof.
  intros Hi Hx. apply getitem_Ok. unfold py_norm_index.
  destruct (Z.ltb_spec i 0); [lia|]. done.
Qed.

Lemma setitem_Ok {A : Type} (l l' : list A) (i : Z) (x : A) :
  setitem l i x = Ok l' ↔
  0 ≤ py_norm_index l i < Z.of_nat (length l)
  ∧ l' = <[Z.to_nat (py_norm_index l i) := x]> l.
Proof.
  unfold setitem. cbv zeta.
  destruct (Z.ltb_spec (py_norm_index l i) 0);
    destruct (Z.leb_spec (Z.of_nat (length l)) (py_norm_index l i)); simpl;
    split; try done; try (intros [? _]; lia).
  - intros [= <-]. split; [lia|done].
  - by intros [_ ->].
Qed.

Lemma py_norm_index_insert {A : Type} (l : list A) (i : Z) (k : nat) (x : A) :
  py_norm_index (<[k := x]> l) i = py_norm_index l i.
Proof. unfold py_norm_index. by rewrite length_insert. Qed.

Lemma mat_get_Ok (mat : list (list Z)) (r c v : Z) :
  mat_get mat r c = Ok v ↔
  ∃ mat_row, getitem mat r = Ok mat_row ∧ getitem mat_row c = Ok v.
Proof.
  unfold mat_get. destruct (getitem mat r) as [mat_row|] eqn:Hrow; simpl.
  - split; [by exists mat_row|]. by intros (? & [= <-] & ?).
  - split; [done|]. by intros (? & ? & ?).
Qed.

(** Writing a digit into a cell that was read and writing back what was
    read gives the grid back. *)
Lemma mat_set_undo (mat mat1 : list (list Z)) (r c v x : Z) :
  mat_get mat r c = Ok v → mat_set mat r c x = Ok mat1 →
  mat_set mat1 r c v = Ok mat.
Proof.
  intros (mat_row & Hrow & Hv)%mat_get_Ok. unfold mat_set. rewrite Hrow. simpl.
  destruct (setitem mat_row c x) as [new_row|] eqn:Hnew; [|done]. simpl.
  intros Hset. apply setitem_Ok in Hnew as [Hc ->]. apply setitem_Ok in Hset as [Hr ->].
  apply getitem_Ok in Hrow as [_ Hrow]. apply getitem_Ok in Hv as [_ Hv].
  set (j := Z.to_nat (py_norm_index mat r)) in *.
  set (k := Z.to_nat (py_norm_index mat_row c)) in *.
  assert (getitem (<[j := <[k := x]> mat_row]> mat) r = Ok (<[k := x]> mat_row)) as ->.
  { apply getitem_Ok. rewrite py_norm_index_insert. split; [lia|]. fold j.
    apply list_lookup_insert_eq. subst j. lia. }
  simpl.
  assert (setitem (<[k := x]> mat_row) c v = Ok mat_row) as ->.
  { apply setitem_Ok. rewrite py_norm_index_insert, length_insert. split; [lia|]. fold k.
    rewrite list_insert_insert_eq. symmetry. by apply list_insert_id. }
  simpl. apply setitem_Ok. rewrite py_norm_index_insert, length_insert. split; [lia|]. fold j.
  rewrite list_insert_insert_eq. symmetry. by apply list_insert_id.
Qed.

(** *** Grids of the right shape *)

Lemma grid_shape_row (N : Z) (mat : list (list Z)) (r : Z) :
  grid_shape N mat → 0 ≤ r < N →
  ∃ mat_row, mat !! Z.to_nat r = Some mat_row ∧ Z.of_nat (length mat_row) = N.
Proof.
  intros [Hlen Hrows] Hr.
  destruct (lookup_lt_is_Some_2 mat (Z.to_nat r)) as [mat_row Hrow]; [lia|].
  exists mat_row. split; [done|]. by eapply Forall_lookup_1 in Hrows.
Qed.

Lemma grid_shape_cell (N : Z) (mat : list (list Z)) (r c : Z) :
  grid_shape N mat → 0 ≤ r < N → 0 ≤ c < N →
  grid_cell mat r c = Some (grid_fun mat r c).
Proof.
  intros Hshape Hr Hc. destruct (grid_shape_row N mat r Hshape Hr) as (mat_row & Hrow & Hlen).
  destruct (lookup_lt_is_Some_2 mat_row (Z.to_nat c)) as [v Hv]; [lia|].
  unfold grid_fun, grid_cell. rewrite Hrow. simpl. by rewrite Hv.
Qed.

Lemma mat_get_in_grid (N : Z) (mat : list (list Z)) (r c : Z) :
  grid_shape N mat → 0 ≤ r < N → 0 ≤ c < N →
  mat_get mat r c = Ok (grid_fun mat r c).
Proof.
  intros Hshape Hr Hc. pose proof (grid_shape_cell N mat r c Hshape Hr Hc) as Hcell.
  unfold grid_cell in Hcell.
  destruct (mat !! Z.to_nat r) as [mat_row|] eqn:Hrow; [|done]. simpl in Hcell.
  apply mat_get_Ok. exists mat_row. split; apply getitem_in_range; (lia || done).
Qed.

Lemma mat_set_in_grid (N : Z) (mat : list (list Z)) (r c x : Z) :
  grid_shape N mat → 0 ≤ r < N → 0 ≤ c < N →
  ∃ mat1, mat_set mat r c x = Ok mat1
          ∧ grid_shape N mat1
          ∧ grid_fun mat1 r c = x
          ∧ ∀ r' c', 0 ≤ r' → 0 ≤ c' → (r', c') ≠ (r, c) →
                     grid_fun mat1 r' c' = grid_fun mat r' c'.
Proof.
  intros Hshape Hr Hc.
  destruct (grid_shape_row N mat r Hshape Hr) as (mat_row & Hrow & Hlen).
  destruct Hshape as [Hmlen Hrows].
  exists (<[Z.to_nat r := <[Z.to_nat c := x]> mat_row]> mat).
  assert (py_norm_index mat r = r) as Hnr
    by (unfold py_norm_index; destruct (Z.ltb_spec r 0); lia).
  assert (py_norm_index mat_row c = c) as Hnc
    by (unfold py_norm_index; destruct (Z.ltb_spec c 0); lia).
  split_and!.
  - unfold mat_set. rewrite (getitem_in_range mat r mat_row) by (lia || done). simpl.
    assert (setitem mat_row c x = Ok (<[Z.to_nat c := x]> mat_row)) as ->
      by (apply setitem_Ok; rewrite Hnc; split; [lia|done]).
    simpl. apply setitem_Ok. rewrite Hnr. split; [lia|done].
  - split; [by rewrite length_insert|].
    apply Forall_insert; [done|]. by rewrite length_insert.
  - unfold grid_fun, grid_cell.
    rewrite list_lookup_insert_eq by lia. simpl.
    by rewrite list_lookup_insert_eq by lia.
  - intros r' c' Hr' Hc' Hne. unfold grid_fun, grid_cell.
    destruct (decide (Z.to_nat r' = Z.to_nat r)) as [Er|Er].
    + rewrite Er, list_lookup_insert_eq, Hrow by lia. simpl.
      rewrite list_lookup_insert_ne; [done|].
      intros Ec. apply Hne. f_equal; lia.
    + by rewrite list_lookup_insert_ne.
Qed.

(** *** The early-return loops *)

Lemma any_of_spec (test : Z → outcome bool) (P : Z → Prop) (l : list Z) :
  (∀ x, x ∈ l → ∃ b, test x = Ok b ∧ (b = true ↔ P x)) →
  ∃ b, any_of test l = Ok b ∧ (b = true ↔ ∃ x, x ∈ l ∧ P x).
Proof.
  induction l as [|x l IH]; intros Htest; simpl.
  - exists false. split; [done|]. split; [done|]. by intros (x & ?%elem_of_nil & _).
  - destruct (Htest x) as (b & -> & Hb); [left|]. destruct b.
    + exists true. split; [done|]. split; [|done]. intros _. exists x. split; [left|by apply Hb].
    + destruct IH as (b & -> & Hb'); [intros y Hy; apply Htest; by right|].
      exists b. split; [done|]. rewrite Hb'. split.
      * intros (y & Hy & HP). exists y. split; [by right|done].
      * intros (y & [->|Hy]%elem_of_cons & HP); [|by exists y].
        apply Hb in HP. done.
Qed.

Lemma neighbour_clash_spec (N : Z) (mat : list (list Z)) (guard : bool) (r c num : Z) :
  grid_shape N mat → (guard = true → 0 ≤ r < N ∧ 0 ≤ c < N) →
  ∃ b, neighbour_clash guard mat r c num = Ok b
       ∧ (b = true ↔ guard = true ∧ grid_fun mat r c ≠ 0
                      ∧ Z.abs (grid_fun mat r c - num) = 1).
Proof.
  intros Hshape Hguard. unfold neighbour_clash. destruct guard.
  - destruct Hguard as [Hr Hc]; [done|].
    rewrite !(mat_get_in_grid N mat r c) by done. simpl.
    destruct (Z.eqb_spec (grid_fun mat r c) 0) as [E|E]; simpl.
    + exists false. split; [done|]. split; [done|]. by intros (_ & ? & _).
    + eexists. split; [done|]. rewrite Z.eqb_eq.
      split; [by intros ?|by intros (_ & _ & ?)].
  - exists false. split; [done|]. split; [done|]. by intros (? & _).
Qed.

(** *** [isSafe] *)

Lemma cell_test_spec (N : Z) (mat : list (list Z)) (r c num : Z) :
  grid_shape N mat → 0 ≤ r < N → 0 ≤ c < N →
  ∃ b, (v ← mat_get mat r c; mret (v =? num)) = Ok b
       ∧ (b = true ↔ grid_fun mat r c = num).
Proof.
  intros Hshape Hr Hc. rewrite (mat_get_in_grid N) by done. simpl.
  eexists. split; [done|]. apply Z.eqb_eq.
Qed.

Lemma box_start_bounds (B x i : Z) :
  0 < B → 0 ≤ x < B * B → 0 ≤ i < B → 0 ≤ i + (x - x `mod` B) < B * B.
Proof.
  intros HB Hx Hi. pose proof (Z.div_mod x B ltac:(lia)).
  pose proof (Z.mod_pos_bound x B HB).
  assert (0 ≤ x `div` B < B) by (split; [apply Z.div_pos; lia|apply Z.div_lt_upper_bound; lia]).
  nia.
Qed.

Lemma not_exists_forall {A : Type} (P : A → Prop) (Q : A → Prop) :
  (¬ ∃ x, P x ∧ Q x) ↔ ∀ x, P x → ¬ Q x.
Proof. split; [intros H x ??; apply H; eauto|intros H (x & ? & ?); by eapply H]. Qed.

(** The tests of [isSafe], one by one, on a grid of the right shape. *)
Lemma isSafe_total (N B : Z) (mat : list (list Z)) (row col num : Z) :
  grid_shape N mat → 0 < B → N = B * B → 0 ≤ row < N → 0 ≤ col < N →
  ∃ b, isSafe mat row col num = Ok b
       ∧ (b = true ↔ safe_at N B (grid_fun mat) row col num).
Proof.
  intros Hshape HB HN Hrow Hcol. set (g := grid_fun mat).
  unfold isSafe. rewrite (proj1 Hshape). cbv zeta.
  assert (int_sqrt N = B) as -> by (rewrite HN; apply Z.sqrt_square; lia).
  destruct (any_of_spec (λ x, v ← mat_get mat row x; mret (v =? num))
              (λ x, g row x = num) (py_range 0 N)) as (in_row & -> & Hin_row).
  { intros x Hx%elem_of_py_range. by apply (cell_test_spec N). }
  simpl. destruct in_row.
  { exists false. split; [done|]. split; [done|]. intros (H1 & _).
    destruct (proj1 Hin_row eq_refl) as (x & Hx%elem_of_py_range & Hg). exfalso. by apply (H1 x). }
  assert (∀ x, 0 ≤ x < N → g row x ≠ num) as H1.
  { intros x Hx Hg. assert (false = true); [|done].
    apply Hin_row. exists x. split; [by apply elem_of_py_range|done]. }
  destruct (any_of_spec (λ x, v ← mat_get mat x col; mret (v =? num))
              (λ x, g x col = num) (py_range 0 N)) as (in_col & -> & Hin_col).
  { intros x Hx%elem_of_py_range. by apply (cell_test_spec N). }
  simpl. destruct in_col.
  { exists false. split; [done|]. split; [done|]. intros (_ & H2 & _).
    destruct (proj1 Hin_col eq_refl) as (x & Hx%elem_of_py_range & Hg). exfalso. by apply (H2 x). }
  assert (∀ x, 0 ≤ x < N → g x col ≠ num) as H2.
  { intros x Hx Hg. assert (false = true); [|done].
    apply Hin_col. exists x. split; [by apply elem_of_py_range|done]. }
  unfold py_mod. destruct (Z.eqb_spec B 0); [lia|]. simpl.
  set (startRow := row - row `mod` B). set (startCol := col - col `mod` B).
  destruct (any_of_spec
              (λ i, any_of (λ j, v ← mat_get mat (i + startRow) (j + startCol);
                                 mret (v =? num)) (py_range 0 B))
              (λ i, ∃ j, 0 ≤ j < B ∧ g (i + startRow) (j + startCol) = num)
              (py_range 0 B)) as (in_box & -> & Hin_box).
  { intros i Hi%elem_of_py_range.
    destruct (any_of_spec (λ j, v ← mat_get mat (i + startRow) (j + startCol);
                                mret (v =? num))
                (λ j, g (i + startRow) (j + startCol) = num) (py_range 0 B))
      as (b & Hb & Hiff).
    - intros j Hj%elem_of_py_range. apply (cell_test_spec N); [done|..].
      + subst N startRow. apply box_start_bounds; lia.
      + subst N startCol. apply box_start_bounds; lia.
    - exists b. split; [done|]. rewrite Hiff. split.
      + intros (j & Hj%elem_of_py_range & Hg). by exists j.
      + intros (j & Hj & Hg). exists j. split; [by apply elem_of_py_range|done]. }
  simpl. destruct in_box.
  { exists false. split; [done|]. split; [done|]. intros (_ & _ & H3 & _).
    destruct (proj1 Hin_box eq_refl) as (i & Hi%elem_of_py_range & j & Hj & Hg).
    exfalso. by apply (H3 i j). }
  assert (∀ i j, 0 ≤ i < B → 0 ≤ j < B → g (i + startRow) (j + startCol) ≠ num) as H3.
  { intros i j Hi Hj Hg. assert (false = true); [|done].
    apply Hin_box. exists i. split; [by apply elem_of_py_range|]. by exists j. }
  destruct (neighbour_clash_spec N mat (0 <? col) row (col - 1) num Hshape)
    as (left_clash & -> & Hleft); [intros ?%Z.ltb_lt; lia|]. simpl.
  destruct left_clash.
  { exists false. split; [done|]. split; [done|]. intros (_ & _ & _ & H4).
    destruct (proj1 Hleft eq_refl) as (Hg%Z.ltb_lt & Hne & Habs).
    exfalso. apply (H4 row (col - 1)); [left; split; [done|by left]|lia..|done|done]. }
  destruct (neighbour_clash_spec N mat (col <? N - 1) row (col + 1) num Hshape)
    as (right_clash & -> & Hright); [intros ?%Z.ltb_lt; lia|]. simpl.
  destruct right_clash.
  { exists false. split; [done|]. split; [done|]. intros (_ & _ & _ & H4).
    destruct (proj1 Hright eq_refl) as (Hg%Z.ltb_lt & Hne & Habs).
    exfalso. apply (H4 row (col + 1)); [left; split; [done|by right]|lia..|done|done]. }
  destruct (neighbour_clash_spec N mat (0 <? row) (row - 1) col num Hshape)
    as (up_clash & -> & Hup); [intros ?%Z.ltb_lt; lia|]. simpl.
  destruct up_clash.
  { exists false. split; [done|]. split; [done|]. intros (_ & _ & _ & H4).
    destruct (proj1 Hup eq_refl) as (Hg%Z.ltb_lt & Hne & Habs).
    exfalso. apply (H4 (row - 1) col); [right; split; [done|by left]|lia..|done|done]. }
  destruct (neighbour_clash_spec N mat (row <? N - 1) (row + 1) col num Hshape)
    as (down_clash & -> & Hdown); [intros ?%Z.ltb_lt; lia|]. simpl.
  destruct down_clash.
  { exists false. split; [done|]. split; [done|]. intros (_ & _ & _ & H4).
    destruct (proj1 Hdown eq_refl) as (Hg%Z.ltb_lt & Hne & Habs).
    exfalso. apply (H4 (row + 1) col); [right; split; [done|by right]|lia..|done|done]. }
  exists true. split; [done|]. split; [|done]. intros _.
  split_and!; [done..|].
  intros r' c' Hadj Hr' Hc' Hne Habs.
  destruct Hadj as [[-> [->| ->]]|[-> [->| ->]]].
  - assert (false = true); [|done]. apply Hleft. split_and!; [apply Z.ltb_lt; lia|done..].
  - assert (false = true); [|done]. apply Hright. split_and!; [apply Z.ltb_lt; lia|done..].
  - assert (false = true); [|done]. apply Hup. split_and!; [apply Z.ltb_lt; lia|done..].
  - assert (false = true); [|done]. apply Hdown. split_and!; [apply Z.ltb_lt; lia|done..].
Qed.

(** *** Backtracking undoes what it tried *)

Lemma try_nums_restores (rec : list (list Z) → option (outcome (bool * list (list Z))))
    (mat mat' : list (list Z)) (row col : Z) (nums : list Z) :
  (∀ m m', rec m = Some (Ok (false, m')) → m' = m) →
  mat_get mat row col = Ok 0 →
  try_nums rec mat row col nums = Some (Ok (false, mat')) → mat' = mat.
Proof.
  intros Hrec Hzero. induction nums as [|num nums IH]; simpl.
  - by intros [= <-].
  - destruct (isSafe mat row col num) as [[|]|]; [|done..].
    destruct (mat_set mat row col num) as [mat1|] eqn:Hset; [|done].
    destruct (rec mat1) as [[[[|] mat2]|]|] eqn:Hrun; [done| |done..].
    apply Hrec in Hrun as ->.
    by rewrite (mat_set_undo mat mat1 row col 0 num Hzero Hset).
Qed.

Lemma solveSudokuRec_unfold (fuel : nat) (mat : list (list Z)) (row col : Z) :
  solveSudokuRec (S fuel) mat row col
  = let N := Z.of_nat (length mat) in
    if (row =? N - 1) && (col =? N) then Some (Ok (true, mat))
    else
      let '(row, col) := if col =? N then (row + 1, 0) else (row, col) in
      match mat_get mat row col with
      | Err e => Some (Err e)
      | Ok v =>
          if negb (v =? 0) then solveSudokuRec fuel mat row (col + 1)
          else try_nums (λ mat1, solveSudokuRec fuel mat1 row (col + 1))
                        mat row col (py_range 1 (N + 1))
      end.
Proof. done. Qed.

Lemma solveSudokuRec_false (fuel : nat) (mat mat' : list (list Z)) (row col : Z) :
  solveSudokuRec fuel mat row col = Some (Ok (false, mat')) → mat' = mat.
Proof.
  revert mat mat' row col. induction fuel as [|fuel IH]; intros mat mat' row col; [done|].
  rewrite solveSudokuRec_unfold. cbv zeta.
  destruct ((row =? _) && (col =? _)); [done|].
  destruct (if col =? _ then _ else _) as [row1 col1].
  destruct (mat_get mat row1 col1) as [v|] eqn:Hget; [|done].
  destruct (Z.eqb_spec v 0) as [->|Hv]; simpl.
  - apply try_nums_restores; [|done]. intros m m'. apply IH.
  - apply IH.
Qed.

(** *** Placing a safe digit *)

Lemma same_box_offset (B x y : Z) :
  0 < B → x `div` B = y `div` B → ∃ i, 0 ≤ i < B ∧ y = i + (x - x `mod` B).
Proof.
  intros HB Hdiv. exists (y `mod` B). split; [by apply Z.mod_pos_bound|].
  pose proof (Z.div_mod x B ltac:(lia)). pose proof (Z.div_mod y B ltac:(lia)). nia.
Qed.

Lemma box_offset_same (B x i : Z) :
  0 < B → 0 ≤ i < B → (i + (x - x `mod` B)) `div` B = x `div` B.
Proof.
  intros HB Hi. pose proof (Z.div_mod x B ltac:(lia)).
  symmetry. apply (Z.div_unique _ _ _ i); lia.
Qed.

Lemma same_unit_sym (B r c r' c' : Z) : same_unit B r c r' c' → same_unit B r' c' r c.
Proof. unfold same_unit. intros [?|[?|[??]]]; auto. Qed.

Lemma adjacent_sym (r c r' c' : Z) : adjacent r c r' c' → adjacent r' c' r c.
Proof. unfold adjacent. lia. Qed.

(** A digit that passes the tests clashes with no filled cell. *)
Lemma safe_at_no_clash (N B : Z) (g : Z → Z → Z) (row col num r' c' : Z) :
  0 < B → safe_at N B g row col num →
  0 ≤ r' < N → 0 ≤ c' < N → g r' c' ≠ 0 →
  (same_unit B row col r' c' → g r' c' ≠ num)
  ∧ (adjacent row col r' c' → Z.abs (g r' c' - num) ≠ 1).
Proof.
  intros HB (H1 & H2 & H3 & H4) Hr' Hc' Hne. split.
  - intros [<-|[<-|[Hr Hc]]].
    + by apply H1.
    + by apply H2.
    + destruct (same_box_offset B row r' HB Hr) as (i & Hi & ->).
      destruct (same_box_offset B col c' HB Hc) as (j & Hj & ->).
      by apply H3.
  - intros Hadj. by apply H4.
Qed.

Lemma valid_grid_place (N B : Z) (g g1 : Z → Z → Z) (row col num : Z) :
  0 < B → 0 ≤ row < N → 0 ≤ col < N →
  safe_at N B g row col num →
  g1 row col = num →
  (∀ r' c', 0 ≤ r' → 0 ≤ c' → (r', c') ≠ (row, col) → g1 r' c' = g r' c') →
  valid_grid N B g → valid_grid N B g1.
Proof.
  intros HB Hrow Hcol Hsafe Hnum Hother Hvalid r c r' c' Hr Hc Hr' Hc' Hne Hg Hg'.
  destruct (decide ((r, c) = (row, col))) as [[= -> ->]|Hne1];
    destruct (decide ((r', c') = (row, col))) as [[= -> ->]|Hne2].
  - done.
  - rewrite Hnum, (Hother r' c') in * by (lia || done).
    destruct (safe_at_no_clash N B g row col num r' c' HB Hsafe Hr' Hc' Hg') as [Hu Ha].
    split; [intros Hsame ?; by apply Hu|done].
  - rewrite Hnum, (Hother r c) in * by (lia || done).
    destruct (safe_at_no_clash N B g row col num r c HB Hsafe Hr Hc Hg) as [Hu Ha].
    split.
    + intros Hsame%same_unit_sym. by apply Hu.
    + intros Hadj%adjacent_sym. specialize (Ha Hadj). lia.
  - rewrite (Hother r c), (Hother r' c') in * by (lia || done).
    by apply Hvalid.
Qed.

(** *** A successful search *)

Lemma cell_index_inj (N r c r' c' : Z) :
  0 ≤ c < N → 0 ≤ c' < N → r * N + c = r' * N + c' → r = r' ∧ c = c'.
Proof.
  intros Hc Hc' Heq.
  assert (r = r') as -> by nia. lia.
Qed.

Lemma fills_from_refl (N B p : Z) (g : Z → Z → Z) :
  N * N ≤ p → fills_from N B p g g.
Proof.
  intros Hp. split_and!; [done| |done].
  intros r c Hr Hc Hle. nia.
Qed.

(** The search went on from a filled cell. *)
Lemma fills_from_skip (N B : Z) (g g' : Z → Z → Z) (row col : Z) :
  0 ≤ col < N → g row col ≠ 0 →
  fills_from N B (row * N + col + 1) g g' → fills_from N B (row * N + col) g g'.
Proof.
  intros Hcol Hne (Hkeep & Hfill & Hvalid). split_and!; [done| |done].
  intros r c Hr Hc Hle Hzero. apply Hfill; [done..| |done].
  destruct (decide (r * N + c = row * N + col)) as [Heq|]; [|lia].
  apply cell_index_inj in Heq as [E1 E2]; [|done..]. subst r c. done.
Qed.

(** The search placed a safe digit and went on. *)
Lemma fills_from_place (N B : Z) (g g1 g' : Z → Z → Z) (row col num : Z) :
  0 < B → 0 ≤ row < N → 0 ≤ col < N → 1 ≤ num ≤ N →
  g row col = 0 → safe_at N B g row col num →
  g1 row col = num →
  (∀ r' c', 0 ≤ r' → 0 ≤ c' → (r', c') ≠ (row, col) → g1 r' c' = g r' c') →
  fills_from N B (row * N + col + 1) g1 g' → fills_from N B (row * N + col) g g'.
Proof.
  intros HB Hrow Hcol Hnum Hempty Hsafe Hplaced Hother (Hkeep & Hfill & Hvalid). split_and!.
  - intros r c Hr Hc Hne. destruct (decide ((r, c) = (row, col))) as [[= -> ->]|Hrc].
    + done.
    + assert (g1 r c = g r c) as Hsame by (apply Hother; (lia || done)).
      rewrite Hkeep; [done..|]. by rewrite Hsame.
  - intros r c Hr Hc Hle Hzero. destruct (decide ((r, c) = (row, col))) as [[= -> ->]|Hrc].
    + rewrite Hkeep; (lia || done).
    + assert (g1 r c = g r c) as Hsame by (apply Hother; (lia || done)).
      apply Hfill; [done|done| |by rewrite Hsame].
      destruct (decide (r * N + c = row * N + col)) as [Heq|]; [|lia].
      apply cell_index_inj in Heq as [E1 E2]; [|done..]. subst r c. done.
  - intros Hg. apply Hvalid. by apply (valid_grid_place N B g g1 row col num).
Qed.

Lemma try_nums_true (N B : Z)
    (rec : list (list Z) → option (outcome (bool * list (list Z))))
    (mat mat' : list (list Z)) (row col : Z) (nums : list Z) :
  grid_shape N mat → 0 < B → N = B * B → 0 ≤ row < N → 0 ≤ col < N →
  grid_fun mat row col = 0 →
  (∀ num, num ∈ nums → 1 ≤ num ≤ N) →
  (∀ m m', rec m = Some (Ok (false, m')) → m' = m) →
  (∀ m m', grid_shape N m → rec m = Some (Ok (true, m')) →
           grid_shape N m' ∧ fills_from N B (row * N + col + 1) (grid_fun m) (grid_fun m')) →
  try_nums rec mat row col nums = Some (Ok (true, mat')) →
  grid_shape N mat' ∧ fills_from N B (row * N + col) (grid_fun mat) (grid_fun mat').
Proof.
  intros Hshape HB HN Hrow Hcol Hzero Hnums Hfalse Htrue.
  assert (mat_get mat row col = Ok 0) as Hget
    by (by rewrite (mat_get_in_grid N), Hzero).
  induction nums as [|num nums IH]; simpl; [done|].
  destruct (isSafe_total N B mat row col num Hshape HB HN Hrow Hcol) as (b & -> & Hb).
  destruct b; [|apply IH; intros; apply Hnums; by right].
  destruct (mat_set_in_grid N mat row col num Hshape Hrow Hcol)
    as (mat1 & Hset & Hshape1 & Hplaced & Hother).
  rewrite Hset.
  destruct (rec mat1) as [[[[|] mat2]|]|] eqn:Hrun; [| |done..].
  - intros [= <-]. destruct (Htrue mat1 mat2 Hshape1 Hrun) as [Hshape2 Hfills].
    split; [done|].
    apply (fills_from_place N B _ (grid_fun mat1) _ row col num); try done.
    + apply Hnums. left.
    + by apply Hb.
  - apply Hfalse in Hrun as ->.
    rewrite (mat_set_undo mat mat1 row col 0 num Hget Hset).
    apply IH. intros; apply Hnums; by right.
Qed.

Lemma solveSudokuRec_true (N B : Z) (fuel : nat) (mat mat' : list (list Z)) (row col : Z) :
  grid_shape N mat → 0 < B → N = B * B → 0 ≤ row < N → 0 ≤ col ≤ N →
  solveSudokuRec fuel mat row col = Some (Ok (true, mat')) →
  grid_shape N mat' ∧ fills_from N B (row * N + col) (grid_fun mat) (grid_fun mat').
Proof.
  intros Hshape HB HN. revert mat mat' row col Hshape.
  induction fuel as [|fuel IH]; intros mat mat' row col Hshape Hrow Hcol; [done|].
  rewrite solveSudokuRec_unfold. cbv zeta. rewrite (proj1 Hshape).
  destruct (Z.eqb_spec row (N - 1)) as [Hlast|Hlast];
    destruct (Z.eqb_spec col N) as [Hend|Hend]; simpl.
  - intros [= <-]. split; [done|]. apply fills_from_refl. nia.
  - rewrite (mat_get_in_grid N) by (done || lia).
    destruct (Z.eqb_spec (grid_fun mat row col) 0) as [Hzero|Hne]; simpl.
    + apply (try_nums_true N B); try (done || lia).
      * intros num Hnum%elem_of_py_range. lia.
      * intros m m'. apply solveSudokuRec_false.
      * intros m m' Hm Hrun.
        replace (row * N + col + 1) with (row * N + (col + 1)) by lia.
        apply (IH m m' row (col + 1) Hm); (done || lia).
    + intros Hrun. destruct (IH mat mat' row (col + 1) Hshape) as [Hshape' Hfills];
        [lia|lia|done|].
      split; [done|]. apply fills_from_skip; [lia|done|].
      by replace (row * N + col + 1) with (row * N + (col + 1)) by lia.
  - replace (row * N + col) with ((row + 1) * N + 0) by lia.
    rewrite (mat_get_in_grid N) by (done || lia).
    destruct (Z.eqb_spec (grid_fun mat (row + 1) 0) 0) as [Hzero|Hne]; simpl.
    + apply (try_nums_true N B); try (done || lia).
      * intros num Hnum%elem_of_py_range. lia.
      * intros m m'. apply solveSudokuRec_false.
      * intros m m' Hm Hrun.
        replace ((row + 1) * N + 0 + 1) with ((row + 1) * N + (0 + 1)) by lia.
        apply (IH m m' (row + 1) (0 + 1) Hm); (done || lia).
    + intros Hrun. destruct (IH mat mat' (row + 1) (0 + 1) Hshape) as [Hshape' Hfills];
        [lia|lia|done|].
      split; [done|]. apply fills_from_skip; [lia|done|].
      by replace ((row + 1) * N + 0 + 1) with ((row + 1) * N + (0 + 1)) by lia.
  - rewrite (mat_get_in_grid N) by (done || lia).
    destruct (Z.eqb_spec (grid_fun mat row col) 0) as [Hzero|Hne]; simpl.
    + apply (try_nums_true N B); try (done || lia).
      * intros num Hnum%elem_of_py_range. lia.
      * intros m m'. apply solveSudokuRec_false.
      * intros m m' Hm Hrun.
        replace (row * N + col + 1) with (row * N + (col + 1)) by lia.
        apply (IH m m' row (col + 1) Hm); (done || lia).
    + intros Hrun. destruct (IH mat mat' row (col + 1) Hshape) as [Hshape' Hfills];
        [lia|lia|done|].
      split; [done|]. apply fills_from_skip; [lia|done|].
      by replace (row * N + col + 1) with (row * N + (col + 1)) by lia.
Qed.

(** *** A failed search *)

(** The digit of a solution passes the tests of [isSafe] on every grid
    that the solution completes. *)
Lemma completes_safe (N B : Z) (g sol : Z → Z → Z) (row col : Z) :
  0 < B → 0 ≤ row < N → 0 ≤ col < N → N = B * B →
  completes N g sol → valid_grid N B sol → g row col = 0 →
  safe_at N B g row col (sol row col).
Proof.
  intros HB Hrow Hcol HN [Hdigits Hkeep] Hvalid Hzero.
  assert (∀ r' c', 0 ≤ r' < N → 0 ≤ c' < N → g r' c' ≠ 0 →
            (r', c') ≠ (row, col) ∧ sol r' c' = g r' c'
            ∧ (same_unit B row col r' c' → sol row col ≠ sol r' c')
            ∧ (adjacent row col r' c' → Z.abs (sol r' c' - sol row col) ≠ 1)) as Hcell.
  { intros r' c' Hr' Hc' Hne.
    assert ((r', c') ≠ (row, col)) as Hrc by (intros [= -> ->]; done).
    split_and!; [done|by apply Hkeep|..];
      apply (Hvalid row col r' c'); try done;
      try (pose proof (Hdigits row col Hrow Hcol); lia);
      try (pose proof (Hdigits r' c' Hr' Hc'); lia); by intros [= -> ->]. }
  pose proof (Hdigits row col Hrow Hcol) as Hv.
  split_and!.
  - intros x Hx Hg. destruct (Hcell row x) as (_ & Hs & Hu & _); [done|done|lia|].
    apply Hu; [by left|]. by rewrite Hs.
  - intros x Hx Hg. destruct (Hcell x col) as (_ & Hs & Hu & _); [done|done|lia|].
    apply Hu; [right; by left|]. by rewrite Hs.
  - intros i j Hi Hj Hg.
    destruct (Hcell (i + (row - row `mod` B)) (j + (col - col `mod` B)))
      as (_ & Hs & Hu & _); [subst N; apply box_start_bounds; lia..|lia|].
    apply Hu; [|by rewrite Hs].
    right; right. by rewrite !box_offset_same.
  - intros r' c' Hadj Hr' Hc' Hne.
    destruct (Hcell r' c') as (_ & Hs & _ & Ha); [done..|].
    rewrite <- Hs. by apply Ha.
Qed.

Lemma completes_place (N : Z) (g g1 sol : Z → Z → Z) (row col : Z) :
  completes N g sol →
  g1 row col = sol row col →
  (∀ r' c', 0 ≤ r' → 0 ≤ c' → (r', c') ≠ (row, col) → g1 r' c' = g r' c') →
  completes N g1 sol.
Proof.
  intros [Hdigits Hkeep] Hplaced Hother. split; [done|].
  intros r c Hr Hc Hne. destruct (decide ((r, c) = (row, col))) as [[= -> ->]|Hrc]; [done|].
  assert (g1 r c = g r c) as Hsame by (apply Hother; (lia || done)).
  rewrite Hsame in *. by apply Hkeep.
Qed.

Lemma try_nums_finds (N B : Z)
    (rec : list (list Z) → option (outcome (bool * list (list Z))))
    (mat mat' : list (list Z)) (row col : Z) (nums : list Z) (sol : Z → Z → Z) :
  grid_shape N mat → 0 < B → N = B * B → 0 ≤ row < N → 0 ≤ col < N →
  grid_fun mat row col = 0 →
  completes N (grid_fun mat) sol → valid_grid N B sol →
  sol row col ∈ nums →
  (∀ m m', rec m = Some (Ok (false, m')) → m' = m) →
  (∀ m m', grid_shape N m → completes N (grid_fun m) sol →
           rec m ≠ Some (Ok (false, m'))) →
  try_nums rec mat row col nums ≠ Some (Ok (false, mat')).
Proof.
  intros Hshape HB HN Hrow Hcol Hzero Hcompl Hvalid Hin Hfalse Hfinds.
  assert (mat_get mat row col = Ok 0) as Hget
    by (by rewrite (mat_get_in_grid N), Hzero).
  pose proof (completes_safe N B _ sol row col HB Hrow Hcol HN Hcompl Hvalid Hzero) as Hsafe.
  induction nums as [|num nums IH]; simpl; [by apply elem_of_nil in Hin|].
  destruct (isSafe_total N B mat row col num Hshape HB HN Hrow Hcol) as (b & -> & Hb).
  destruct b.
  - destruct (mat_set_in_grid N mat row col num Hshape Hrow Hcol)
      as (mat1 & Hset & Hshape1 & Hplaced & Hother).
    rewrite Hset.
    destruct (rec mat1) as [[[[|] mat2]|]|] eqn:Hrun; [done| |done..].
    pose proof (Hfalse _ _ Hrun) as ->.
    rewrite (mat_set_undo mat mat1 row col 0 num Hget Hset).
    apply elem_of_cons in Hin as [Heq|Hin]; [|by apply IH].
    exfalso. apply (Hfinds mat1 mat1 Hshape1); [|done].
    apply (completes_place N (grid_fun mat) _ sol row col); [done|by rewrite Hplaced|done].
  - apply elem_of_cons in Hin as [Heq|Hin]; [|by apply IH].
    subst num. by apply Hb in Hsafe.
Qed.

Lemma solveSudokuRec_finds (N B : Z) (fuel : nat) (mat mat' : list (list Z)) (row col : Z)
    (sol : Z → Z → Z) :
  grid_shape N mat → 0 < B → N = B * B → 0 ≤ row < N → 0 ≤ col ≤ N →
  completes N (grid_fun mat) sol → valid_grid N B sol →
  solveSudokuRec fuel mat row col ≠ Some (Ok (false, mat')).
Proof.
  intros Hshape HB HN Hrow Hcol Hcompl Hvalid.
  revert mat mat' row col Hshape Hrow Hcol Hcompl.
  induction fuel as [|fuel IH]; intros mat mat' row col Hshape Hrow Hcol Hcompl; [done|].
  rewrite solveSudokuRec_unfold. cbv zeta. rewrite (proj1 Hshape).
  assert (∀ row1 col1, 0 ≤ row1 < N → 0 ≤ col1 < N →
            match mat_get mat row1 col1 with
            | Err e => Some (Err e)
            | Ok v =>
                if negb (v =? 0) then solveSudokuRec fuel mat row1 (col1 + 1)
                else try_nums (λ mat1, solveSudokuRec fuel mat1 row1 (col1 + 1))
                              mat row1 col1 (py_range 1 (N + 1))
            end ≠ Some (Ok (false, mat'))) as Hcell.
  { intros row1 col1 Hrow1 Hcol1. rewrite (mat_get_in_grid N) by done.
    destruct (Z.eqb_spec (grid_fun mat row1 col1) 0) as [Hzero|Hne]; simpl.
    - apply (try_nums_finds N B _ _ _ _ _ _ sol); try done.
      + apply elem_of_py_range. pose proof (proj1 Hcompl row1 col1 Hrow1 Hcol1). lia.
      + intros m m'. apply solveSudokuRec_false.
      + intros m m' Hm Hc. apply IH; (done || lia).
    - apply IH; (done || lia). }
  destruct (Z.eqb_spec row (N - 1)) as [Hlast|Hlast];
    destruct (Z.eqb_spec col N) as [Hend|Hend]; simpl; [done|..]; apply Hcell; lia.
Qed.

(** *** The search returns *)

Lemma try_nums_total (N B : Z)
    (rec : list (list Z) → option (outcome (bool * list (list Z))))
    (mat : list (list Z)) (row col : Z) (nums : list Z) :
  grid_shape N mat → 0 < B → N = B * B → 0 ≤ row < N → 0 ≤ col < N →
  grid_fun mat row col = 0 →
  (∀ m m', rec m = Some (Ok (false, m')) → m' = m) →
  (∀ m, grid_shape N m → ∃ b m', rec m = Some (Ok (b, m'))) →
  ∃ b mat', try_nums rec mat row col nums = Some (Ok (b, mat')).
Proof.
  intros Hshape HB HN Hrow Hcol Hzero Hfalse Htotal.
  assert (mat_get mat row col = Ok 0) as Hget
    by (by rewrite (mat_get_in_grid N), Hzero).
  induction nums as [|num nums IH]; simpl; [by eauto|].
  destruct (isSafe_total N B mat row col num Hshape HB HN Hrow Hcol) as (b & -> & Hb).
  destruct b; [|done].
  destruct (mat_set_in_grid N mat row col num Hshape Hrow Hcol)
    as (mat1 & Hset & Hshape1 & Hplaced & Hother).
  rewrite Hset. destruct (Htotal mat1 Hshape1) as (b & mat2 & Hrun). rewrite Hrun.
  destruct b; [by eauto|].
  pose proof (Hfalse _ _ Hrun) as ->.
  by rewrite (mat_set_undo mat mat1 row col 0 num Hget Hset).
Qed.

Lemma solveSudokuRec_total (N B : Z) (fuel : nat) (mat : list (list Z)) (row col : Z) :
  grid_shape N mat → 0 < B → N = B * B → 0 ≤ row < N → 0 ≤ col ≤ N →
  (Z.to_nat (N * N - (row * N + col)) + 1 ≤ fuel)%nat →
  ∃ b mat', solveSudokuRec fuel mat row col = Some (Ok (b, mat')).
Proof.
  intros Hshape HB HN. revert mat row col Hshape.
  induction fuel as [|fuel IH]; intros mat row col Hshape Hrow Hcol Hfuel; [lia|].
  rewrite solveSudokuRec_unfold. cbv zeta. rewrite (proj1 Hshape).
  assert (∀ row1 col1, 0 ≤ row1 < N → 0 ≤ col1 < N →
            row1 * N + col1 = row * N + col →
            ∃ b mat',
              match mat_get mat row1 col1 with
              | Err e => Some (Err e)
              | Ok v =>
                  if negb (v =? 0) then solveSudokuRec fuel mat row1 (col1 + 1)
                  else try_nums (λ mat1, solveSudokuRec fuel mat1 row1 (col1 + 1))
                                mat row1 col1 (py_range 1 (N + 1))
              end = Some (Ok (b, mat'))) as Hcell.
  { intros row1 col1 Hrow1 Hcol1 Hpos. rewrite (mat_get_in_grid N) by done.
    assert (Z.to_nat (N * N - (row1 * N + (col1 + 1))) + 1 ≤ fuel)%nat as Hfuel' by nia.
    destruct (Z.eqb_spec (grid_fun mat row1 col1) 0) as [Hzero|Hne]; simpl.
    - apply (try_nums_total N B); try done.
      + intros m m'. apply solveSudokuRec_false.
      + intros m Hm. apply IH; (done || lia).
    - apply IH; (done || lia). }
  destruct (Z.eqb_spec row (N - 1)) as [Hlast|Hlast];
    destruct (Z.eqb_spec col N) as [Hend|Hend]; simpl; [by eauto|..]; apply Hcell; lia.
Qed.

End backtracking.

Section solved_grids.

(** An injective map of [0..n-1] into [1..n] takes every value. *)
Lemma injective_onto (n : Z) (f : Z → Z) :
  (∀ k, 0 ≤ k < n → 1 ≤ f k ≤ n) →
  (∀ k k', 0 ≤ k < n → 0 ≤ k' < n → f k = f k' → k = k') →
  ∀ v, 1 ≤ v ≤ n → ∃ k, 0 ≤ k < n ∧ f k = v.
Proof.
  intros Hrange Hinj v Hv.
  assert (f <$> seqZ 0 n ≡ₚ seqZ 1 n) as Hperm.
  { apply submseteq_length_Permutation.
    - apply NoDup_submseteq.
      + apply NoDup_fmap_2_strong; [|apply NoDup_seqZ].
        intros k k' Hk%elem_of_seqZ Hk'%elem_of_seqZ. apply Hinj; lia.
      + intros x (k & -> & Hk%elem_of_seqZ)%list_elem_of_fmap.
        apply elem_of_seqZ. specialize (Hrange k). lia.
    - by rewrite length_fmap, !length_seqZ. }
  assert (v ∈ f <$> seqZ 0 n) as (k & -> & Hk%elem_of_seqZ)%list_elem_of_fmap
    by (rewrite Hperm; apply elem_of_seqZ; lia).
  exists k. split; [lia|done].
Qed.

Lemma solved_valid (N B : Z) (sol : Z → Z → Z) :
  0 < B → N = B * B →
  digits_in_range N sol → once_in_row N sol → once_in_col N sol → once_in_box N B sol →
  non_consecutive N sol →
  valid_grid N B sol.
Proof.
  intros HB HN Hdig Hrow Hcol Hbox Hadj r c r' c' Hr Hc Hr' Hc' Hne _ _.
  pose proof (Hdig r c Hr Hc) as Hv. split.
  - intros [<-|[<-|[Hbr Hbc]]] Heq.
    + destruct (Hrow r (sol r c)) as (c0 & _ & _ & Huniq); [done..|].
      pose proof (Huniq c Hc eq_refl). pose proof (Huniq c' Hc' (eq_sym Heq)).
      apply Hne. f_equal. lia.
    + destruct (Hcol c (sol r c)) as (r0 & _ & _ & Huniq); [done..|].
      pose proof (Huniq r Hr eq_refl). pose proof (Huniq r' Hr' (eq_sym Heq)).
      apply Hne. f_equal. lia.
    + assert (0 ≤ r `div` B < B)
        by (split; [apply Z.div_pos; lia|apply Z.div_lt_upper_bound; lia]).
      assert (0 ≤ c `div` B < B)
        by (split; [apply Z.div_pos; lia|apply Z.div_lt_upper_bound; lia]).
      destruct (Hbox (r `div` B) (c `div` B) (sol r c)) as (i & j & _ & _ & _ & Huniq);
        [done..|].
      pose proof (Z.div_mod r B ltac:(lia)). pose proof (Z.div_mod r' B ltac:(lia)).
      pose proof (Z.div_mod c B ltac:(lia)). pose proof (Z.div_mod c' B ltac:(lia)).
      pose proof (Z.mod_pos_bound r B HB). pose proof (Z.mod_pos_bound r' B HB).
      pose proof (Z.mod_pos_bound c B HB). pose proof (Z.mod_pos_bound c' B HB).
      destruct (Huniq (r `mod` B) (c `mod` B)) as [E1 E2]; [done..| |].
      { f_equal; lia. }
      destruct (Huniq (r' `mod` B) (c' `mod` B)) as [E3 E4]; [done..| |].
      { rewrite Heq. f_equal; lia. }
      apply Hne. f_equal; lia.
  - intros Hadjacent Habs.
    destruct Hadjacent as [[-> [->| ->]]|[-> [->| ->]]].
    + apply (Hadj r (c - 1) r c); [done|lia|left; lia|lia|lia|]. unfold consecutive. lia.
    + apply (Hadj r c r (c + 1)); [done|lia|left; lia|lia|lia|]. unfold consecutive. lia.
    + apply (Hadj (r - 1) c r c); [lia|done|right; lia|lia|lia|]. unfold consecutive. lia.
    + apply (Hadj r c (r + 1) c); [done|done|right; lia|lia|lia|]. unfold consecutive. lia.
Qed.

Lemma valid_solved (N B : Z) (sol : Z → Z → Z) :
  0 < B → N = B * B →
  digits_in_range N sol → valid_grid N B sol →
  once_in_row N sol ∧ once_in_col N sol ∧ once_in_box N B sol ∧ non_consecutive N sol.
Proof.
  intros HB HN Hdig Hvalid.
  assert (∀ r c r' c', 0 ≤ r < N → 0 ≤ c < N → 0 ≤ r' < N → 0 ≤ c' < N →
            same_unit B r c r' c' → sol r c = sol r' c' → r = r' ∧ c = c') as Hinj.
  { intros r c r' c' Hr Hc Hr' Hc' Hunit Heq.
    destruct (decide ((r, c) = (r', c'))) as [[= -> ->]|Hne]; [done|].
    pose proof (Hdig r c Hr Hc). pose proof (Hdig r' c' Hr' Hc').
    destruct (Hvalid r c r' c') as [Hu _]; try (done || lia). by apply Hu in Hunit. }
  split_and!.
  - intros r v Hr Hv.
    destruct (injective_onto N (λ c, sol r c)) with (v := v) as (c & Hc & Hsol); try done.
    + intros c Hc. by apply Hdig.
    + intros c c' Hc Hc' Heq. apply (Hinj r c r c'); try done. by left.
    + exists c. split_and!; [lia..|done|]. intros c' Hc' Hsol'.
      apply (Hinj r c' r c); try done; [by left|congruence].
  - intros c v Hc Hv.
    destruct (injective_onto N (λ r, sol r c)) with (v := v) as (r & Hr & Hsol); try done.
    + intros r Hr. by apply Hdig.
    + intros r r' Hr Hr' Heq. apply (Hinj r c r' c); try done. right; by left.
    + exists r. split_and!; [lia..|done|]. intros r' Hr' Hsol'.
      apply (Hinj r' c r c); try done; [right; by left|congruence].
  - intros br bc v Hbr Hbc Hv.
    assert (∀ k, 0 ≤ k < N → 0 ≤ k `div` B < B ∧ 0 ≤ k `mod` B < B) as Hkb.
    { intros k Hk. split; [|by apply Z.mod_pos_bound].
      split; [apply Z.div_pos; lia|apply Z.div_lt_upper_bound; lia]. }
    assert (∀ b i, 0 ≤ i < B → (b * B + i) `div` B = b) as Hdiv
      by (intros b i Hi; symmetry; apply (Z.div_unique _ _ _ i); lia).
    assert (∀ b i, 0 ≤ b < B → 0 ≤ i < B → 0 ≤ b * B + i < N) as Hin
      by (intros b i Hb Hi; subst N; nia).
    destruct (injective_onto N (λ k, sol (br * B + k `div` B) (bc * B + k `mod` B)))
      with (v := v) as (k & Hk & Hsol); try done.
    + intros k Hk. destruct (Hkb k Hk). apply Hdig; by apply Hin.
    + intros k k' Hk Hk' Heq. cbv beta in Heq.
      destruct (Hkb k Hk) as [??], (Hkb k' Hk') as [??].
      assert (same_unit B (br * B + k `div` B) (bc * B + k `mod` B)
                          (br * B + k' `div` B) (bc * B + k' `mod` B)) as Hu
        by (right; right; by rewrite !Hdiv).
      destruct (Hinj (br * B + k `div` B) (bc * B + k `mod` B)
                     (br * B + k' `div` B) (bc * B + k' `mod` B)
                  ltac:(by apply Hin) ltac:(by apply Hin) ltac:(by apply Hin)
                  ltac:(by apply Hin) Hu Heq) as [E1 E2].
      pose proof (Z.div_mod k B ltac:(lia)). pose proof (Z.div_mod k' B ltac:(lia)). nia.
    + cbv beta in Hsol. destruct (Hkb k Hk) as [??]. exists (k `div` B), (k `mod` B).
      split_and!; [lia..|done|]. intros i' j' Hi' Hj' Hsol'.
      assert (same_unit B (br * B + i') (bc * B + j')
                          (br * B + k `div` B) (bc * B + k `mod` B)) as Hu
        by (right; right; by rewrite !Hdiv).
      assert (sol (br * B + i') (bc * B + j')
              = sol (br * B + k `div` B) (bc * B + k `mod` B)) as He by congruence.
      destruct (Hinj (br * B + i') (bc * B + j')
                     (br * B + k `div` B) (bc * B + k `mod` B)
                  ltac:(by apply Hin) ltac:(by apply Hin) ltac:(by apply Hin)
                  ltac:(by apply Hin) Hu He) as [E1 E2].
      lia.
  - intros r c r' c' Hr Hc Hrd Hr' Hc' Hcons.
    assert (0 ≤ r' ∧ 0 ≤ c') as [??] by (unfold right_or_down in Hrd; lia).
    pose proof (Hdig r c Hr Hc). pose proof (Hdig r' c' ltac:(lia) ltac:(lia)).
    destruct (Hvalid r c r' c') as [_ Ha]; try (done || lia).
    { unfold right_or_down in Hrd. intros [= -> ->]. lia. }
    apply Ha; [unfold right_or_down in Hrd; unfold adjacent; lia|].
    unfold consecutive in Hcons. lia.
Qed.

End solved_grids.

Section backtracking_top.
Import backtracking_solver.

(** X18.  On an [N]×[N] grid with [N = B²] and a cell [(row, col)] of
    the grid, [isSafe] raises no exception and returns [True] exactly when
    [num] is in no cell of the row, of the column and of the [B]×[B] box of
    the cell, and no filled orthogonal neighbour of the cell holds
    [num + 1] or [num - 1]. *)
Theorem isSafe_tests (N B : Z) (mat : list (list Z)) (row col num : Z) :
  grid_shape N mat → 0 < B → N = B * B → 0 ≤ row < N → 0 ≤ col < N →
  ∃ b, isSafe mat row col num = Ok b
       ∧ (b = true ↔ safe_at N B (grid_fun mat) row col num).
Proof. exact (isSafe_total N B mat row col num). Qed.

Lemma sample_grid_shape : grid_shape 9 sample_solution.
Proof. apply (bool_decide_unpack _). vm_compute. exact I. Qed.

Lemma isSafe_tests_witness :
  ∃ b, isSafe sample_solution 4 4 2 = Ok b
       ∧ (b = true ↔ safe_at 9 3 (grid_fun sample_solution) 4 4 2).
Proof.
  apply (isSafe_tests 9 3 sample_solution 4 4 2 sample_grid_shape); lia.
Defined.

(** X19.  Backtracking undoes what it tried: when [solveSudokuRec]
    returns [False], the grid is as it was before the call. *)
Theorem failed_search_restores_grid (fuel : nat) (mat mat' : list (list Z)) (row col : Z) :
  solveSudokuRec fuel mat row col = Some (Ok (false, mat')) → mat' = mat.
Proof. exact (solveSudokuRec_false fuel mat mat' row col). Qed.

Lemma failed_search_restores_grid_witness :
  solveSudokuRec 30 (replicate 4 (replicate 4 0)) 0 0
  = Some (Ok (false, replicate 4 (replicate 4 0))).
Proof.
  assert (∃ mat', solveSudokuRec 30 (replicate 4 (replicate 4 0)) 0 0
                  = Some (Ok (false, mat'))) as [mat' Hrun]
    by (eexists; vm_compute; reflexivity).
  rewrite Hrun. do 3 f_equal.
  exact (failed_search_restores_grid 30 (replicate 4 (replicate 4 0)) mat' 0 0 Hrun).
Defined.

(** X20.  When [solveSudoku] returns [True] on an [N]×[N] grid with
    [N = B²], the grid it leaves is [N]×[N], every cell that was filled
    holds what it held, every cell that was blank holds a digit in
    [1..N], and if no two filled cells of the given grid broke a rule then
    no two cells of the final grid do. *)
Theorem solveSudoku_sound (N B : Z) (fuel : nat) (mat mat' : list (list Z)) :
  grid_shape N mat → 0 < B → N = B * B →
  solveSudoku fuel mat = Some (Ok (true, mat')) →
  grid_shape N mat'
  ∧ (∀ r c, 0 ≤ r < N → 0 ≤ c < N →
            if decide (grid_fun mat r c = 0) then 1 ≤ grid_fun mat' r c ≤ N
            else grid_fun mat' r c = grid_fun mat r c)
  ∧ (valid_grid N B (grid_fun mat) → valid_grid N B (grid_fun mat')).
Proof.
  intros Hshape HB HN Hrun.
  destruct (solveSudokuRec_true N B fuel mat mat' 0 0 Hshape HB HN) as
    (Hshape' & Hkeep & Hfill & Hvalid); [nia|nia|done|].
  split_and!; [done| |done].
  intros r c Hr Hc. destruct (decide (grid_fun mat r c = 0)) as [Hzero|Hne].
  - apply Hfill; (done || nia).
  - by apply Hkeep.
Qed.

Lemma solveSudoku_sound_witness :
  grid_shape 9 sample_solution
  ∧ (∀ r c, 0 ≤ r < 9 → 0 ≤ c < 9 →
            if decide (grid_fun sample_partial r c = 0)
            then 1 ≤ grid_fun sample_solution r c ≤ 9
            else grid_fun sample_solution r c = grid_fun sample_partial r c)
  ∧ (valid_grid 9 3 (grid_fun sample_partial) → valid_grid 9 3 (grid_fun sample_solution)).
Proof.
  assert (grid_shape 9 sample_partial) as Hshape
    by (apply (bool_decide_unpack _); vm_compute; exact I).
  assert (solveSudoku 100 sample_partial = Some (Ok (true, sample_solution))) as Hrun
    by (vm_compute; reflexivity).
  exact (solveSudoku_sound 9 3 100 sample_partial sample_solution Hshape
           ltac:(lia) eq_refl Hrun).
Defined.

(** X21.  When [solveSudoku] returns [False] on an [N]×[N] grid with
    [N = B²], the puzzle has no solution: no grid of digits in [1..N] that
    keeps the filled cells is free of rule violations. *)
Theorem solveSudoku_complete (N B : Z) (fuel : nat) (mat mat' : list (list Z)) :
  grid_shape N mat → 0 < B → N = B * B →
  solveSudoku fuel mat = Some (Ok (false, mat')) →
  ¬ ∃ sol, completes N (grid_fun mat) sol ∧ valid_grid N B sol.
Proof.
  intros Hshape HB HN Hrun (sol & Hcompl & Hvalid).
  by apply (solveSudokuRec_finds N B fuel mat mat' 0 0 sol Hshape HB HN
              ltac:(nia) ltac:(nia) Hcompl Hvalid).
Qed.

Lemma solveSudoku_complete_witness :
  ¬ ∃ sol, completes 4 (grid_fun (replicate 4 (replicate 4 0))) sol ∧ valid_grid 4 2 sol.
Proof.
  assert (grid_shape 4 (replicate 4 (replicate 4 0))) as Hshape
    by (apply (bool_decide_unpack _); vm_compute; exact I).
  assert (solveSudoku 30 (replicate 4 (replicate 4 0))
          = Some (Ok (false, replicate 4 (replicate 4 0)))) as Hrun
    by (vm_compute; reflexivity).
  exact (solveSudoku_complete 4 2 30 _ _ Hshape ltac:(lia) eq_refl Hrun).
Defined.

(** X22.  On an [N]×[N] grid with [N = B²], [solveSudoku] raises no
    exception and returns, within a recursion depth of [N² + 1]. *)
Theorem solveSudoku_returns (N B : Z) (fuel : nat) (mat : list (list Z)) :
  grid_shape N mat → 0 < B → N = B * B →
  (Z.to_nat (N * N) + 1 ≤ fuel)%nat →
  ∃ solved mat', solveSudoku fuel mat = Some (Ok (solved, mat')).
Proof.
  intros Hshape HB HN Hfuel.
  apply (solveSudokuRec_total N B fuel mat 0 0 Hshape HB HN); [nia|nia|].
  by replace (N * N - (0 * N + 0)) with (N * N) by lia.
Qed.

Lemma solveSudoku_returns_witness :
  ∃ solved mat', solveSudoku 82 sample_partial = Some (Ok (solved, mat')).
Proof.
  apply (solveSudoku_returns 9 3 82 sample_partial); [|lia|reflexivity|simpl; lia].
  apply (bool_decide_unpack _). vm_compute. exact I.
Defined.

(** *** A grid without blanks *)

Lemma solveSudokuRec_full (N : Z) (fuel : nat) (mat : list (list Z)) (row col : Z) :
  grid_shape N mat →
  (∀ r c, 0 ≤ r < N → 0 ≤ c < N → grid_fun mat r c ≠ 0) →
  0 ≤ row < N → 0 ≤ col ≤ N →
  (Z.to_nat (N * N - (row * N + col)) + 1 ≤ fuel)%nat →
  solveSudokuRec fuel mat row col = Some (Ok (true, mat)).
Proof.
  intros Hshape Hfull. revert row col.
  induction fuel as [|fuel IH]; intros row col Hrow Hcol Hfuel; [lia|].
  rewrite solveSudokuRec_unfold. cbv zeta. rewrite (proj1 Hshape).
  assert (∀ row1 col1, 0 ≤ row1 < N → 0 ≤ col1 < N →
            row1 * N + col1 = row * N + col →
            match mat_get mat row1 col1 with
            | Err e => Some (Err e)
            | Ok v =>
                if negb (v =? 0) then solveSudokuRec fuel mat row1 (col1 + 1)
                else try_nums (λ mat1, solveSudokuRec fuel mat1 row1 (col1 + 1))
                              mat row1 col1 (py_range 1 (N + 1))
            end = Some (Ok (true, mat))) as Hcell.
  { intros row1 col1 Hrow1 Hcol1 Hpos. rewrite (mat_get_in_grid N) by done.
    destruct (Z.eqb_spec (grid_fun mat row1 col1) 0) as [Hzero|Hne]; simpl.
    - by apply Hfull in Hzero.
    - apply IH; [done|lia|nia]. }
  destruct (Z.eqb_spec row (N - 1)) as [Hlast|Hlast];
    destruct (Z.eqb_spec col N) as [Hend|Hend]; simpl; [done|..]; apply Hcell; lia.
Qed.

(** X23.  [solveSudoku] never looks at the given digits for rule
    violations: on an [N]×[N] grid without blanks it returns [True] and
    leaves the grid as it is, whatever the digits are. *)
Theorem full_grid_accepted_unchecked (N : Z) (fuel : nat) (mat : list (list Z)) :
  grid_shape N mat → 0 < N →
  (∀ r c, 0 ≤ r < N → 0 ≤ c < N → grid_fun mat r c ≠ 0) →
  (Z.to_nat (N * N) + 1 ≤ fuel)%nat →
  solveSudoku fuel mat = Some (Ok (true, mat)).
Proof.
  intros Hshape HN Hfull Hfuel.
  apply (solveSudokuRec_full N); [done|done|lia|lia|].
  by replace (N * N - (0 * N + 0)) with (N * N) by lia.
Qed.

Lemma full_grid_accepted_unchecked_witness :
  solveSudoku 82 (replicate 9 (replicate 9 5)) = Some (Ok (true, replicate 9 (replicate 9 5))).
Proof.
  apply (full_grid_accepted_unchecked 9 82 (replicate 9 (replicate 9 5))); [|lia| |simpl; lia].
  - apply (bool_decide_unpack _). vm_compute. exact I.
  - intros r c Hr Hc.
    assert (Forall (λ r, Forall (λ c, grid_fun (replicate 9 (replicate 9 5)) r c ≠ 0)
                           (py_range 0 9)) (py_range 0 9)) as Hall
      by (apply (bool_decide_unpack _); vm_compute; exact I).
    by apply (range_Forall _ _ _ (range_Forall _ _ _ Hall r Hr) c Hc).
Defined.

End backtracking_top.

Section comparison.
Import backtracking_solver.

(** *** Reading the puzzle *)

Lemma mapM_outcome_fmap {A B : Type} (f : A → outcome B) (g : A → B) (l : list A) :
  Forall (λ x, f x = Ok (g x)) l → mapM f l = Ok (g <$> l).
Proof.
  induction 1 as [|x l Hx _ IH]; [done|]. simpl. rewrite Hx. simpl. by rewrite IH.
Qed.

Lemma filter_nonblank (input : list (list token)) :
  Forall (λ line, line ≠ []) input → filter (λ line, line ≠ []) input = input.
Proof.
  induction 1 as [|line input Hline _ IH]; [done|].
  rewrite filter_cons, decide_True by done. by rewrite IH.
Qed.

(** A square file of integers is read as it is. *)
Lemma read_puzzle_square (text : list (list token)) :
  let N := Z.of_nat (length text) in
  square_grid text → cells_readable text →
  main.read_puzzle text = Ok (tokens_grid text)
  ∧ grid_shape N (tokens_grid text).
Proof.
  intros N Hsquare Hread. split.
  - unfold main.read_puzzle, tokens_grid. rewrite filter_nonblank.
    + apply mapM_outcome_fmap. apply Forall_lookup_2. intros r line Hline.
      apply mapM_outcome_fmap. apply Forall_lookup_2. intros c tok Htok.
      pose proof (Forall_lookup_1 _ _ _ _ Hsquare Hline) as Hlen. cbv beta in Hlen.
      pose proof (lookup_lt_Some _ _ _ Hline). pose proof (lookup_lt_Some _ _ _ Htok).
      destruct (Hread (Z.of_nat r) (Z.of_nat c)) as (line' & z & Hline' & Htok'); [lia..|].
      rewrite Nat2Z.id in Hline', Htok'. rewrite Hline in Hline'. injection Hline' as <-.
      rewrite Htok in Htok'. by injection Htok' as ->.
    + apply Forall_forall. intros line Hline ->.
      pose proof (proj1 (Forall_forall _ _) Hsquare [] Hline) as Hlen. simpl in Hlen.
      destruct text; [by apply elem_of_nil in Hline|done].
  - unfold tokens_grid. split; [by rewrite length_fmap|].
    apply Forall_fmap. eapply Forall_impl; [exact Hsquare|].
    intros line Hlen. simpl. rewrite length_fmap. unfold N. by rewrite Hlen.
Qed.

Lemma read_puzzle_cell (text : list (list token)) (r c z : Z) (line : list token) :
  0 ≤ r → 0 ≤ c →
  text !! Z.to_nat r = Some line → line !! Z.to_nat c = Some (TInt z) →
  grid_fun (tokens_grid text) r c = z.
Proof.
  intros Hr Hc Hline Htok. unfold grid_fun, grid_cell, tokens_grid.
  rewrite list_lookup_fmap, Hline. simpl. by rewrite list_lookup_fmap, Htok.
Qed.

(** X24.  A blank line in the puzzle file is read differently by the two
    paths of the comparison: [read_puzzle] reads the file as if the line
    were not there, while [to_cnf] counts the line as a row of the grid
    and raises an exception. *)
Theorem blank_line_read_differently (lines1 lines2 : list (list token)) :
  main.read_puzzle (lines1 ++ [] :: lines2) = main.read_puzzle (lines1 ++ lines2)
  ∧ ∃ e, solving_encoder.to_cnf (lines1 ++ [] :: lines2) = Raise e.
Proof.
  split.
  - unfold main.read_puzzle. rewrite !filter_app, filter_cons. by rewrite decide_False by auto.
  - destruct (solving_encoder.to_cnf (lines1 ++ [] :: lines2)) as [[cls nv]|e] eqn:Hcnf;
      [|by exists e].
    exfalso.
    destruct (solving_to_cnf_inv _ _ _ Hcnf) as (_ & _ & _ & _ & _ & ->).
    destruct (proj1 (solving_to_cnf_Ret_iff _) (ex_intro _ cls Hcnf)) as [HN Hread].
    rewrite length_app in HN. simpl in HN.
    destruct (Hread (Z.of_nat (length lines1)) 0) as (line & z & Hline & Htok);
      [rewrite length_app; simpl; lia..|].
    rewrite Nat2Z.id, list_lookup_middle in Hline by done. by injection Hline as <-.
Qed.

(** *** The two solvers on one file *)

(** The solutions of the puzzle are the valid grids that complete the grid
    read from the file. *)
Lemma solves_puzzle_completes (text : list (list token)) (sol : Z → Z → Z) :
  length text = 9%nat → square_grid text → clues_in_range text → cells_readable text →
  solves_puzzle text sol
  ↔ completes 9 (grid_fun (tokens_grid text)) sol ∧ valid_grid 9 3 sol.
Proof.
  intros Hlen Hsquare Hclues Hread.
  assert (∀ r c, 0 ≤ r < 9 → 0 ≤ c < 9 →
            ∃ line z, text !! Z.to_nat r = Some line ∧ line !! Z.to_nat c = Some (TInt z)
                      ∧ grid_fun (tokens_grid text) r c = z ∧ 0 ≤ z ≤ 9) as Hcell.
  { intros r c Hr Hc.
    destruct (Hread r c) as (line & z & Hline & Htok); [rewrite Hlen; lia..|].
    exists line, z. do 2 (split; [done|]).
    split; [apply (read_puzzle_cell text r c z line); (done || lia)|].
    pose proof (clues_in_range_lookup text r c z line Hclues Hline Htok) as Hz.
    by rewrite Hlen in Hz. }
  split.
  - intros (Hdig & Hrow & Hcol & Hbox & Hadj & Hkeep). split.
    + split; [done|]. intros r c Hr Hc Hne.
      destruct (Hcell r c Hr Hc) as (line & z & Hline & Htok & Hg & Hz).
      rewrite Hg in *. apply (Hkeep r c line z); (done || lia).
    + by apply solved_valid.
  - intros [[Hdig Hkeep] Hvalid].
    destruct (valid_solved 9 3 sol) as (Hrow & Hcol & Hbox & Hadj); [lia|done|done|done|].
    split_and!; try done.
    intros r c line z Hr Hc Hline Htok Hz.
    destruct (Hcell r c Hr Hc) as (line' & z' & Hline' & Htok' & Hg & _).
    rewrite Hline in Hline'. injection Hline' as <-.
    rewrite Htok in Htok'. injection Htok' as <-.
    rewrite Hkeep; [done..|lia].
Qed.

(** X25.  On a 9×9 file of integers in [0..9] whose clues break no rule
    among themselves, the backtracking path ([solve_with_backtracking]
    with a recursion depth of 82) and the SAT path ([solve_cnf] on the
    clauses of [to_cnf], with enough fuel) return the same status, and the
    status is ["SAT"] exactly when the puzzle has a solution. *)
Theorem solvers_agree (fuel_dpll fuel_bt : nat) (text : list (list token))
    (cls : list (list Z)) (nv : Z) :
  length text = 9%nat → square_grid text → clues_in_range text →
  solving_encoder.to_cnf text = Ret (cls, nv) →
  valid_grid 9 3 (grid_fun (tokens_grid text)) →
  (731 * (length cls + 2) ≤ fuel_dpll)%nat → (82 ≤ fuel_bt)%nat →
  ∃ st dpll_solution bt_solution,
    solver.solve_cnf fuel_dpll cls nv = Some (Ret (st, dpll_solution))
    ∧ main.solve_with_backtracking fuel_bt text = Some (Ok (st, bt_solution))
    ∧ (st = solver.SAT ↔ ∃ sol, solves_puzzle text sol).
Proof.
  intros Hlen Hsquare Hclues Hcnf Hvalid Hfuel1 Hfuel2.
  assert (cells_readable text) as Hread.
  { apply solving_to_cnf_Ret_iff. exists cls.
    destruct (solving_to_cnf_inv _ _ _ Hcnf) as (boxes & clues & _ & _ & _ & Hnv).
    by rewrite <- Hnv. }
  destruct (read_puzzle_square text Hsquare Hread) as [Hpuzzle Hshape].
  rewrite Hlen in Hshape. change (Z.of_nat 9) with 9 in Hshape.
  set (puzzle := tokens_grid text) in *.
  destruct (solveSudokuRec_total 9 3 fuel_bt puzzle 0 0 Hshape) as (solved & mat' & Hrun);
    [lia..|simpl; lia|].
  assert (main.solve_with_backtracking fuel_bt text
          = Some (Ok (if solved then solver.SAT else solver.UNSAT,
                      if solved then Some mat' else None))) as Hbt.
  { unfold main.solve_with_backtracking, solveSudoku. by rewrite Hpuzzle, Hrun. }
  assert (solved = true ↔ ∃ sol, solves_puzzle text sol) as Hiff.
  { split.
    - intros ->.
      destruct (solveSudokuRec_true 9 3 fuel_bt puzzle mat' 0 0 Hshape)
        as (Hshape' & Hkeep & Hfill & Hvalid'); [lia..|done|].
      exists (grid_fun mat'). apply solves_puzzle_completes; try done.
      split; [|by apply Hvalid']. split.
      + intros r c Hr Hc. destruct (decide (grid_fun puzzle r c = 0)) as [Hzero|Hne].
        * apply Hfill; (done || lia).
        * rewrite Hkeep by done.
          destruct (Hread r c) as (line & z & Hline & Htok); [rewrite Hlen; lia..|].
          pose proof (clues_in_range_lookup text r c z line Hclues Hline Htok) as Hz.
          rewrite Hlen in Hz.
          pose proof (read_puzzle_cell text r c z line ltac:(lia) ltac:(lia) Hline Htok)
            as Hg. fold puzzle in Hg. lia.
      + intros r c Hr Hc Hne. by apply Hkeep.
    - intros [sol Hsol]. apply solves_puzzle_completes in Hsol as [Hcompl Hvsol]; try done.
      destruct solved; [done|]. exfalso.
      by apply (solveSudokuRec_finds 9 3 fuel_bt puzzle mat' 0 0 sol Hshape
                  ltac:(lia) eq_refl ltac:(lia) ltac:(lia) Hcompl Hvsol). }
  destruct (solve_cnf_decides_puzzle fuel_dpll text cls nv Hlen Hclues Hcnf Hfuel1)
    as [[Hex (grid & Hdpll & _)]|[Hno Hdpll]].
  - exists solver.SAT, (Some grid), (Some mat'). split_and!; [done| |done].
    rewrite Hbt. by rewrite (proj2 Hiff Hex).
  - exists solver.UNSAT, None, None. split_and!; [done| |done].
    rewrite Hbt. destruct solved; [|done]. exfalso. by apply Hno, Hiff.
Qed.

Lemma full_square_grid : square_grid full_puzzle.
Proof. apply (bool_decide_unpack _). vm_compute. exact I. Qed.

Lemma sample_valid_grid : valid_grid 9 3 (grid_fun sample_solution).
Proof.
  apply solved_valid; [lia|reflexivity|exact sample_digits|exact sample_rows
                      |exact sample_cols|exact sample_boxes|exact sample_non_consecutive].
Qed.

Lemma solvers_agree_witness :
  ∃ st dpll_solution bt_solution,
    solver.solve_cnf (731 * (length full_clauses + 2)) full_clauses 729
    = Some (Ret (st, dpll_solution))
    ∧ main.solve_with_backtracking 82 full_puzzle = Some (Ok (st, bt_solution))
    ∧ (st = solver.SAT ↔ ∃ sol, solves_puzzle full_puzzle sol).
Proof.
  apply (solvers_agree (731 * (length full_clauses + 2)) 82 full_puzzle full_clauses 729
           eq_refl full_square_grid full_clues_in_range full_to_cnf sample_valid_grid);
    reflexivity.
Defined.

(** X26.  On a 9×9 file without blanks whose digits (in [1..9]) break a
    rule, the two paths disagree: [solve_cnf] on the clauses of [to_cnf]
    returns [("UNSAT", None)], while [solve_with_backtracking] returns
    ["SAT"] with the grid of the file. *)
Theorem solvers_disagree_on_filled_invalid_grid (fuel_dpll fuel_bt : nat)
    (text : list (list token)) (cls : list (list Z)) (nv : Z) :
  length text = 9%nat → square_grid text → clues_in_range text →
  solving_encoder.to_cnf text = Ret (cls, nv) →
  (∀ r c, 0 ≤ r < 9 → 0 ≤ c < 9 → grid_fun (tokens_grid text) r c ≠ 0) →
  ¬ valid_grid 9 3 (grid_fun (tokens_grid text)) →
  (731 * (length cls + 2) ≤ fuel_dpll)%nat → (82 ≤ fuel_bt)%nat →
  solver.solve_cnf fuel_dpll cls nv = Some (Ret (solver.UNSAT, None))
  ∧ main.solve_with_backtracking fuel_bt text
    = Some (Ok (solver.SAT, Some (tokens_grid text))).
Proof.
  intros Hlen Hsquare Hclues Hcnf Hfull Hinvalid Hfuel1 Hfuel2.
  assert (cells_readable text) as Hread.
  { apply solving_to_cnf_Ret_iff. exists cls.
    destruct (solving_to_cnf_inv _ _ _ Hcnf) as (boxes & clues & _ & _ & _ & Hnv).
    by rewrite <- Hnv. }
  destruct (read_puzzle_square text Hsquare Hread) as [Hpuzzle Hshape].
  rewrite Hlen in Hshape. change (Z.of_nat 9) with 9 in Hshape.
  split.
  - destruct (solve_cnf_decides_puzzle fuel_dpll text cls nv Hlen Hclues Hcnf Hfuel1)
      as [[[sol Hsol] _]|[_ Hdpll]]; [|done].
    exfalso. apply solves_puzzle_completes in Hsol as [[Hdig Hkeep] Hvalid]; try done.
    apply Hinvalid. intros r c r' c' Hr Hc Hr' Hc' Hne _ _.
    rewrite <- (Hkeep r c), <- (Hkeep r' c') by (done || by apply Hfull).
    apply Hvalid; try done.
    + pose proof (Hdig r c Hr Hc). lia.
    + pose proof (Hdig r' c' Hr' Hc'). lia.
  - unfold main.solve_with_backtracking. rewrite Hpuzzle.
    unfold solveSudoku.
    by rewrite (solveSudokuRec_full 9 fuel_bt (tokens_grid text) 0 0 Hshape Hfull
                  ltac:(lia) ltac:(lia) ltac:(simpl; lia)).
Qed.

Lemma fives_to_cnf : solving_encoder.to_cnf fives_puzzle = Ret (fives_clauses, 729).
Proof. vm_compute. reflexivity. Qed.

Lemma solvers_disagree_on_filled_invalid_grid_witness :
  solver.solve_cnf (731 * (length fives_clauses + 2)) fives_clauses 729
  = Some (Ret (solver.UNSAT, None))
  ∧ main.solve_with_backtracking 82 fives_puzzle
    = Some (Ok (solver.SAT, Some (tokens_grid fives_puzzle))).
Proof.
  apply (solvers_disagree_on_filled_invalid_grid (731 * (length fives_clauses + 2)) 82
           fives_puzzle fives_clauses 729 eq_refl).
  - apply (bool_decide_unpack _). vm_compute. exact I.
  - apply Forall_replicate, Forall_replicate. intros z [= <-]. simpl. lia.
  - exact fives_to_cnf.
  - intros r c Hr Hc.
    assert (Forall (λ r, Forall (λ c, grid_fun (tokens_grid fives_puzzle) r c ≠ 0)
                           (py_range 0 9)) (py_range 0 9)) as Hall
      by (apply (bool_decide_unpack _); vm_compute; exact I).
    by apply (range_Forall _ _ _ (range_Forall _ _ _ Hall r Hr) c Hc).
  - intros Hvalid. destruct (Hvalid 0 0 0 1) as [Hunit _]; try lia; try done.
    apply Hunit; [by left|reflexivity].
  - reflexivity.
  - reflexivity.
Defined.

End comparison.
